(** * Hidden Markov Model inference (hmm.py): forward-backward and Viterbi

    A shallow embedding of the classes [HMM], [HMMNumpy] and
    [HMMTensorflow] of [hmm.py].

    - numpy float64 scalars are values of an abstract [Backend]: the
      arithmetic, comparison, [exp] and [log] primitives the code calls.
      The algorithms are written once against that signature.  The structural
      results (shapes, index ranges, recurrences, error behaviour) hold for
      every backend.
    - the instance [xreal] interprets the scalars as exact real numbers
      extended with the IEEE exceptional values [+inf], [-inf] and [nan];
      rounding and signed zeros are not modelled.  Results that depend on
      the ordering of scores are stated over it.
    - the renormalisation result is stated for every backend that meets the
      rounding-error bounds of IEEE 754 arithmetic ([rounded_arithmetic]);
      the exact reals are the instance without rounding error.
    - 1-D arrays are lists; the time-indexed tables ([forward], [backward],
      [pathScores], [pathStates]) are lists of rows, read and written by index
      with the bounds check numpy performs; K x K matrices carry their shape
      and a cell accessor.
    - Python exceptions are the [Err] results of an error monad. *)

From stdpp Require Import base list.
From Stdlib Require Import Reals Lra.

Set Default Proof Using "Type".

(** ** Exceptions as results *)

Inductive error : Type :=
  | ValueError
  | IndexError
  | ZeroDivisionError.

Inductive result (A : Type) : Type :=
  | Ok (a : A)
  | Err (e : error).
Arguments Ok {A} a.
Arguments Err {A} e.

#[export] Instance result_ret : MRet result := λ A a, Ok a.
#[export] Instance result_bind : MBind result := λ A B f r,
  match r with
  | Ok a => f a
  | Err e => Err e
  end.

(** A [for] loop whose body may raise: the state is threaded from left to
    right and the first exception ends the loop. *)
Fixpoint foldlM {A S : Type} (body : S → A → result S) (xs : list A) (s : S)
  : result S :=
  match xs with
  | [] => Ok s
  | x :: xs' => s' ← body s x; foldlM body xs' s'
  end.

(** [a[i]] for a non-negative index: IndexError out of range. *)
Definition getitem {A : Type} (a : list A) (i : nat) : result A :=
  match a !! i with
  | Some x => Ok x
  | None => Err IndexError
  end.

(** [a[i] = x] for a non-negative index: IndexError out of range. *)
Definition setitem {A : Type} (a : list A) (i : nat) (x : A) : result (list A) :=
  if decide (i < length a) then Ok (<[i := x]> a) else Err IndexError.

(** The position Python's index [-1] denotes.  On an empty array this is
    position 0, which [getitem] and [setitem] reject like Python does. *)
Definition last_index {A : Type} (a : list A) : nat := length a - 1.

(** ** The numeric backend *)

Class Backend : Type := {
  num : Type;
  zero : num;
  one : num;
  of_nat : nat → num;          (* int to float conversion *)
  add : num → num → num;
  sub : num → num → num;
  mul : num → num → num;
  div : num → num → num;
  opp : num → num;
  abs : num → num;
  exp : num → num;
  log : num → num;
  leb : num → num → bool;      (* the comparison [<=] *)
  isnan : num → bool;
}.

(** 1-D float arrays. *)
Abbreviation vec := (list num) (only parsing).

Section Algorithms.
Context `{B : Backend}.

#[export] Instance num_inhabited : Inhabited num := populate zero.

(** A 2-D ndarray: its shape and its cells.  Cells outside the shape are
    never read by the code below. *)
Record ndarray2 : Type := Ndarray2 {
  nrows : nat;
  ncols : nat;
  cell : nat → nat → num;
}.

Definition shape (M : ndarray2) : nat * nat := (nrows M, ncols M).

Definition of_rows (rows : list (list num)) : ndarray2 :=
  {| nrows := length rows;
     ncols := length (hd [] rows);
     cell := λ i j, (rows !!! i) !!! j |}.

Definition to_rows (M : ndarray2) : list (list num) :=
  (λ i, cell M i <$> seq 0 (ncols M)) <$> seq 0 (nrows M).

(** Element-wise application, as [np.log(P)]. *)
Definition map_ndarray2 (f : num → num) (M : ndarray2) : ndarray2 :=
  {| nrows := nrows M; ncols := ncols M; cell := λ i j, f (cell M i j) |}.

(** Python's builtin [sum] and [np.sum]: accumulate from 0, left to right. *)
Definition np_sum (v : vec) : num := foldl add zero v.

(** [v / s] with the scalar [s] broadcast. *)
Definition vdiv (v : vec) (s : num) : vec := (λ x, div x s) <$> v.

(** [np.multiply(a, b)] and [a + b] on 1-D arrays.  numpy raises ValueError
    when the two shapes disagree; every call below has operands of K entries
    ([forward_pass_rows], [backward_pass_rows], [tables_scores_row]). *)
Definition multiply (a b : vec) : vec := zip_with mul a b.
Definition vadd (a b : vec) : vec := zip_with add a b.

(** [np.matmul(v, M)]: a 1-D array times a matrix, for [v] of as many
    entries as [M] has rows (ValueError in numpy otherwise). *)
Definition matmul_vec (v : vec) (M : ndarray2) : vec :=
  (λ j, np_sum ((λ i, mul (v !!! i) (cell M i j)) <$> seq 0 (nrows M)))
    <$> seq 0 (ncols M).

(** The [*] of [np.matrix]: the matrix product, for [M] of as many columns
    as [N] has rows. *)
Definition matmul (M N : ndarray2) : ndarray2 :=
  {| nrows := nrows M;
     ncols := ncols N;
     cell := λ i j,
       np_sum ((λ k, mul (cell M i k) (cell N k j)) <$> seq 0 (ncols M)) |}.

Definition np_diag (v : vec) : ndarray2 :=
  {| nrows := length v;
     ncols := length v;
     cell := λ i j, if decide (i = j) then v !!! i else zero |}.

(** [np.matrix(v)]: a 1-D array as a 1 x K matrix. *)
Definition np_matrix (v : vec) : ndarray2 :=
  {| nrows := 1; ncols := length v; cell := λ _ j, v !!! j |}.

Definition transpose (M : ndarray2) : ndarray2 :=
  {| nrows := ncols M; ncols := nrows M; cell := λ i j, cell M j i |}.

(** [np.sum] of a 2-D array: all the cells. *)
Definition np_sum2 (M : ndarray2) : num := np_sum (concat (to_rows M)).

(** [M / s] on a 2-D array. *)
Definition mdiv (M : ndarray2) (s : num) : ndarray2 :=
  map_ndarray2 (λ x, div x s) M.

(** The 1-D array a (1, K) matrix broadcasts to when it is assigned to a row. *)
Definition row0 (M : ndarray2) : vec := cell M 0 <$> seq 0 (ncols M).

(** ** class HMM *)

Record HMM : Type := MkHMM {
  w : vec;
  K : nat;
  P : ndarray2;
  logP : ndarray2;
  p0 : vec;
  logp0 : vec;
}.

(** [HMM.__init__(w, P, p0=None)]. *)
Definition HMM_init (w : vec) (P : ndarray2) (p0 : option vec) : result HMM :=
  let K := length w in
  if negb (bool_decide (shape P = (K, K))) then Err ValueError else
  let logP := map_ndarray2 log P in
  match p0 with
  | None =>
      let p0 := replicate K one in
      let p0 := vdiv p0 (np_sum p0) in
      Ok (MkHMM w K P logP p0 (log <$> p0))
  | Some p0 =>
      if negb (bool_decide (length p0 = K)) then Err ValueError else
      Ok (MkHMM w K P logP p0 (log <$> p0))
  end.

(** [HMM.log_lik]: [2 * -np.abs(y - self.w)]. *)
Definition log_lik (m : HMM) (y : num) : vec :=
  (λ wk, mul (of_nat 2) (opp (abs (sub y wk)))) <$> w m.

(** [HMM.lik]. *)
Definition lik (m : HMM) (y : num) : vec := exp <$> log_lik m y.

(** [1.0 / self.K]: true division of a float by a Python int. *)
Definition one_over (k : nat) : result num :=
  if decide (k = 0) then Err ZeroDivisionError else Ok (div one (of_nat k)).

(** ** class HMMNumpy: forward_backward *)

(** The unnormalised row of one step of the forward pass. *)
Definition forward_tmp (m : HMM) (ft : vec) (yt : num) : vec :=
  multiply (matmul_vec ft (P m)) (lik m yt).

(** The unnormalised (1, K) matrix of one step of the backward pass. *)
Definition backward_tmp (m : HMM) (bt : vec) (yt : num) : ndarray2 :=
  transpose
    (matmul (matmul (P m) (np_diag (lik m yt))) (transpose (np_matrix bt))).

(** The body of the forward loop, at time [t]. *)
Definition forward_body (m : HMM) (y : vec) (forward : list vec) (t : nat)
  : result (list vec) :=
  ft ← getitem forward t;
  yt ← getitem y t;
  let tmp := forward_tmp m ft yt in
  setitem forward (t + 1) (vdiv tmp (np_sum tmp)).

(** The forward pass: the array of [nT + 1] rows after the loop. *)
Definition forward_pass (m : HMM) (y : vec) : result (list vec) :=
  let nT := length y in
  let forward := replicate (nT + 1) (replicate (K m) zero) in
  u ← one_over (K m);
  forward ← setitem forward 0 (replicate (K m) u);
  foldlM (forward_body m y) (seq 0 nT) forward.

(** The body of the backward loop, at time [t]. *)
Definition backward_body (m : HMM) (y : vec) (backward : list vec) (t : nat)
  : result (list vec) :=
  bt ← getitem backward t;
  yt ← getitem y (t - 1);
  let tmp := backward_tmp m bt yt in
  setitem backward (t - 1) (row0 (mdiv tmp (np_sum2 tmp))).

(** The backward pass: the array of [nT + 1] rows after the loop. *)
Definition backward_pass (m : HMM) (y : vec) : result (list vec) :=
  let nT := length y in
  let backward := replicate (nT + 1) (replicate (K m) zero) in
  u ← one_over (K m);
  backward ← setitem backward (last_index backward) (replicate (K m) u);
  foldlM (backward_body m y) (rev (seq 1 nT)) backward.

Definition forward_backward (m : HMM) (y : vec)
  : result (list vec * list vec * list vec) :=
  forward ← forward_pass m y;
  backward ← backward_pass m y;
  (* remove initial/final probabilities *)
  let forward := drop 1 forward in
  let backward := take (length backward - 1) backward in
  (* combine and normalize *)
  let posterior := zip_with multiply forward backward in
  let posterior := (λ row, vdiv row (np_sum row)) <$> posterior in
  Ok (posterior, forward, backward).

(** ** class HMMNumpy: viterbi_decode *)

(** [np.argmax] on a 1-D array: the first position of the greatest value.
    The scan replaces its candidate when the next value is not [<=] it and
    stops at a nan. *)
Fixpoint argmax_scan (best : num) (ibest i : nat) (v : vec) : nat :=
  match v with
  | [] => ibest
  | x :: v' =>
      if isnan best then ibest
      else if leb x best then argmax_scan best ibest (S i) v'
      else argmax_scan x i (S i) v'
  end.

Definition argmax_list (v : vec) : nat :=
  match v with
  | [] => 0
  | x :: v' => argmax_scan x 0 1 v'
  end.

Definition np_argmax (v : vec) : result nat :=
  if decide (v = []) then Err ValueError else Ok (argmax_list v).

(** [np.maximum] keeps its first argument when it is [>=] the second or is
    a nan; [np.max] reduces with it from the first element. *)
Definition maximum (a b : num) : num :=
  if isnan a || leb b a then a else b.

Definition max_list (v : vec) : num :=
  match v with
  | [] => zero
  | x :: v' => foldl maximum x v'
  end.

Definition column (M : ndarray2) (j : nat) : vec :=
  (λ i, cell M i j) <$> seq 0 (nrows M).

(** [np.argmax(M, 0)] and [np.max(M, 0)]: one reduction per column;
    ValueError when there is no row to reduce over. *)
Definition np_argmax0 (M : ndarray2) : result (list nat) :=
  if decide (nrows M = 0) then Err ValueError
  else Ok ((λ j, argmax_list (column M j)) <$> seq 0 (ncols M)).

Definition np_max0 (M : ndarray2) : result vec :=
  if decide (nrows M = 0) then Err ValueError
  else Ok ((λ j, max_list (column M j)) <$> seq 0 (ncols M)).

(** [tmpMat[i, j] = scores[i] + self.logP[i, j]] for i, j in range(K): the
    K x K matrix the two nested loops fill. *)
Definition _viterbi_partial_forward (m : HMM) (scores : vec) : ndarray2 :=
  {| nrows := K m;
     ncols := K m;
     cell := λ i j, add (scores !!! i) (cell (logP m) i j) |}.

(** Python's [enumerate]. *)
Definition enumerate {A : Type} (l : list A) : list (nat * A) :=
  zip (seq 0 (length l)) l.

(** The body of the loop over [enumerate(y[1:])]. *)
Definition viterbi_body (m : HMM) (tables : list (list nat) * list vec)
    (ty : nat * num) : result (list (list nat) * list vec) :=
  let '(pathStates, pathScores) := tables in
  let '(t, yy) := ty in
  (* propagate forward *)
  scores ← getitem pathScores t;
  let tmpMat := _viterbi_partial_forward m scores in
  (* the inferred state *)
  states ← np_argmax0 tmpMat;
  pathStates ← setitem pathStates (t + 1) states;
  maxes ← np_max0 tmpMat;
  pathScores ← setitem pathScores (t + 1) (vadd maxes (log_lik m yy));
  Ok (pathStates, pathScores).

(** The forward sweep: the tables [pathStates] and [pathScores]. *)
Definition viterbi_tables (m : HMM) (y : vec)
  : result (list (list nat) * list vec) :=
  let nT := length y in
  let pathStates := replicate nT (replicate (K m) 0) in
  let pathScores := replicate nT (replicate (K m) zero) in
  (* initialize *)
  y0 ← getitem y 0;
  pathScores ← setitem pathScores 0 (vadd (logp0 m) (log_lik m y0));
  foldlM (viterbi_body m) (enumerate (drop 1 y)) (pathStates, pathScores).

(** The body of the backtracking loop: [s[t - 1] = pathStates[t, s[t]]]. *)
Definition backtrack_body (pathStates : list (list nat)) (s : list nat)
    (t : nat) : result (list nat) :=
  st ← getitem s t;
  row ← getitem pathStates t;
  prev ← getitem row st;
  setitem s (t - 1) prev.

(** The backward sweep over [pathStates]. *)
Definition backtrack (pathStates : list (list nat)) (pathScores : list vec)
    (nT : nat) : result (list nat) :=
  let s := replicate nT 0 in
  final ← getitem pathScores (last_index pathScores);
  a ← np_argmax final;
  s ← setitem s (last_index s) a;
  foldlM (backtrack_body pathStates) (rev (seq 1 (nT - 1))) s.

Definition viterbi_decode (m : HMM) (y : vec) : result (list nat * list vec) :=
  '(pathStates, pathScores) ← viterbi_tables m y;
  s ← backtrack pathStates pathScores (length y);
  Ok (s, pathScores).

(** ** The steps and invariants the results are stated with *)

(** One renormalisation of the forward pass and of the backward pass. *)
Definition forward_step (m : HMM) (ft : vec) (yt : num) : vec :=
  vdiv (forward_tmp m ft yt) (np_sum (forward_tmp m ft yt)).

Definition backward_step (m : HMM) (bt : vec) (yt : num) : vec :=
  row0 (mdiv (backward_tmp m bt yt) (np_sum2 (backward_tmp m bt yt))).

(** The uniform row [1/K]. *)
Definition uniform (k : nat) : vec := replicate k (div one (of_nat k)).

(** The row-normalised product of the two arrays. *)
Definition posterior_of (forward backward : list vec) : list vec :=
  (λ row, vdiv row (np_sum row)) <$> zip_with multiply forward backward.

(** The shapes of the attributes of a Model. *)
Record HMM_shaped (m : HMM) : Prop := {
  shaped_w : length (w m) = K m;
  shaped_P : shape (P m) = (K m, K m);
  shaped_logP : shape (logP m) = (K m, K m);
  shaped_p0 : length (p0 m) = K m;
  shaped_logp0 : length (logp0 m) = K m;
}.

(** The two rows one step of the sweep writes, from the previous scores. *)
Definition states_of (m : HMM) (prev : vec) : list nat :=
  (λ j, argmax_list (column (_viterbi_partial_forward m prev) j))
    <$> seq 0 (K m).

Definition scores_of (m : HMM) (prev : vec) (yy : num) : vec :=
  vadd ((λ j, max_list (column (_viterbi_partial_forward m prev) j))
          <$> seq 0 (K m))
       (log_lik m yy).

(** Column [j] of the matrix [M[i][j] = scores[i] + logP[i][j]]. *)
Definition candidates (m : HMM) (prev : vec) (j : nat) : vec :=
  (λ i, add (prev !!! i) (cell (logP m) i j)) <$> seq 0 (K m).

(** Every row of [pathStates] from time 1 on has [k] entries below [k]. *)
Definition states_in_range (k : nat) (pst : list (list nat)) : Prop :=
  ∀ t row, 1 ≤ t → pst !! t = Some row →
    length row = k ∧ Forall (λ i, i < k) row.

(** What the forward sweep leaves in the two tables. *)
Record viterbi_tables_ok (m : HMM) (y : vec)
    (pst : list (list nat)) (psc : list vec) : Prop := {
  tables_states_length : length pst = length y;
  tables_scores_length : length psc = length y;
  tables_init : ∀ y0, y !! 0 = Some y0 →
    psc !! 0 = Some (vadd (logp0 m) (log_lik m y0));
  tables_step : ∀ t prev yy, psc !! t = Some prev → y !! (t + 1) = Some yy →
    pst !! (t + 1) = Some (states_of m prev) ∧
    psc !! (t + 1) = Some (scores_of m prev yy);
}.

(** Entry [j] of the (1, K) matrix [(P . diag(lik) . b^T)^T]. *)
Definition backward_entry (m : HMM) (bt : vec) (yt : num) (j : nat) : num :=
  np_sum ((λ k, mul (cell (matmul (P m) (np_diag (lik m yt))) j k) (bt !!! k))
            <$> seq 0 (length (lik m yt))).

(** Every renormalisation of a run of [forward_backward] divides by a sum
    that is not zero: in the forward pass, in the backward pass, and in the
    row-normalisation of the posterior. *)
Definition no_zero_division (m : HMM) (y : vec) : Prop :=
  ∀ augf augb,
    forward_pass m y = Ok augf →
    backward_pass m y = Ok augb →
    (∀ t ft yt, augf !! t = Some ft → y !! t = Some yt →
       np_sum (forward_tmp m ft yt) ≠ zero) ∧
    (∀ t bt yt, augb !! (t + 1) = Some bt → y !! t = Some yt →
       np_sum2 (backward_tmp m bt yt) ≠ zero) ∧
    (∀ t f b, augf !! (t + 1) = Some f → augb !! t = Some b → t < length y →
       np_sum (multiply f b) ≠ zero).

End Algorithms.

(** ** The score of a state path *)

Section PathScore.
Context `{B : Backend}.

(** The log-score the Viterbi recurrence accumulates along the first
    [t + 1] states of the path [q]: the initial log-probability and
    log-likelihood of [q[0]], then, at each later time, the log-probability
    of the transition taken and the log-likelihood of the state entered,
    added in the order [viterbi_decode] adds them. *)
Fixpoint score_at (m : HMM) (y : vec) (q : list nat) (t : nat) : num :=
  match t with
  | 0 => add (logp0 m !!! (q !!! 0)) (log_lik m (y !!! 0) !!! (q !!! 0))
  | S t' =>
      add (add (score_at m y q t') (cell (logP m) (q !!! t') (q !!! t)))
          (log_lik m (y !!! t) !!! (q !!! t))
  end.

(** The score of a whole path for the sequence [y]. *)
Definition path_score (m : HMM) (y : vec) (q : list nat) : num :=
  score_at m y q (length y - 1).

(** A path for [y] over the states of [m]. *)
Definition state_path (m : HMM) (y : vec) (q : list nat) : Prop :=
  length q = length y ∧ Forall (λ i, i < K m) q.

End PathScore.

(** ** class HMMTensorflow: forward_backward *)

(** A tensor is modelled by the value it evaluates to: a 2-D array.  The
    rows of the three returned lists are tensors of shape (1, K). *)

Section Tensorflow.
Context `{B : Backend}.

(** [tf.ones((1, k), dtype=tf.float64) * x]. *)
Definition tf_ones_times (k : nat) (x : num) : ndarray2 :=
  {| nrows := 1; ncols := k; cell := λ _ _, mul one x |}.

(** [tf.mul(A, v)] for a matrix [A] and a 1-D array [v] of as many entries
    as [A] has columns: [v] is broadcast along the rows. *)
Definition tf_mul_row (A : ndarray2) (v : vec) : ndarray2 :=
  {| nrows := nrows A;
     ncols := ncols A;
     cell := λ i j, mul (cell A i j) (v !!! j) |}.

(** [A * C] on two tensors of one shape: the element-wise product. *)
Definition tf_mul (A C : ndarray2) : ndarray2 :=
  {| nrows := nrows A;
     ncols := ncols A;
     cell := λ i j, mul (cell A i j) (cell C i j) |}.

(** The conversion a TensorFlow operation applies to an operand: a list
    slot still holding [None] is rejected with ValueError. *)
Definition tf_value (o : option ndarray2) : result ndarray2 :=
  match o with
  | Some T => Ok T
  | None => Err ValueError
  end.

(** The body of the forward loop: [forward.append(tmp / tf.reduce_sum(tmp))]. *)
Definition tf_forward_body (m : HMM) (y : vec) (forward : list ndarray2)
    (t : nat) : result (list ndarray2) :=
  ft ← getitem forward t;
  yt ← getitem y t;
  let tmp := tf_mul_row (matmul ft (P m)) (lik m yt) in
  Ok (forward ++ [mdiv tmp (np_sum2 tmp)]).

(** The body of the backward loop. *)
Definition tf_backward_body (m : HMM) (y : vec)
    (backward : list (option ndarray2)) (t : nat)
  : result (list (option ndarray2)) :=
  yt ← getitem y (t - 1);
  bt ← getitem backward t;
  bt ← tf_value bt;
  let tmp :=
    transpose
      (matmul (matmul (P m) (np_diag (lik m yt))) (transpose bt)) in
  setitem backward (t - 1) (Some (mdiv tmp (np_sum2 tmp))).

(** [[f * b for f, b in zip(forward, backward)]]. *)
Definition tf_products (forward : list ndarray2)
    (backward : list (option ndarray2)) : result (list ndarray2) :=
  mapM (M := result)
    (λ fb : ndarray2 * option ndarray2, b ← tf_value fb.2; Ok (tf_mul fb.1 b))
    (zip forward backward).

(** [HMMTensorflow.forward_backward]. *)
Definition tf_forward_backward (m : HMM) (y : vec)
  : result (list ndarray2 * list ndarray2 * list (option ndarray2)) :=
  let nT := length y in
  (* forward pass *)
  u ← one_over (K m);
  let forward := [tf_ones_times (K m) u] in
  forward ← foldlM (tf_forward_body m y) (seq 0 nT) forward;
  (* backward pass *)
  let backward := replicate (nT + 1) None in
  u ← one_over (K m);
  backward ← setitem backward (last_index backward)
               (Some (tf_ones_times (K m) u));
  backward ← foldlM (tf_backward_body m y) (rev (seq 1 nT)) backward;
  (* remove initial/final probabilities *)
  let forward := drop 1 forward in
  let backward := take (length backward - 1) backward in
  (* combine and normalize *)
  posterior ← tf_products forward backward;
  let posterior :=
    (λ p, mdiv p (np_sum2 p)) <$> (posterior : list ndarray2) in
  Ok (posterior, forward, backward).

(** The tensor [T] of shape (1, K) holds the row [v]. *)
Definition holds_row (T : ndarray2) (v : vec) : Prop :=
  nrows T = 1 ∧ ncols T = length v ∧ row0 T = v.

(** A slot of the TensorFlow [backward] list that holds the row [v]. *)
Definition slot_holds (o : option ndarray2) (v : vec) : Prop :=
  ∃ T, o = Some T ∧ holds_row T v.

(** *** HMMTensorflow._viterbi_partial_forward *)

(** [tf.expand_dims(v, 1)]: a 1-D array as a (K, 1) tensor. *)
Definition tf_expand_dims1 (v : vec) : ndarray2 :=
  {| nrows := length v; ncols := 1; cell := λ i _, v !!! i |}.

(** [tf.concat(1, Ts)] for a non-empty list of tensors with the same number
    of rows: the tensors side by side. *)
Fixpoint tf_concat1_cell (Ts : list ndarray2) (i j : nat) : num :=
  match Ts with
  | [] => zero
  | T :: Ts' =>
      if decide (j < ncols T) then cell T i j
      else tf_concat1_cell Ts' i (j - ncols T)
  end.

Definition tf_concat1 (Ts : list ndarray2) : ndarray2 :=
  {| nrows := match Ts with [] => 0 | T :: _ => nrows T end;
     ncols := sum_list (ncols <$> Ts);
     cell := tf_concat1_cell Ts |}.

(** [A + C] on two tensors of one shape. *)
Definition tf_add (A C : ndarray2) : ndarray2 :=
  {| nrows := nrows A;
     ncols := ncols A;
     cell := λ i j, add (cell A i j) (cell C i j) |}.

Definition tf_viterbi_partial_forward (m : HMM) (scores : vec) : ndarray2 :=
  (* first convert scores into shape [K, 1]
     then concatenate K of them into shape [K, K] *)
  let expanded_scores :=
    tf_concat1 (replicate (K m) (tf_expand_dims1 scores)) in
  tf_add expanded_scores (logP m).

End Tensorflow.

(** *** HMMTensorflow.viterbi_decode *)

Section TensorflowViterbi.
Context `{B : Backend}.

(** [tf.argmax] and [tf.reduce_max] along one non-empty 1-D slice.
    TensorFlow does not say which position [tf.argmax] returns among equal
    values or beside a nan, so the two reductions are parameters of the
    model. *)
Variable tf_argmax : vec → nat.
Variable tf_reduce_max : vec → num.

(** [tf.argmax(M, 0)] and [tf.reduce_max(M, 0)]: one reduction per column. *)
Definition tf_argmax0 (M : ndarray2) : list nat :=
  (λ j, tf_argmax (column M j)) <$> seq 0 (ncols M).

Definition tf_reduce_max0 (M : ndarray2) : vec :=
  (λ j, tf_reduce_max (column M j)) <$> seq 0 (ncols M).

(** The body of the loop over [enumerate(y[1:])]: both tables grow by
    [append].  The tensors are modelled by their values, for K >= 1. *)
Definition tf_viterbi_body (m : HMM)
    (tables : list (option (list nat)) * list vec) (ty : nat * num)
  : result (list (option (list nat)) * list vec) :=
  let '(pathStates, pathScores) := tables in
  let '(t, yy) := ty in
  (* propagate forward *)
  scores ← getitem pathScores t;
  let tmpMat := tf_viterbi_partial_forward m scores in
  (* the inferred state *)
  let pathStates := pathStates ++ [Some (tf_argmax0 tmpMat)] in
  let pathScores :=
    pathScores ++ [vadd (tf_reduce_max0 tmpMat) (log_lik m yy)] in
  Ok (pathStates, pathScores).

(** The forward sweep: the lists [pathStates] and [pathScores]. *)
Definition tf_viterbi_tables (m : HMM) (y : vec)
  : result (list (option (list nat)) * list vec) :=
  (* initialize *)
  let pathStates := [None] in
  y0 ← getitem y 0;
  let pathScores := [vadd (logp0 m) (log_lik m y0)] in
  foldlM (tf_viterbi_body m) (enumerate (drop 1 y)) (pathStates, pathScores).

(** [tf.gather(params, i)] on a 1-D tensor of states.  [None] is no tensor
    (ValueError); an index out of range is an error of the graph, shown here
    as IndexError. *)
Definition tf_gather (params : option (list nat)) (i : nat) : result nat :=
  match params with
  | None => Err ValueError
  | Some states => getitem states i
  end.

(** The body of the backtracking loop:
    [s[t - 1] = tf.gather(pathStates[t], s[t])]. *)
Definition tf_backtrack_body (pathStates : list (option (list nat)))
    (s : list nat) (t : nat) : result (list nat) :=
  states ← getitem pathStates t;
  st ← getitem s t;
  prev ← tf_gather states st;
  setitem s (t - 1) prev.

(** The backward sweep, over the [nT] entries of [s]. *)
Definition tf_backtrack (pathStates : list (option (list nat)))
    (pathScores : list vec) (nT : nat) : result (list nat) :=
  let s := replicate nT 0 in
  final ← getitem pathScores (last_index pathScores);
  s ← setitem s (last_index s) (tf_argmax final);
  foldlM (tf_backtrack_body pathStates) (rev (seq 1 (nT - 1))) s.

(** [HMMTensorflow.viterbi_decode(y, nT)], for [nT >= 0]. *)
Definition tf_viterbi_decode (m : HMM) (y : vec) (nT : nat)
  : result (list nat * list vec) :=
  '(pathStates, pathScores) ← tf_viterbi_tables m y;
  (* now backtrack viterbi to find states *)
  s ← tf_backtrack pathStates pathScores nT;
  Ok (s, pathScores).

(** The two rows one step of the TensorFlow sweep appends. *)
Definition tf_states_of (m : HMM) (prev : vec) : list nat :=
  tf_argmax0 (tf_viterbi_partial_forward m prev).

Definition tf_scores_of (m : HMM) (prev : vec) (yy : num) : vec :=
  vadd (tf_reduce_max0 (tf_viterbi_partial_forward m prev)) (log_lik m yy).

(** Every entry of [pathStates] from time 1 on is a tensor of [k] states
    below [k]. *)
Definition tf_states_in_range (k : nat)
    (pst : list (option (list nat))) : Prop :=
  ∀ t o, 1 ≤ t → pst !! t = Some o →
    ∃ row, o = Some row ∧ length row = k ∧ Forall (λ i, i < k) row.

(** What the TensorFlow sweep leaves in the two lists. *)
Record tf_viterbi_tables_ok (m : HMM) (y : vec)
    (pst : list (option (list nat))) (psc : list vec) : Prop := {
  tf_tables_states_length : length pst = length y;
  tf_tables_scores_length : length psc = length y;
  tf_tables_init : ∀ y0, y !! 0 = Some y0 →
    psc !! 0 = Some (vadd (logp0 m) (log_lik m y0));
  tf_tables_step : ∀ t prev yy,
    psc !! t = Some prev → y !! (t + 1) = Some yy →
    pst !! (t + 1) = Some (Some (tf_states_of m prev)) ∧
    psc !! (t + 1) = Some (tf_scores_of m prev yy);
}.

End TensorflowViterbi.

(** ** Floating-point arithmetic and its rounding errors *)

Section Rounded.
Context `{B : Backend}.

(** Which values are finite numbers (neither an infinity nor a nan), and the
    real number a finite value stands for (both zeros stand for 0). *)
Variable is_finite : num → Prop.
Variable value : num → R.

(** Not negative, when it is a finite number. *)
Definition not_negative (x : num) : Prop := is_finite x → (0 <= value x)%R.

(** What the results below use of IEEE 754 arithmetic with unit roundoff
    [u] and underflow unit [eta]; for binary64 with rounding to nearest,
    [u = 2^-53] and [eta = 2^-1075].
    - An infinity or a nan among the operands of [+] or [*] gives an
      infinity or a nan.
    - A finite result of [+], [*] or [/] on operands that are not negative
      is not negative, and [exp] returns no negative number.
    - A finite sum of two finite numbers is the exact sum, rounded: the
      relative error is at most [u] (the sum of two floats does not
      underflow).
    - A quotient of at most 2 does not overflow; it is the exact quotient,
      rounded, with relative error at most [u] or, when it underflows,
      absolute error at most [eta]. *)
Record rounded_arithmetic (u eta : R) : Prop := {
  ra_unit : (0 <= u < 1)%R;
  ra_eta : (0 <= eta)%R;
  ra_zero : is_finite zero ∧ value zero = 0%R;
  ra_one : not_negative one;
  ra_of_nat : ∀ k, not_negative (of_nat k);
  ra_add_finite : ∀ a b, is_finite (add a b) → is_finite a ∧ is_finite b;
  ra_mul_finite : ∀ a b, is_finite (mul a b) → is_finite a ∧ is_finite b;
  ra_mul_sign : ∀ a b,
    not_negative a → not_negative b → not_negative (mul a b);
  ra_div_sign : ∀ a b,
    not_negative a → not_negative b → not_negative (div a b);
  ra_exp_sign : ∀ a, not_negative (exp a);
  ra_add : ∀ a b,
    is_finite a → is_finite b → (0 <= value a)%R → (0 <= value b)%R →
    is_finite (add a b) →
    ((1 - u) * (value a + value b) <= value (add a b)
       <= (1 + u) * (value a + value b))%R;
  ra_div : ∀ a b,
    is_finite a → is_finite b → (0 <= value a)%R → (0 < value b)%R →
    (value a <= 2 * value b)%R →
    is_finite (div a b) ∧
    ((1 - u) * (value a / value b) - eta <= value (div a b)
       <= (1 + u) * (value a / value b) + eta)%R;
}.

(** The sum of the entries of a row, as real numbers. *)
Definition real_sum (v : vec) : R := foldr (λ x r, (value x + r)%R) 0%R v.

(** A sum a renormalisation can divide by: a finite number that is not 0. *)
Definition regular_sum (s : num) : Prop := is_finite s ∧ value s ≠ 0%R.

(** No renormalisation of a run of [forward_backward] divides by a sum that
    is zero, infinite or nan: in the forward pass, in the backward pass, and
    in the row-normalisation of the posterior. *)
Definition regular_division (m : HMM) (y : vec) : Prop :=
  ∀ augf augb,
    forward_pass m y = Ok augf →
    backward_pass m y = Ok augb →
    (∀ t ft yt, augf !! t = Some ft → y !! t = Some yt →
       regular_sum (np_sum (forward_tmp m ft yt))) ∧
    (∀ t bt yt, augb !! (t + 1) = Some bt → y !! t = Some yt →
       regular_sum (np_sum2 (backward_tmp m bt yt))) ∧
    (∀ t f b, augf !! (t + 1) = Some f → augb !! t = Some b → t < length y →
       regular_sum (np_sum (multiply f b))).

(** The interval around 1 that holds the sum of a renormalised row of [k]
    entries. *)
Definition sum_lower (u eta : R) (k : nat) : R :=
  ((1 - u) / (1 + u) ^ k - INR k * eta)%R.

Definition sum_upper (u eta : R) (k : nat) : R :=
  ((1 + u) / (1 - u) ^ k + INR k * eta)%R.

(** A row of finite numbers that are not negative and sum to 1 up to the
    rounding errors of one renormalisation; so does the sum [np.sum]
    computes, up to the rounding errors of its [k] additions, when it does
    not overflow. *)
Definition sums_to_one (u eta : R) (k : nat) (row : vec) : Prop :=
  Forall (λ x, is_finite x ∧ (0 <= value x)%R) row ∧
  (sum_lower u eta k <= real_sum row <= sum_upper u eta k)%R ∧
  (is_finite (np_sum row) →
   ((1 - u) ^ k * sum_lower u eta k <= value (np_sum row)
      <= (1 + u) ^ k * sum_upper u eta k)%R).

End Rounded.

(** Unit roundoff and underflow unit of binary64 (numpy's float64). *)
Definition binary64_u : R := (/ 2 ^ 53)%R.
Definition binary64_eta : R := (/ 2 ^ 1075)%R.

(** ** The exact extended-real backend *)

(** A float64 value read as a number: a real, one of the two infinities, or
    nan.  Arithmetic on reals is exact; the exceptional values follow
    IEEE 754 (inf - inf, 0 * inf, 0 / 0 and inf / inf are nan, a non-zero
    real over 0 is an infinity, log 0 is -inf, the log of a negative number
    is nan, every comparison with nan is false). *)
Inductive xreal : Type :=
  | Fin (r : R)
  | PInf
  | NInf
  | NaN.

Module XReal.

Definition Rleb (a b : R) : bool := if Rle_dec a b then true else false.

(** The sign of a non-zero number: [Some true] for negative. *)
Definition sign (x : xreal) : option bool :=
  match x with
  | Fin r =>
      if Rlt_dec 0 r then Some false
      else if Rlt_dec r 0 then Some true
      else None
  | PInf => Some false
  | NInf => Some true
  | NaN => None
  end.

Definition inf_of (negative : bool) : xreal := if negative then NInf else PInf.

Definition add (a b : xreal) : xreal :=
  match a, b with
  | Fin x, Fin y => Fin (x + y)
  | NaN, _ | _, NaN => NaN
  | PInf, NInf | NInf, PInf => NaN
  | PInf, _ | _, PInf => PInf
  | NInf, _ | _, NInf => NInf
  end.

Definition opp (a : xreal) : xreal :=
  match a with
  | Fin x => Fin (- x)
  | PInf => NInf
  | NInf => PInf
  | NaN => NaN
  end.

Definition sub (a b : xreal) : xreal := add a (opp b).

Definition mul (a b : xreal) : xreal :=
  match a, b with
  | Fin x, Fin y => Fin (x * y)
  | _, _ =>
      match sign a, sign b with
      | Some s, Some t => inf_of (xorb s t)
      | _, _ => NaN
      end
  end.

Definition div (a b : xreal) : xreal :=
  match a, b with
  | Fin x, Fin y =>
      if Req_dec_T y 0 then
        match sign a with
        | Some s => inf_of s
        | None => NaN
        end
      else Fin (x / y)
  | NaN, _ | _, NaN => NaN
  | Fin _, _ => Fin 0
  | _, Fin y =>
      match sign a with
      | Some s => inf_of (xorb s (if Rlt_dec y 0 then true else false))
      | None => NaN
      end
  | _, _ => NaN
  end.

Definition abs (a : xreal) : xreal :=
  match a with
  | Fin x => Fin (Rabs x)
  | PInf | NInf => PInf
  | NaN => NaN
  end.

Definition exp (a : xreal) : xreal :=
  match a with
  | Fin x => Fin (Rtrigo_def.exp x)
  | PInf => PInf
  | NInf => Fin 0
  | NaN => NaN
  end.

Definition log (a : xreal) : xreal :=
  match a with
  | Fin x =>
      if Rlt_dec 0 x then Fin (ln x)
      else if Req_dec_T x 0 then NInf
      else NaN
  | PInf => PInf
  | NInf | NaN => NaN
  end.

Definition leb (a b : xreal) : bool :=
  match a, b with
  | NaN, _ | _, NaN => false
  | Fin x, Fin y => Rleb x y
  | NInf, _ => true
  | _, PInf => true
  | _, _ => false
  end.

Definition isnan (a : xreal) : bool :=
  match a with
  | NaN => true
  | _ => false
  end.

End XReal.

(** The two operations that decide on their argument are unfolded on demand. *)
Arguments XReal.div : simpl never.
Arguments XReal.log : simpl never.

#[export] Instance xreal_backend : Backend := {|
  num := xreal;
  zero := Fin 0;
  one := Fin 1;
  of_nat := λ n, Fin (INR n);
  add := XReal.add;
  sub := XReal.sub;
  mul := XReal.mul;
  div := XReal.div;
  opp := XReal.opp;
  abs := XReal.abs;
  exp := XReal.exp;
  log := XReal.log;
  leb := XReal.leb;
  isnan := XReal.isnan;
|}.

(** Lists of scores are typed over [num]; this restores that reading after
    a step has unfolded it to [xreal]. *)
Ltac as_num := change xreal with (@num xreal_backend) in *.
Ltac num_lia := as_num; lia.

(** ** Properties of values, rows and inputs over the extended reals *)

(** A log-probability: a real or -inf. *)
Definition regular (x : num) : Prop :=
  match x with
  | Fin _ | NInf => True
  | PInf | NaN => False
  end.

Definition finite (x : num) : Prop :=
  match x with
  | Fin _ => True
  | _ => False
  end.

(** A probability-like input: a real that is not negative. *)
Definition nonneg (x : num) : Prop :=
  match x with
  | Fin r => (0 <= r)%R
  | _ => False
  end.

Definition positive (x : num) : Prop :=
  match x with
  | Fin r => (0 < r)%R
  | _ => False
  end.

(** The real a finite value stands for. *)
Definition val (x : num) : R :=
  match x with
  | Fin r => r
  | _ => 0%R
  end.

(** [i] is the first position of a greatest element of [v]: the value there
    bounds every element, and every earlier element is strictly below it. *)
Definition is_first_max (v : vec) (i : nat) : Prop :=
  ∃ x, v !! i = Some x ∧
    (∀ k z, v !! k = Some z → XReal.leb z x = true) ∧
    (∀ k z, k < i → v !! k = Some z → XReal.leb x z = false).

(** The numeric side of the Model invariants: finite emission parameters and
    observations, and probabilities that are non-negative reals. *)
Record valid_inputs (m : HMM) (y : vec) : Prop := {
  valid_w : Forall finite (w m);
  valid_P : ∀ i j, i < K m → j < K m → nonneg (cell (P m) i j);
  valid_p0 : Forall nonneg (p0 m);
  valid_y : Forall finite y;
}.

(** The numeric side of the Model invariants forward-backward relies on:
    every input is a real number. *)
Record finite_inputs (m : HMM) (y : vec) : Prop := {
  finite_w : Forall finite (w m);
  finite_P : ∀ i j, i < K m → j < K m → finite (cell (P m) i j);
  finite_y : Forall finite y;
}.

(** Real-valued inputs with strictly positive transition probabilities. *)
Record positive_inputs (m : HMM) (y : vec) : Prop := {
  positive_w : Forall finite (w m);
  positive_P : ∀ i j, i < K m → j < K m → positive (cell (P m) i j);
  positive_y : Forall finite y;
}.

(** ** The two-state chain of [gradient_hmm] and of the main block *)

Definition toy_w : vec := [Fin 0; Fin 1].

Definition toy_P : ndarray2 :=
  of_rows [[Fin (1 / 2); Fin (1 / 2)]; [Fin 0; Fin 1]].

Definition toy_y : vec :=
  [Fin 0; Fin 1; Fin 0; Fin 0; Fin 1; Fin 1; Fin 1; Fin 1; Fin 1].

(** The Model [HMM(toy_w, toy_P)] builds, with the uniform default [p0]. *)
Definition toy_hmm : HMM :=
  let p0 := vdiv [one; one] (np_sum [one; one]) in
  MkHMM toy_w 2 toy_P (map_ndarray2 log toy_P) p0 (log <$> p0).

(** The same chain started in state 0. *)
Definition from0 : vec := [Fin 1; Fin 0].

Definition toy_hmm_from0 : HMM :=
  MkHMM toy_w 2 toy_P (map_ndarray2 log toy_P) from0 (log <$> from0).

(** A transition matrix of shape (2, 3), and a chain whose transition
    probabilities are all positive. *)
Definition wide_P : ndarray2 :=
  of_rows [[Fin (1 / 2); Fin (1 / 2); Fin 0]; [Fin 0; Fin 1; Fin 0]].

Definition mix_P : ndarray2 :=
  of_rows [[Fin (1 / 2); Fin (1 / 2)]; [Fin (1 / 4); Fin (3 / 4)]].

Definition mix_hmm : HMM :=
  let p0 := vdiv [one; one] (np_sum [one; one]) in
  MkHMM toy_w 2 mix_P (map_ndarray2 log mix_P) p0 (log <$> p0).

(** The Model with no state: [HMM(np.array([]), np.zeros((0, 0)))]. *)
Definition empty_P : ndarray2 := of_rows [].

Definition empty_hmm : HMM :=
  MkHMM [] 0 empty_P (map_ndarray2 log empty_P) [] [].

(** The one-state chain that cannot move: its only transition has
    probability 0. *)
Definition stuck_P : ndarray2 := of_rows [[Fin 0]].

Definition stuck_hmm : HMM :=
  let p0 := vdiv [one] (np_sum [one]) in
  MkHMM [Fin 0] 1 stuck_P (map_ndarray2 log stuck_P) p0 (log <$> p0).

(** A sequence of one observation. *)
Definition one_obs : vec := [Fin 0].

(** ** Loops over the time-indexed tables (any backend) *)

Section Structure.
Context `{B : Backend}.

Lemma getitem_Some {A : Type} (a : list A) (i : nat) (x : A) :
  a !! i = Some x → getitem a i = Ok x.
Proof. unfold getitem. by intros ->. Qed.

Lemma getitem_Ok {A : Type} (a : list A) (i : nat) (x : A) :
  getitem a i = Ok x → a !! i = Some x.
Proof. unfold getitem. destruct (a !! i); naive_solver. Qed.

Lemma getitem_lt {A : Type} (a : list A) (i : nat) :
  i < length a → ∃ x, a !! i = Some x ∧ getitem a i = Ok x.
Proof.
  intros Hi. destruct (lookup_lt_is_Some_2 a i Hi) as [x Hx].
  exists x. split; [done | by apply getitem_Some].
Qed.

Lemma setitem_lt {A : Type} (a : list A) (i : nat) (x : A) :
  i < length a → setitem a i x = Ok (<[i := x]> a).
Proof. intros Hi. unfold setitem. by rewrite decide_True. Qed.

Lemma setitem_ge {A : Type} (a : list A) (i : nat) (x : A) :
  length a ≤ i → setitem a i x = Err IndexError.
Proof. intros Hi. unfold setitem. rewrite decide_False; [done | lia]. Qed.

Lemma one_over_pos (k : nat) :
  k ≠ 0 → one_over k = Ok (div one (of_nat k)).
Proof. intros Hk. unfold one_over. by rewrite decide_False. Qed.

Lemma foldlM_cons {A S : Type} (body : S → A → result S) x xs s s' :
  body s x = Ok s' → foldlM body (x :: xs) s = foldlM body xs s'.
Proof. cbn [foldlM]. by intros ->. Qed.

Lemma forward_body_Ok m y (fwd : list vec) t ft yt :
  fwd !! t = Some ft → y !! t = Some yt → t + 1 < length fwd →
  forward_body m y fwd t = Ok (<[t + 1 := forward_step m ft yt]> fwd).
Proof.
  intros Hft Hyt Hlt. unfold forward_body.
  rewrite (getitem_Some _ _ _ Hft), (getitem_Some _ _ _ Hyt). cbn.
  by apply setitem_lt.
Qed.

Lemma forward_loop m y : ∀ n a (fwd : list vec),
  a + n = length y →
  length fwd = length y + 1 →
  ∃ fwd',
    foldlM (forward_body m y) (seq a n) fwd = Ok fwd' ∧
    length fwd' = length fwd ∧
    (∀ i, i ≤ a → fwd' !! i = fwd !! i) ∧
    (∀ t ft yt, a ≤ t → fwd' !! t = Some ft → y !! t = Some yt →
       fwd' !! (t + 1) = Some (forward_step m ft yt)).
Proof.
  induction n as [|n IH]; intros a fwd Han Hlen.
  - exists fwd. repeat split; [done..|].
    intros t ft yt Hat _ Hy. apply lookup_lt_Some in Hy. lia.
  - destruct (getitem_lt fwd a) as (ft & Hft & Gft); [lia|].
    destruct (getitem_lt y a) as (yt & Hyt & Gyt); [lia|].
    set (fwd1 := <[a + 1 := forward_step m ft yt]> fwd).
    destruct (IH (S a) fwd1) as (fwd' & Hrun & Hlen' & Hkeep & Hstep).
    { lia. } { unfold fwd1. rewrite length_insert. lia. }
    exists fwd'. split; [|split; [|split]].
    + cbn [seq]. erewrite foldlM_cons; [exact Hrun|].
      apply forward_body_Ok; [done..|lia].
    + rewrite Hlen'. unfold fwd1. by rewrite length_insert.
    + intros i Hi. rewrite Hkeep by lia. unfold fwd1.
      apply list_lookup_insert_ne. lia.
    + intros t ft' yt' Hat Hft' Hyt'.
      destruct (decide (t = a)) as [->|Hne].
      * rewrite Hkeep in Hft' by lia. unfold fwd1 in Hft'.
        rewrite list_lookup_insert_ne in Hft' by lia.
        rewrite Hkeep by lia. unfold fwd1.
        rewrite list_lookup_insert_eq by lia.
        congruence.
      * apply Hstep; [lia | done..].
Qed.

Lemma forward_pass_spec m y :
  K m ≠ 0 →
  ∃ aug,
    forward_pass m y = Ok aug ∧
    length aug = length y + 1 ∧
    aug !! 0 = Some (uniform (K m)) ∧
    (∀ t ft yt, aug !! t = Some ft → y !! t = Some yt →
       aug !! (t + 1) = Some (forward_step m ft yt)).
Proof.
  intros HK. unfold forward_pass.
  rewrite (one_over_pos _ HK). cbn.
  rewrite setitem_lt by (rewrite length_replicate; lia). cbn.
  set (fwd0 := <[0 := _]> _).
  assert (Hlen0 : length fwd0 = length y + 1).
  { unfold fwd0. by rewrite length_insert, length_replicate. }
  destruct (forward_loop m y (length y) 0 fwd0) as (aug & Hrun & Hlen & Hkeep & Hstep);
    [lia | done |].
  exists aug. split; [done|]. split; [lia|]. split.
  - rewrite Hkeep by lia. unfold fwd0.
    rewrite list_lookup_insert_eq by (rewrite length_replicate; lia). done.
  - intros t ft yt. apply Hstep. lia.
Qed.

Lemma backward_body_Ok m y (bwd : list vec) t bt yt :
  bwd !! t = Some bt → y !! (t - 1) = Some yt → t - 1 < length bwd →
  backward_body m y bwd t = Ok (<[t - 1 := backward_step m bt yt]> bwd).
Proof.
  intros Hbt Hyt Hlt. unfold backward_body.
  rewrite (getitem_Some _ _ _ Hbt), (getitem_Some _ _ _ Hyt). cbn.
  by apply setitem_lt.
Qed.

Lemma rev_seq_S (a n : nat) : rev (seq a (S n)) = (a + n) :: rev (seq a n).
Proof. by rewrite seq_S, rev_unit. Qed.

Lemma backward_loop m y : ∀ n (bwd : list vec),
  n ≤ length y →
  length bwd = length y + 1 →
  ∃ bwd',
    foldlM (backward_body m y) (rev (seq 1 n)) bwd = Ok bwd' ∧
    length bwd' = length bwd ∧
    (∀ i, n ≤ i → bwd' !! i = bwd !! i) ∧
    (∀ t bt yt, 1 ≤ t ≤ n → bwd' !! t = Some bt → y !! (t - 1) = Some yt →
       bwd' !! (t - 1) = Some (backward_step m bt yt)).
Proof.
  induction n as [|n IH]; intros bwd Hn Hlen.
  - exists bwd. repeat split; [done..|]. intros; lia.
  - destruct (lookup_lt_is_Some_2 bwd (S n)) as [bt Hbt]; [lia|].
    destruct (lookup_lt_is_Some_2 y n) as [yt Hyt]; [lia|].
    set (bwd1 := <[n := backward_step m bt yt]> bwd).
    destruct (IH bwd1) as (bwd' & Hrun & Hlen' & Hkeep & Hstep).
    { lia. } { unfold bwd1. rewrite length_insert. lia. }
    exists bwd'. split; [|split; [|split]].
    + rewrite rev_seq_S. erewrite foldlM_cons; [exact Hrun|].
      cbn [Nat.add]. rewrite (backward_body_Ok m y bwd (S n) bt yt).
      * by replace (S n - 1) with n by lia.
      * done.
      * by replace (S n - 1) with n by lia.
      * lia.
    + rewrite Hlen'. unfold bwd1. by rewrite length_insert.
    + intros i Hi. rewrite Hkeep by lia. unfold bwd1.
      apply list_lookup_insert_ne. lia.
    + intros t bt' yt' Ht Hbt' Hyt'.
      destruct (decide (t = S n)) as [->|Hne].
      * replace (S n - 1) with n in * by lia.
        rewrite Hkeep in Hbt' by lia. unfold bwd1 in Hbt'.
        rewrite list_lookup_insert_ne in Hbt' by lia.
        rewrite Hkeep by lia. unfold bwd1.
        rewrite list_lookup_insert_eq by lia.
        congruence.
      * apply Hstep; [lia | done..].
Qed.

Lemma backward_pass_spec m y :
  K m ≠ 0 →
  ∃ aug,
    backward_pass m y = Ok aug ∧
    length aug = length y + 1 ∧
    aug !! length y = Some (uniform (K m)) ∧
    (∀ t bt yt, 1 ≤ t → aug !! t = Some bt → y !! (t - 1) = Some yt →
       aug !! (t - 1) = Some (backward_step m bt yt)).
Proof.
  intros HK. unfold backward_pass.
  rewrite (one_over_pos _ HK). cbn.
  unfold last_index. rewrite length_replicate.
  replace (length y + 1 - 1) with (length y) by lia.
  rewrite setitem_lt by (rewrite length_replicate; lia). cbn.
  set (bwd0 := <[length y := _]> _).
  assert (Hlen0 : length bwd0 = length y + 1).
  { unfold bwd0. by rewrite length_insert, length_replicate. }
  destruct (backward_loop m y (length y) bwd0) as (aug & Hrun & Hlen & Hkeep & Hstep);
    [lia | done |].
  exists aug. split; [done|]. split; [lia|]. split.
  - rewrite Hkeep by lia. unfold bwd0.
    rewrite list_lookup_insert_eq by (rewrite length_replicate; lia). done.
  - intros t bt yt Ht Hbt Hyt. apply Hstep; [|done..].
    apply lookup_lt_Some in Hyt. lia.
Qed.

Lemma forward_backward_unfold m y augf augb :
  forward_pass m y = Ok augf →
  backward_pass m y = Ok augb →
  forward_backward m y =
    Ok (posterior_of (drop 1 augf) (take (length augb - 1) augb),
        drop 1 augf, take (length augb - 1) augb).
Proof. unfold forward_backward. by intros -> ->. Qed.

(** *** The shape invariants the constructor establishes *)

Lemma HMM_init_Ok w0 P0 op m :
  HMM_init w0 P0 op = Ok m →
  w m = w0 ∧ P m = P0 ∧ K m = length w0 ∧ logP m = map_ndarray2 log P0 ∧
  logp0 m = log <$> p0 m ∧
  shape P0 = (length w0, length w0) ∧
  match op with
  | Some p => p0 m = p ∧ length p = length w0
  | None =>
      p0 m = vdiv (replicate (length w0) one) (np_sum (replicate (length w0) one))
  end.
Proof.
  unfold HMM_init. case_bool_decide as HP; cbn; [|done].
  destruct op as [p|].
  - case_bool_decide as Hp; cbn; [|done]. intros [= <-]. cbn. done.
  - intros [= <-]. cbn. done.
Qed.

Lemma HMM_init_shaped w0 P0 op m : HMM_init w0 P0 op = Ok m → HMM_shaped m.
Proof.
  intros Hinit. destruct (HMM_init_Ok _ _ _ _ Hinit)
    as (Hw & HP & HK & HlogP & Hlogp0 & Hshape & Hp0).
  assert (Hlp : length (p0 m) = K m).
  { destruct op as [p|].
    - destruct Hp0 as [-> ->]. done.
    - rewrite Hp0. unfold vdiv. by rewrite length_fmap, length_replicate. }
  split.
  - by rewrite Hw.
  - by rewrite HP, HK.
  - rewrite HlogP, HK. exact Hshape.
  - exact Hlp.
  - by rewrite Hlogp0, length_fmap.
Qed.

Lemma length_log_lik m y : length (log_lik m y) = length (w m).
Proof. unfold log_lik. by rewrite length_fmap. Qed.

Lemma length_lik m y : length (lik m y) = length (w m).
Proof. unfold lik. by rewrite length_fmap, length_log_lik. Qed.

(** *** argmax stays inside the array *)

Lemma argmax_scan_range : ∀ (v : vec) best ibest i,
  argmax_scan best ibest i v = ibest ∨
  i ≤ argmax_scan best ibest i v < i + length v.
Proof.
  induction v as [|x v IH]; intros best ibest i; cbn; [by left|].
  destruct (isnan best); [by left|].
  destruct (leb x best).
  - destruct (IH best ibest (S i)) as [->|?]; [by left | right; lia].
  - destruct (IH x i (S i)) as [->|?]; right; lia.
Qed.

Lemma argmax_list_lt (v : vec) : v ≠ [] → argmax_list v < length v.
Proof.
  destruct v as [|x v]; [done|]. intros _. cbn.
  destruct (argmax_scan_range v x 0 1) as [->|?]; lia.
Qed.

Lemma length_column M j : length (column M j) = nrows M.
Proof. unfold column. by rewrite length_fmap, length_seq. Qed.

Lemma length_states_of m prev : length (states_of m prev) = K m.
Proof. unfold states_of. by rewrite length_fmap, length_seq. Qed.

Lemma argmax_column_lt M j : nrows M ≠ 0 → argmax_list (column M j) < nrows M.
Proof.
  intros HM. pose proof (argmax_list_lt (column M j)) as Hlt.
  rewrite length_column in Hlt. apply Hlt.
  intros Hnil. pose proof (length_column M j) as Hc.
  rewrite Hnil in Hc. cbn in Hc. done.
Qed.

Lemma states_of_lt m prev : K m ≠ 0 → Forall (λ i, i < K m) (states_of m prev).
Proof.
  intros HK. unfold states_of. apply Forall_fmap, Forall_forall.
  intros j _. apply (argmax_column_lt (_viterbi_partial_forward m prev) j HK).
Qed.

Lemma length_scores_of m prev yy :
  length (w m) = K m → length (scores_of m prev yy) = K m.
Proof.
  intros Hw. unfold scores_of, vadd.
  rewrite length_zip_with, length_fmap, length_seq, length_log_lik. lia.
Qed.

Lemma viterbi_body_Ok m (pst : list (list nat)) (psc : list vec) t yy prev :
  K m ≠ 0 →
  psc !! t = Some prev →
  t + 1 < length pst →
  t + 1 < length psc →
  viterbi_body m (pst, psc) (t, yy) =
    Ok (<[t + 1 := states_of m prev]> pst,
        <[t + 1 := scores_of m prev yy]> psc).
Proof.
  intros HK Hprev Hpst Hpsc. unfold viterbi_body.
  rewrite (getitem_Some _ _ _ Hprev). cbn.
  unfold np_argmax0, np_max0. cbn.
  rewrite !decide_False by done. cbn.
  rewrite setitem_lt by done. cbn.
  rewrite setitem_lt by done. done.
Qed.

Lemma viterbi_loop m y :
  K m ≠ 0 →
  ∀ (l : vec) a (pst : list (list nat)) (psc : list vec),
  a + 1 + length l = length y →
  (∀ k, l !! k = y !! (a + 1 + k)) →
  length pst = length y →
  length psc = length y →
  ∃ pst' psc',
    foldlM (viterbi_body m) (zip (seq a (length l)) l) (pst, psc)
      = Ok (pst', psc') ∧
    length pst' = length y ∧
    length psc' = length y ∧
    (∀ i, i ≤ a → pst' !! i = pst !! i ∧ psc' !! i = psc !! i) ∧
    (∀ t prev yy, a ≤ t → psc' !! t = Some prev → y !! (t + 1) = Some yy →
       pst' !! (t + 1) = Some (states_of m prev) ∧
       psc' !! (t + 1) = Some (scores_of m prev yy)).
Proof.
  intros HK. induction l as [|yy l IH]; intros a pst psc Hal Hl Hpst Hpsc.
  - exists pst, psc. cbn in Hal.
    split; [done|]. split; [done|]. split; [done|]. split; [done|].
    intros t prev yy' Hat _ Hy. apply lookup_lt_Some in Hy. lia.
  - cbn [length] in Hal.
    destruct (lookup_lt_is_Some_2 psc a) as [prev Hprev]; [lia|].
    set (pst1 := <[a + 1 := states_of m prev]> pst).
    set (psc1 := <[a + 1 := scores_of m prev yy]> psc).
    destruct (IH (S a) pst1 psc1) as (pst' & psc' & Hrun & Hl1 & Hl2 & Hkeep & Hstep).
    { lia. }
    { intros k. replace (S a + 1 + k) with (a + 1 + S k) by lia.
      by rewrite <- Hl. }
    { unfold pst1. by rewrite length_insert. }
    { unfold psc1. by rewrite length_insert. }
    assert (Hyy : y !! (a + 1) = Some yy).
    { specialize (Hl 0). cbn in Hl. rewrite Nat.add_0_r in Hl. done. }
    exists pst', psc'. split; [|split; [done|split; [done|split]]].
    + cbn [length seq zip zip_with]. erewrite foldlM_cons; [exact Hrun|].
      apply viterbi_body_Ok; [done | done | lia | lia].
    + intros i Hi. destruct (Hkeep i) as [-> ->]; [lia|].
      unfold pst1, psc1. rewrite !list_lookup_insert_ne by lia. done.
    + intros t prev' yy' Hat Hprev' Hyy'.
      destruct (decide (t = a)) as [->|Hne]; [|apply Hstep; [lia|done..]].
      destruct (Hkeep a) as [_ Ha]; [lia|].
      rewrite Ha in Hprev'. unfold psc1 in Hprev'.
      rewrite list_lookup_insert_ne in Hprev' by lia.
      assert (prev' = prev) as -> by congruence.
      assert (yy' = yy) as -> by congruence.
      destruct (Hkeep (a + 1)) as [-> ->]; [lia|].
      unfold pst1, psc1. rewrite !list_lookup_insert_eq by lia. done.
Qed.

Lemma viterbi_tables_spec m y0 (ys : vec) :
  K m ≠ 0 →
  ∃ pst psc,
    viterbi_tables m (y0 :: ys) = Ok (pst, psc) ∧
    length pst = S (length ys) ∧
    length psc = S (length ys) ∧
    psc !! 0 = Some (vadd (logp0 m) (log_lik m y0)) ∧
    (∀ t prev yy, psc !! t = Some prev → (y0 :: ys) !! (t + 1) = Some yy →
       pst !! (t + 1) = Some (states_of m prev) ∧
       psc !! (t + 1) = Some (scores_of m prev yy)).
Proof.
  intros HK. unfold viterbi_tables, enumerate.
  cbn [length getitem lookup list_lookup drop]. cbn [mbind result_bind].
  rewrite setitem_lt by (rewrite length_replicate; lia). cbn [mbind result_bind].
  set (pst0 := replicate _ _). set (psc0 := <[0 := _]> _).
  destruct (viterbi_loop m (y0 :: ys) HK ys 0 pst0 psc0)
    as (pst & psc & Hrun & Hl1 & Hl2 & Hkeep & Hstep).
  { cbn. lia. } { done. }
  { unfold pst0. by rewrite length_replicate. }
  { unfold psc0. by rewrite length_insert, length_replicate. }
  exists pst, psc. split; [exact Hrun|]. split; [done|]. split; [done|]. split.
  - destruct (Hkeep 0) as [_ ->]; [lia|]. unfold psc0.
    rewrite list_lookup_insert_eq by (rewrite length_replicate; lia). done.
  - intros t prev yy. apply Hstep. lia.
Qed.

Lemma backtrack_body_Ok (pst : list (list nat)) (s : list nat) t st row prev :
  s !! t = Some st → pst !! t = Some row → row !! st = Some prev →
  t - 1 < length s →
  backtrack_body pst s t = Ok (<[t - 1 := prev]> s).
Proof.
  intros Hst Hrow Hprev Hlt. unfold backtrack_body.
  rewrite (getitem_Some _ _ _ Hst). cbn.
  rewrite (getitem_Some _ _ _ Hrow). cbn.
  rewrite (getitem_Some _ _ _ Hprev). cbn.
  by apply setitem_lt.
Qed.

Lemma backtrack_loop (pst : list (list nat)) k :
  states_in_range k pst →
  ∀ n (s : list nat) a,
  n < length s →
  length pst = length s →
  s !! n = Some a → a < k →
  ∃ s',
    foldlM (backtrack_body pst) (rev (seq 1 n)) s = Ok s' ∧
    length s' = length s ∧
    (∀ i, n ≤ i → s' !! i = s !! i) ∧
    (∀ t, 1 ≤ t ≤ n → ∃ st row,
       s' !! t = Some st ∧ pst !! t = Some row ∧ s' !! (t - 1) = row !! st) ∧
    (∀ i x, i ≤ n → s' !! i = Some x → x < k).
Proof.
  intros Hrange. induction n as [|n IH]; intros s a Hn Hlen Ha Hak.
  - exists s. cbn. split; [done|]. split; [done|]. split; [done|]. split.
    + intros; lia.
    + intros i x Hi Hx. assert (i = 0) as -> by lia. congruence.
  - destruct (lookup_lt_is_Some_2 pst (S n)) as [row Hrow]; [lia|].
    destruct (Hrange (S n) row) as [Hrl Hrk]; [lia|done|].
    destruct (lookup_lt_is_Some_2 row a) as [prev Hprev]; [lia|].
    assert (Hpk : prev < k).
    { eapply (Forall_lookup_1 _ _ _ _ Hrk Hprev). }
    set (s1 := <[n := prev]> s).
    destruct (IH s1 prev) as (s' & Hrun & Hlen' & Hkeep & Hstep & Hlt).
    { unfold s1. rewrite length_insert. lia. }
    { unfold s1. by rewrite length_insert. }
    { unfold s1. rewrite list_lookup_insert_eq by lia. done. }
    { done. }
    assert (HsS : s' !! S n = Some a).
    { rewrite Hkeep by lia. unfold s1.
      rewrite list_lookup_insert_ne by lia. done. }
    assert (Hsn : s' !! n = Some prev).
    { rewrite Hkeep by lia. unfold s1.
      rewrite list_lookup_insert_eq by lia. done. }
    exists s'. split; [|split; [|split; [|split]]].
    + rewrite rev_seq_S. cbn [Nat.add]. erewrite foldlM_cons; [exact Hrun|].
      rewrite (backtrack_body_Ok pst s (S n) a row prev); [|done..|lia].
      by replace (S n - 1) with n by lia.
    + rewrite Hlen'. unfold s1. by rewrite length_insert.
    + intros i Hi. rewrite Hkeep by lia. unfold s1.
      apply list_lookup_insert_ne. lia.
    + intros t Ht. destruct (decide (t = S n)) as [->|Hne].
      * exists a, row. replace (S n - 1) with n by lia.
        split; [done|]. split; [done|]. congruence.
      * apply Hstep. lia.
    + intros i x Hi Hx. destruct (decide (i = S n)) as [->|Hne].
      * congruence.
      * apply (Hlt i x); [lia|done].
Qed.

Lemma backtrack_spec (pst : list (list nat)) (psc : list vec) nT k final :
  states_in_range k pst →
  1 ≤ nT →
  length pst = nT →
  length psc = nT →
  psc !! (nT - 1) = Some final →
  length final = k → k ≠ 0 →
  ∃ s,
    backtrack pst psc nT = Ok s ∧
    length s = nT ∧
    s !! (nT - 1) = Some (argmax_list final) ∧
    (∀ t, 1 ≤ t < nT → ∃ st row,
       s !! t = Some st ∧ pst !! t = Some row ∧ s !! (t - 1) = row !! st) ∧
    Forall (λ i, i < k) s.
Proof.
  intros Hrange HT Hpst Hpsc Hfinal Hfl Hk. unfold backtrack, last_index.
  rewrite Hpsc, (getitem_Some _ _ _ Hfinal). cbn [mbind result_bind].
  assert (Hne : final ≠ []). { intros ->. cbn in Hfl. lia. }
  unfold np_argmax. rewrite decide_False by done. cbn [mbind result_bind].
  rewrite length_replicate.
  rewrite setitem_lt by (rewrite length_replicate; lia). cbn [mbind result_bind].
  set (s0 := <[nT - 1 := _]> _).
  assert (Hs0 : length s0 = nT).
  { unfold s0. by rewrite length_insert, length_replicate. }
  pose proof (argmax_list_lt final Hne) as Harg.
  destruct (backtrack_loop pst k Hrange (nT - 1) s0 (argmax_list final))
    as (s & Hrun & Hlen & Hkeep & Hstep & Hlt).
  { lia. } { lia. }
  { unfold s0. rewrite list_lookup_insert_eq by (rewrite length_replicate; lia).
    done. }
  { lia. }
  exists s. split; [exact Hrun|]. split; [lia|]. split; [|split].
  - rewrite Hkeep by lia. unfold s0.
    rewrite list_lookup_insert_eq by (rewrite length_replicate; lia). done.
  - intros t Ht. apply Hstep. lia.
  - apply Forall_lookup_2. intros i x Hx. apply (Hlt i x); [|done].
    apply lookup_lt_Some in Hx. lia.
Qed.

Lemma tables_scores_row m y pst psc :
  HMM_shaped m → viterbi_tables_ok m y pst psc →
  ∀ t row, psc !! t = Some row → length row = K m.
Proof.
  intros Hm Hok. induction t as [|t IH]; intros row Hrow.
  - destruct (lookup_lt_is_Some_2 y 0) as [y0 Hy0].
    { apply lookup_lt_Some in Hrow. rewrite (tables_scores_length _ _ _ _ Hok) in Hrow. done. }
    rewrite (tables_init _ _ _ _ Hok y0 Hy0) in Hrow. injection Hrow as <-.
    unfold vadd. rewrite length_zip_with, length_log_lik.
    rewrite (shaped_w m Hm), (shaped_logp0 m Hm). lia.
  - pose proof (lookup_lt_Some _ _ _ Hrow) as Hlt.
    rewrite (tables_scores_length _ _ _ _ Hok) in Hlt.
    destruct (lookup_lt_is_Some_2 psc t) as [prev Hprev].
    { rewrite (tables_scores_length _ _ _ _ Hok). lia. }
    destruct (lookup_lt_is_Some_2 y (t + 1)) as [yy Hyy]; [lia|].
    destruct (tables_step _ _ _ _ Hok t prev yy Hprev Hyy) as [_ Hsc].
    replace (t + 1) with (S t) in Hsc by lia.
    rewrite Hsc in Hrow. injection Hrow as <-.
    apply length_scores_of, (shaped_w m Hm).
Qed.

Lemma tables_states_row m y pst psc :
  K m ≠ 0 → viterbi_tables_ok m y pst psc → states_in_range (K m) pst.
Proof.
  intros HK Hok t row Ht Hrow.
  pose proof (lookup_lt_Some _ _ _ Hrow) as Hlt.
  rewrite (tables_states_length _ _ _ _ Hok) in Hlt.
  destruct t as [|t]; [lia|].
  destruct (lookup_lt_is_Some_2 psc t) as [prev Hprev].
  { rewrite (tables_scores_length _ _ _ _ Hok). lia. }
  destruct (lookup_lt_is_Some_2 y (t + 1)) as [yy Hyy]; [lia|].
  destruct (tables_step _ _ _ _ Hok t prev yy Hprev Hyy) as [Hst _].
  replace (t + 1) with (S t) in Hst by lia.
  rewrite Hst in Hrow. injection Hrow as <-.
  split; [apply length_states_of | by apply states_of_lt].
Qed.

(** The whole of [viterbi_decode] on a non-empty sequence. *)
Lemma viterbi_decode_spec m (y : vec) :
  HMM_shaped m → K m ≠ 0 → y ≠ [] →
  ∃ pst psc s final,
    viterbi_tables m y = Ok (pst, psc) ∧
    viterbi_tables_ok m y pst psc ∧
    viterbi_decode m y = Ok (s, psc) ∧
    length s = length y ∧
    psc !! (length y - 1) = Some final ∧
    length final = K m ∧
    s !! (length y - 1) = Some (argmax_list final) ∧
    (∀ t, 1 ≤ t < length y → ∃ st row,
       s !! t = Some st ∧ pst !! t = Some row ∧ s !! (t - 1) = row !! st) ∧
    Forall (λ i, i < K m) s.
Proof.
  intros Hm HK Hy. destruct y as [|y0 ys]; [done|].
  destruct (viterbi_tables_spec m y0 ys HK)
    as (pst & psc & Htab & Hl1 & Hl2 & Hinit & Hstep).
  assert (Hok : viterbi_tables_ok m (y0 :: ys) pst psc).
  { split; [done | done | |done]. intros y0' [= <-]. done. }
  destruct (lookup_lt_is_Some_2 psc (length (y0 :: ys) - 1)) as [final Hfinal].
  { cbn. lia. }
  pose proof (tables_scores_row m _ pst psc Hm Hok _ _ Hfinal) as Hfl.
  destruct (backtrack_spec pst psc (length (y0 :: ys)) (K m) final)
    as (s & Hbt & Hsl & Hlast & Hback & Hrange);
    [by eapply tables_states_row | cbn; lia | done | done | done | done | done |].
  exists pst, psc, s, final. split; [done|]. split; [done|]. split.
  { unfold viterbi_decode. rewrite Htab. cbn [mbind result_bind].
    rewrite Hbt. done. }
  done.
Qed.

(** [forward_backward] does not read [p0], [logp0] or [logP]. *)
Lemma forward_backward_ext m m' (y : vec) :
  w m = w m' → K m = K m' → P m = P m' →
  forward_backward m y = forward_backward m' y.
Proof.
  destruct m, m'. cbn. intros -> -> ->. reflexivity.
Qed.

End Structure.

(** ** Results that hold for every backend *)

Section AnyBackend.
Context `{B : Backend}.

(** C2. For a Model with K >= 1 states and any sequence [y] of length T, the
    forward pass works on an array of T + 1 rows whose row 0 is the uniform
    row 1/K; for every t < T, row t + 1 is
    [(forward[t] . P) * lik(y[t])] divided by its sum; [forward_backward]
    returns that array without row 0, hence T rows. *)
Theorem forward_pass_recurrence w0 P0 op m (y : vec) :
  HMM_init w0 P0 op = Ok m →
  w0 ≠ [] →
  ∃ aug post fwd bwd,
    forward_pass m y = Ok aug ∧
    forward_backward m y = Ok (post, fwd, bwd) ∧
    length aug = length y + 1 ∧
    aug !! 0 = Some (replicate (K m) (div one (of_nat (K m)))) ∧
    (∀ t, t < length y → ∃ ft yt,
       aug !! t = Some ft ∧ y !! t = Some yt ∧
       let unnormalized := multiply (matmul_vec ft (P m)) (lik m yt) in
       aug !! (t + 1) = Some (vdiv unnormalized (np_sum unnormalized))) ∧
    fwd = drop 1 aug ∧
    length fwd = length y.
Proof.
  intros Hinit Hw.
  destruct (HMM_init_Ok _ _ _ _ Hinit) as (_ & _ & HK & _).
  assert (HK0 : K m ≠ 0). { rewrite HK. by destruct w0. }
  destruct (forward_pass_spec m y HK0) as (aug & Hf & Hlen & H0 & Hstep).
  destruct (backward_pass_spec m y HK0) as (augb & Hb & _).
  exists aug. eexists _, _, _.
  split; [done|]. split; [by apply forward_backward_unfold|].
  split; [done|]. split; [done|]. split; [|split; [done|]].
  - intros t Ht.
    destruct (lookup_lt_is_Some_2 aug t) as [ft Hft]; [lia|].
    destruct (lookup_lt_is_Some_2 y t) as [yt Hyt]; [lia|].
    exists ft, yt. split; [done|]. split; [done|].
    apply (Hstep t ft yt Hft Hyt).
  - rewrite length_drop. lia.
Qed.

(** C3. For a Model with K >= 1 states and any sequence [y] of length T, the
    backward pass works on an array of T + 1 rows whose row T is the uniform
    row 1/K; for every t from T down to 1, row t - 1 is the transpose of
    [P . diag(lik(y[t-1])) . backward[t]^T] divided by its sum;
    [forward_backward] returns that array without row T, hence T rows. *)
Theorem backward_pass_recurrence w0 P0 op m (y : vec) :
  HMM_init w0 P0 op = Ok m →
  w0 ≠ [] →
  ∃ aug post fwd bwd,
    backward_pass m y = Ok aug ∧
    forward_backward m y = Ok (post, fwd, bwd) ∧
    length aug = length y + 1 ∧
    aug !! length y = Some (replicate (K m) (div one (of_nat (K m)))) ∧
    (∀ t, 1 ≤ t ≤ length y → ∃ bt yt,
       aug !! t = Some bt ∧ y !! (t - 1) = Some yt ∧
       let unnormalized :=
         transpose (matmul (matmul (P m) (np_diag (lik m yt)))
                           (transpose (np_matrix bt))) in
       aug !! (t - 1) =
         Some (row0 (mdiv unnormalized (np_sum2 unnormalized)))) ∧
    bwd = take (length y) aug ∧
    length bwd = length y.
Proof.
  intros Hinit Hw.
  destruct (HMM_init_Ok _ _ _ _ Hinit) as (_ & _ & HK & _).
  assert (HK0 : K m ≠ 0). { rewrite HK. by destruct w0. }
  destruct (forward_pass_spec m y HK0) as (augf & Hf & _).
  destruct (backward_pass_spec m y HK0) as (aug & Hb & Hlen & HT & Hstep).
  exists aug. eexists _, _, _.
  split; [done|]. split; [by apply forward_backward_unfold|].
  split; [done|]. split; [done|]. split; [|split].
  - intros t Ht.
    destruct (lookup_lt_is_Some_2 aug t) as [bt Hbt]; [lia|].
    destruct (lookup_lt_is_Some_2 y (t - 1)) as [yt Hyt]; [lia|].
    exists bt, yt. split; [done|]. split; [done|].
    apply (Hstep t bt yt); [lia|done..].
  - f_equal. lia.
  - rewrite length_take. lia.
Qed.

(** C5. Construction raises, and yields no Model, when the shape of the
    transition matrix is not (K, K) or when a supplied initial distribution
    does not have K entries, K being the number of emission parameters.
    A transition matrix of shape (K, K+1) and an initial distribution of
    length K-1 are instances of the two conditions. *)
Theorem HMM_init_shape_mismatch w0 P0 op :
  shape P0 ≠ (length w0, length w0) ∨
    (∃ p, op = Some p ∧ length p ≠ length w0) →
  HMM_init w0 P0 op = Err ValueError ∧ ∀ m, HMM_init w0 P0 op ≠ Ok m.
Proof.
  intros Hbad.
  assert (HMM_init w0 P0 op = Err ValueError) as ->; [|done].
  unfold HMM_init. case_bool_decide as HP; cbn; [|done].
  destruct Hbad as [?|(p & -> & Hp)]; [done|].
  by rewrite bool_decide_eq_false_2.
Qed.

(** C6. For a Model with K >= 1 states and a non-empty sequence of length T,
    [viterbi_decode] returns a path of exactly T entries, each a state index
    below K, and every read [pathStates[t, s[t]]] of the backtracking is
    inside the table. *)
Theorem viterbi_path_valid w0 P0 op m (y : vec) :
  HMM_init w0 P0 op = Ok m →
  w0 ≠ [] →
  y ≠ [] →
  ∃ pathStates pathScores s,
    viterbi_tables m y = Ok (pathStates, pathScores) ∧
    viterbi_decode m y = Ok (s, pathScores) ∧
    length s = length y ∧
    Forall (λ i, i < K m) s ∧
    (∀ t, 1 ≤ t < length y → ∃ st row,
       s !! t = Some st ∧ pathStates !! t = Some row ∧ st < length row).
Proof.
  intros Hinit Hw Hy.
  destruct (HMM_init_Ok _ _ _ _ Hinit) as (_ & _ & HK & _).
  assert (HK0 : K m ≠ 0). { rewrite HK. by destruct w0. }
  destruct (viterbi_decode_spec m y (HMM_init_shaped _ _ _ _ Hinit) HK0 Hy)
    as (pst & psc & s & final & Htab & Hok & Hdec & Hlen & _ & _ & _ & Hback & Hrange).
  exists pst, psc, s. repeat (split; [done|]).
  intros t Ht. destruct (Hback t Ht) as (st & row & Hst & Hrow & _).
  exists st, row. split; [done|]. split; [done|].
  destruct (tables_states_row m y pst psc HK0 Hok t row) as [-> _]; [lia|done|].
  apply (Forall_lookup_1 _ _ _ _ Hrange Hst).
Qed.

(** C8 (amended). On the empty sequence neither routine validates its
    input: for a Model with K >= 1 states, [forward_backward] returns three
    empty arrays, and [viterbi_decode] raises the IndexError of reading
    [y[0]]. *)
Theorem empty_sequence_behaviour w0 P0 op m :
  HMM_init w0 P0 op = Ok m →
  w0 ≠ [] →
  forward_backward m [] = Ok ([], [], []) ∧
  viterbi_decode m [] = Err IndexError.
Proof.
  intros Hinit Hw.
  destruct (HMM_init_Ok _ _ _ _ Hinit) as (_ & _ & HK & _).
  assert (HK0 : K m ≠ 0). { rewrite HK. by destruct w0. }
  split; [|done].
  unfold forward_backward, forward_pass, backward_pass.
  rewrite (one_over_pos _ HK0). reflexivity.
Qed.

(** C10. Two Models built from the same emission parameters and transition
    matrix, whatever their initial distributions, give the same result of
    [forward_backward] on every sequence. *)
Theorem forward_backward_ignores_p0 w0 P0 op op' m m' (y : vec) :
  HMM_init w0 P0 op = Ok m →
  HMM_init w0 P0 op' = Ok m' →
  forward_backward m y = forward_backward m' y.
Proof.
  intros Hm Hm'.
  destruct (HMM_init_Ok _ _ _ _ Hm) as (Hw & HP & HK & _).
  destruct (HMM_init_Ok _ _ _ _ Hm') as (Hw' & HP' & HK' & _).
  apply forward_backward_ext; congruence.
Qed.

End AnyBackend.

(** ** [np.max] is the value at [np.argmax] (any backend) *)

Section MaxArgmax.
Context `{B : Backend}.

Lemma foldl_maximum_nan (v : vec) best :
  isnan best = true → foldl maximum best v = best.
Proof.
  intros Hnan. induction v as [|x v IH]; [done|].
  cbn. unfold maximum at 2. rewrite Hnan. cbn. exact IH.
Qed.

Lemma argmax_scan_lookup : ∀ (v pre : vec) best ibest i,
  length pre = i →
  pre !! ibest = Some best →
  (pre ++ v) !! argmax_scan best ibest i v = Some (foldl maximum best v).
Proof.
  induction v as [|x v IH]; intros pre best ibest i Hlen Hbest.
  - cbn. by rewrite app_nil_r.
  - cbn [argmax_scan foldl]. destruct (isnan best) eqn:Hnan.
    + unfold maximum at 2. rewrite Hnan. cbn [orb].
      rewrite foldl_maximum_nan by done.
      by apply lookup_app_l_Some.
    + unfold maximum at 2. rewrite Hnan. cbn [orb].
      rewrite (cons_middle x pre v), app_assoc.
      destruct (leb x best).
      * apply IH; [rewrite length_app; cbn; lia|].
        by apply lookup_app_l_Some.
      * apply IH; [rewrite length_app; cbn; lia|].
        rewrite lookup_app_r by lia.
        by replace (i - length pre) with 0 by lia.
Qed.

Lemma max_list_argmax (v : vec) :
  v ≠ [] → v !! argmax_list v = Some (max_list v).
Proof.
  destruct v as [|x v]; [done|]. intros _. cbn [argmax_list max_list].
  apply (argmax_scan_lookup v [x] x 0 1); done.
Qed.

End MaxArgmax.

(** ** Ordering of scores over the extended reals *)

Section Scores.

Implicit Types (x y z : num) (v : vec).

Lemma finite_regular x : finite x → regular x.
Proof. by destruct x. Qed.

Lemma regular_notnan x : regular x → XReal.isnan x = false.
Proof. by destruct x. Qed.

Lemma Rleb_true a b : XReal.Rleb a b = true ↔ (a <= b)%R.
Proof. unfold XReal.Rleb. destruct (Rle_dec a b); naive_solver. Qed.

Lemma Rleb_false a b : XReal.Rleb a b = false ↔ (b < a)%R.
Proof.
  unfold XReal.Rleb. destruct (Rle_dec a b); split; try done; intros; lra.
Qed.

Lemma leb_total x y :
  XReal.isnan x = false → XReal.isnan y = false →
  XReal.leb x y = true ∨ XReal.leb y x = true.
Proof.
  destruct x as [a| | |], y as [b| | |]; cbn; try done; auto.
  intros _ _. rewrite !Rleb_true. lra.
Qed.

Lemma leb_trans x y z :
  XReal.leb x y = true → XReal.leb y z = true → XReal.leb x z = true.
Proof.
  destruct x as [a| | |], y as [b| | |], z as [c| | |]; cbn; try done.
  rewrite !Rleb_true. lra.
Qed.

Lemma leb_refl x : XReal.isnan x = false → XReal.leb x x = true.
Proof. intros Hx. by destruct (leb_total x x Hx Hx). Qed.

Lemma regular_add x y : regular x → regular y → regular (XReal.add x y).
Proof. by destruct x, y. Qed.

Lemma add_NInf_r x : regular x → XReal.add x NInf = NInf.
Proof. by destruct x. Qed.

Lemma leb_NInf_l x : XReal.isnan x = false → XReal.leb NInf x = true.
Proof. by destruct x. Qed.

Lemma log_nonneg_regular x : nonneg x → regular (XReal.log x).
Proof.
  destruct x as [r| | |]; unfold XReal.log; cbn; try done. intros Hr.
  destruct (Rlt_dec 0 r); [done|].
  destruct (Req_dec_T r 0); [done|]. lra.
Qed.

Lemma log_zero : XReal.log (Fin 0) = NInf.
Proof.
  unfold XReal.log. destruct (Rlt_dec 0 0); [lra|]. by destruct (Req_dec_T 0 0).
Qed.

Lemma argmax_scan_first_max : ∀ v pre best ibest i,
  length pre = i →
  pre !! ibest = Some best →
  Forall (λ z, XReal.isnan z = false) (pre ++ v) →
  (∀ k z, pre !! k = Some z → XReal.leb z best = true) →
  (∀ k z, k < ibest → pre !! k = Some z → XReal.leb best z = false) →
  is_first_max (pre ++ v) (argmax_scan best ibest i v).
Proof.
  induction v as [|x v IH]; intros pre best ibest i Hlen Hbest Hnan Hmax Hfirst.
  - cbn. rewrite app_nil_r. exists best. done.
  - assert (Hnb : XReal.isnan best = false).
    { apply (Forall_lookup_1 _ _ ibest best Hnan). by apply lookup_app_l_Some. }
    assert (Hnx : XReal.isnan x = false).
    { apply (Forall_lookup_1 _ _ (length pre) x Hnan).
      rewrite lookup_app_r by num_lia. by rewrite Nat.sub_diag. }
    cbn [argmax_scan]. change (@isnan xreal_backend best) with (XReal.isnan best).
    rewrite Hnb. change (@leb xreal_backend x best) with (XReal.leb x best).
    rewrite (cons_middle x pre v), app_assoc in *.
    assert (Hsnoc : ∀ k z, (pre ++ [x]) !! k = Some z →
              pre !! k = Some z ∨ (k = i ∧ z = x)).
    { intros k z Hk. destruct (decide (k < length pre)) as [Hlt|Hge].
      - left. by rewrite lookup_app_l in Hk.
      - right. rewrite lookup_app_r in Hk by num_lia.
        destruct (k - length pre) as [|d] eqn:Hd; [|done].
        cbn in Hk. split; [num_lia|congruence]. }
    destruct (XReal.leb x best) eqn:Hle.
    + apply IH; [rewrite length_app; cbn [length]; num_lia | by apply lookup_app_l_Some | done | |].
      * intros k z Hk. destruct (Hsnoc k z Hk) as [?|[_ ->]]; [by eapply Hmax|done].
      * intros k z Hk Hz. destruct (Hsnoc k z Hz) as [?|[-> _]]; [by eapply Hfirst|].
        apply lookup_lt_Some in Hbest. num_lia.
    + assert (Hbx : XReal.leb best x = true).
      { by destruct (leb_total x best Hnx Hnb) as [Hc|Hc]; [congruence|]. }
      apply IH; [rewrite length_app; cbn [length]; num_lia | | done | |].
      * rewrite lookup_app_r by num_lia. as_num. by rewrite Hlen, Nat.sub_diag.
      * intros k z Hk. destruct (Hsnoc k z Hk) as [Hp|[_ ->]].
        -- eapply leb_trans; [by eapply Hmax | done].
        -- by apply leb_refl.
      * intros k z Hk Hz. destruct (Hsnoc k z Hz) as [Hp|[-> _]]; [|num_lia].
        destruct (XReal.leb x z) eqn:Hxz; [|done].
        rewrite (leb_trans x z best Hxz) in Hle; [done|by eapply Hmax].
Qed.

Lemma argmax_list_first_max v :
  v ≠ [] → Forall (λ z, XReal.isnan z = false) v →
  is_first_max v (argmax_list v).
Proof.
  destruct v as [|x v]; [done|]. intros _ Hnan. cbn [argmax_list].
  apply (argmax_scan_first_max v [x] x 0 1); [done | done | done | |].
  - intros [|k] z; [|done]. intros [= <-]. apply leb_refl.
    by apply Forall_cons_1 in Hnan as [? _].
  - intros; num_lia.
Qed.

End Scores.

(** ** The entries one step of the Viterbi sweep writes (any backend) *)

Section Entries.
Context `{B : Backend}.

Lemma column_partial_forward m prev j :
  column (_viterbi_partial_forward m prev) j = candidates m prev j.
Proof. reflexivity. Qed.

Lemma length_candidates m prev j : length (candidates m prev j) = K m.
Proof. unfold candidates. by rewrite length_fmap, length_seq. Qed.

Lemma candidates_lookup m prev j i :
  i < K m →
  candidates m prev j !! i = Some (add (prev !!! i) (cell (logP m) i j)).
Proof.
  intros Hi. unfold candidates. rewrite list_lookup_fmap.
  by rewrite lookup_seq_lt.
Qed.

Lemma states_of_lookup m prev j :
  j < K m →
  states_of m prev !! j = Some (argmax_list (candidates m prev j)).
Proof.
  intros Hj. unfold states_of. rewrite list_lookup_fmap.
  by rewrite lookup_seq_lt.
Qed.

Lemma scores_of_lookup m prev yy j l :
  j < K m →
  log_lik m yy !! j = Some l →
  scores_of m prev yy !! j = Some (add (max_list (candidates m prev j)) l).
Proof.
  intros Hj Hl. unfold scores_of, vadd. rewrite lookup_zip_with.
  rewrite list_lookup_fmap, lookup_seq_lt by done. cbn. by rewrite Hl.
Qed.

Lemma log_lik_lookup m yy j wj :
  w m !! j = Some wj →
  log_lik m yy !! j = Some (mul (of_nat 2) (opp (abs (sub yy wj)))).
Proof. intros Hw. unfold log_lik. by rewrite list_lookup_fmap, Hw. Qed.

End Entries.

(** ** Scores of a valid Model are log-probabilities *)

Section RegularScores.

Implicit Types (m : HMM) (y prev : vec).

Lemma finite_log_lik m yy :
  Forall finite (w m) → finite yy → Forall finite (log_lik m yy).
Proof.
  intros Hw Hy. unfold log_lik. apply Forall_fmap.
  eapply Forall_impl; [exact Hw|]. intros wk Hwk. cbn.
  destruct yy, wk; done.
Qed.

Lemma regular_vadd (a b : vec) :
  Forall regular a → Forall regular b → Forall regular (vadd a b).
Proof.
  intros Ha Hb. unfold vadd. apply Forall_lookup_2. intros i x Hx.
  apply lookup_zip_with_Some in Hx as (p & q & -> & Hp & Hq).
  apply regular_add.
  - apply (Forall_lookup_1 _ _ _ _ Ha Hp).
  - apply (Forall_lookup_1 _ _ _ _ Hb Hq).
Qed.

Lemma regular_logp0 w0 P0 op m :
  HMM_init w0 P0 op = Ok m → Forall nonneg (p0 m) → Forall regular (logp0 m).
Proof.
  intros Hinit Hp0.
  destruct (HMM_init_Ok _ _ _ _ Hinit) as (_ & _ & _ & _ & -> & _).
  apply Forall_fmap. eapply Forall_impl; [exact Hp0|].
  intros x Hx. by apply log_nonneg_regular.
Qed.

Lemma regular_logP w0 P0 op m i j :
  HMM_init w0 P0 op = Ok m → nonneg (cell (P m) i j) →
  regular (cell (logP m) i j).
Proof.
  intros Hinit HP.
  destruct (HMM_init_Ok _ _ _ _ Hinit) as (_ & HPm & _ & -> & _).
  rewrite HPm in HP. cbn. by apply log_nonneg_regular.
Qed.

Lemma regular_candidates m prev j :
  length prev = K m → Forall regular prev →
  (∀ i, i < K m → regular (cell (logP m) i j)) →
  Forall regular (candidates m prev j).
Proof.
  intros Hlen Hprev HlogP. unfold candidates.
  apply Forall_fmap, Forall_forall. intros i Hi.
  apply elem_of_seq in Hi. apply regular_add.
  - apply (Forall_lookup_1 _ _ i _ Hprev).
    apply list_lookup_lookup_total_lt. lia.
  - apply HlogP. lia.
Qed.

Lemma regular_max_list (v : vec) :
  v ≠ [] → Forall regular v → regular (max_list v).
Proof.
  intros Hne Hv. apply (Forall_lookup_1 _ _ _ _ Hv (@max_list_argmax xreal_backend v Hne)).
Qed.

Lemma regular_scores_of m prev yy :
  K m ≠ 0 → length prev = K m → Forall regular prev →
  (∀ i j, i < K m → j < K m → regular (cell (logP m) i j)) →
  Forall finite (w m) → finite yy →
  Forall regular (scores_of m prev yy).
Proof.
  intros HK Hlen Hprev HlogP Hw Hy. unfold scores_of. apply regular_vadd.
  - apply Forall_fmap, Forall_forall. intros j Hj.
    apply elem_of_seq in Hj.
    change (regular (max_list (candidates m prev j))).
    apply regular_max_list.
    + intros Hnil. pose proof (length_candidates m prev j) as Hc.
      rewrite Hnil in Hc. cbn in Hc. done.
    + apply regular_candidates; [done..|]. intros i Hi. apply HlogP; lia.
  - eapply Forall_impl; [by apply finite_log_lik|]. apply finite_regular.
Qed.

Lemma tables_regular w0 P0 op m y pst psc :
  HMM_init w0 P0 op = Ok m → K m ≠ 0 → valid_inputs m y →
  viterbi_tables_ok m y pst psc →
  ∀ t row, psc !! t = Some row → Forall regular row.
Proof.
  intros Hinit HK Hv Hok.
  pose proof (HMM_init_shaped _ _ _ _ Hinit) as Hm.
  induction t as [|t IH]; intros row Hrow.
  - destruct (lookup_lt_is_Some_2 y 0) as [y0 Hy0].
    { apply lookup_lt_Some in Hrow.
      by rewrite (tables_scores_length _ _ _ _ Hok) in Hrow. }
    rewrite (tables_init _ _ _ _ Hok y0 Hy0) in Hrow. injection Hrow as <-.
    apply regular_vadd.
    + eapply regular_logp0; [done | apply Hv].
    + eapply Forall_impl; [|apply finite_regular].
      apply finite_log_lik; [apply Hv|].
      apply (Forall_lookup_1 _ _ _ _ (valid_y _ _ Hv) Hy0).
  - pose proof (lookup_lt_Some _ _ _ Hrow) as Hlt.
    rewrite (tables_scores_length _ _ _ _ Hok) in Hlt.
    destruct (lookup_lt_is_Some_2 psc t) as [prev Hprev].
    { rewrite (tables_scores_length _ _ _ _ Hok). lia. }
    destruct (lookup_lt_is_Some_2 y (t + 1)) as [yy Hyy]; [lia|].
    destruct (tables_step _ _ _ _ Hok t prev yy Hprev Hyy) as [_ Hsc].
    replace (t + 1) with (S t) in Hsc by lia.
    rewrite Hsc in Hrow. injection Hrow as <-.
    apply regular_scores_of; [done | | by apply IH | | apply Hv |].
    + by eapply tables_scores_row.
    + intros i j Hi Hj. eapply regular_logP; [done|]. by apply Hv.
    + apply (Forall_lookup_1 _ _ _ _ (valid_y _ _ Hv) Hyy).
Qed.

End RegularScores.

(** ** Viterbi over the extended reals *)

Section ViterbiResults.

Implicit Types (m : HMM) (y prev : vec).

(** C1. For a Model with K >= 1 states whose probabilities are non-negative
    reals and a non-empty sequence [y] of finite observations, the tables of
    [viterbi_decode] satisfy: row 0 of [pathScores] is
    [logp0 + log_lik(y[0])]; for 1 <= t < T and each state j, with
    [M[i] = pathScores[t-1][i] + logP[i][j]], [pathStates[t][j]] is the first
    position of a greatest [M[i]] and [pathScores[t][j]] is that greatest
    value plus [log_lik(y[t])[j]]; the returned path ends at the first
    position of a greatest final score and satisfies
    [s[t-1] = pathStates[t][s[t]]] for t = T-1 down to 1. *)
Theorem viterbi_recurrence w0 P0 op m y :
  HMM_init w0 P0 op = Ok m →
  w0 ≠ [] →
  y ≠ [] →
  valid_inputs m y →
  ∃ pathStates pathScores s,
    viterbi_tables m y = Ok (pathStates, pathScores) ∧
    viterbi_decode m y = Ok (s, pathScores) ∧
    (∃ obs, y !! 0 = Some obs ∧
       pathScores !! 0 = Some (vadd (logp0 m) (log_lik m obs))) ∧
    (∀ t j, 1 ≤ t < length y → j < K m →
       ∃ prev yt states scores i best l,
         pathScores !! (t - 1) = Some prev ∧ y !! t = Some yt ∧
         pathStates !! t = Some states ∧ pathScores !! t = Some scores ∧
         let Mj := (λ i, add (prev !!! i) (cell (logP m) i j)) <$> seq 0 (K m) in
         is_first_max Mj i ∧ Mj !! i = Some best ∧
         states !! j = Some i ∧
         log_lik m yt !! j = Some l ∧
         scores !! j = Some (add best l)) ∧
    (∃ final i, pathScores !! (length y - 1) = Some final ∧
       is_first_max final i ∧ s !! (length y - 1) = Some i) ∧
    (∀ t, 1 ≤ t < length y → ∃ st row before,
       s !! t = Some st ∧ pathStates !! t = Some row ∧
       row !! st = Some before ∧ s !! (t - 1) = Some before).
Proof.
  intros Hinit Hw Hy Hv.
  pose proof (HMM_init_shaped _ _ _ _ Hinit) as Hm.
  destruct (HMM_init_Ok _ _ _ _ Hinit) as (_ & _ & HK & _).
  assert (HK0 : K m ≠ 0). { rewrite HK. by destruct w0. }
  destruct (viterbi_decode_spec m y Hm HK0 Hy)
    as (pst & psc & s & final & Htab & Hok & Hdec & Hlen & Hfinal & Hfl
        & Hlast & Hback & Hrange).
  pose proof (tables_regular _ _ _ _ _ _ _ Hinit HK0 Hv Hok) as Hreg.
  assert (HlogP : ∀ i j, i < K m → j < K m → regular (cell (logP m) i j)).
  { intros i j Hi Hj. eapply regular_logP; [done|]. by apply Hv. }
  exists pst, psc, s. split; [done|]. split; [done|]. split; [|split; [|split]].
  - destruct y as [|obs ys]; [done|]. exists obs. split; [done|].
    by apply (tables_init _ _ _ _ Hok).
  - intros t j Ht Hj.
    destruct (lookup_lt_is_Some_2 psc (t - 1)) as [prev Hprev].
    { rewrite (tables_scores_length _ _ _ _ Hok). lia. }
    destruct (lookup_lt_is_Some_2 y t) as [yt Hyt]; [lia|].
    destruct (tables_step _ _ _ _ Hok (t - 1) prev yt Hprev) as [Hst Hsc].
    { by replace (t - 1 + 1) with t by lia. }
    replace (t - 1 + 1) with t in Hst, Hsc by lia.
    destruct (lookup_lt_is_Some_2 (log_lik m yt) j) as [l Hl].
    { rewrite length_log_lik, (shaped_w m Hm). done. }
    assert (Hne : candidates m prev j ≠ []).
    { intros Hnil. pose proof (length_candidates m prev j) as Hc.
      rewrite Hnil in Hc. cbn in Hc. done. }
    exists prev, yt, (states_of m prev), (scores_of m prev yt),
      (argmax_list (candidates m prev j)), (max_list (candidates m prev j)), l.
    split; [done|]. split; [done|]. split; [done|]. split; [done|].
    change ((λ i, add (prev !!! i) (cell (logP m) i j)) <$> seq 0 (K m))
      with (candidates m prev j). cbv zeta.
    split; [|split; [|split; [|split]]].
    + apply argmax_list_first_max; [done|].
      eapply Forall_impl; [|apply regular_notnan].
      apply regular_candidates; [by eapply tables_scores_row | by eapply Hreg |].
      intros i Hi. by apply HlogP.
    + by apply max_list_argmax.
    + by apply states_of_lookup.
    + done.
    + by apply scores_of_lookup.
  - exists final, (argmax_list final). split; [done|]. split; [|done].
    apply argmax_list_first_max.
    + intros ->. cbn in Hfl. done.
    + eapply Forall_impl; [by eapply Hreg | apply regular_notnan].
  - intros t Ht. destruct (Hback t Ht) as (st & row & Hst & Hrow & Hprev).
    destruct (lookup_lt_is_Some_2 s (t - 1)) as [before Hb]; [lia|].
    exists st, row, before. rewrite Hb in Hprev. done.
Qed.

(** On two states, a transition of probability 0 from state 1 to state 0 is
    never taken: the candidate through state 1 is -inf, which is not above
    the candidate through state 0. *)
Lemma no_return w0 P0 op m y s psc :
  HMM_init w0 P0 op = Ok m →
  K m = 2 →
  y ≠ [] →
  valid_inputs m y →
  cell (P m) 1 0 = Fin 0 →
  viterbi_decode m y = Ok (s, psc) →
  ∀ t, ¬ (s !! t = Some 1 ∧ s !! (t + 1) = Some 0).
Proof.
  intros Hinit HK Hy Hv HP Hdec t [H1 H0].
  pose proof (HMM_init_shaped _ _ _ _ Hinit) as Hm.
  assert (HK0 : K m ≠ 0) by lia.
  destruct (viterbi_decode_spec m y Hm HK0 Hy)
    as (pst & psc' & s' & final & Htab & Hok & Hdec' & Hlen & _ & _ & _ & Hback & _).
  rewrite Hdec in Hdec'. injection Hdec' as <- <-.
  pose proof (lookup_lt_Some _ _ _ H0) as Hlt.
  destruct (Hback (t + 1)) as (st & row & Hst & Hrow & Hprev); [lia|].
  replace (t + 1 - 1) with t in Hprev by lia.
  rewrite H0 in Hst. injection Hst as <-.
  destruct (lookup_lt_is_Some_2 psc t) as [prev Hprev'].
  { rewrite (tables_scores_length _ _ _ _ Hok). lia. }
  destruct (lookup_lt_is_Some_2 y (t + 1)) as [yy Hyy]; [lia|].
  destruct (tables_step _ _ _ _ Hok t prev yy Hprev' Hyy) as [Hstates _].
  rewrite Hrow in Hstates. injection Hstates as ->.
  rewrite states_of_lookup in Hprev by lia.
  rewrite H1 in Hprev. injection Hprev as Harg.
  pose proof (tables_regular _ _ _ _ _ _ _ Hinit HK0 Hv Hok t prev Hprev') as Hreg.
  pose proof (tables_scores_row m y pst psc Hm Hok t prev Hprev') as Hpl.
  assert (HlogP : cell (logP m) 1 0 = NInf).
  { destruct (HMM_init_Ok _ _ _ _ Hinit) as (_ & HPm & _ & -> & _).
    rewrite HPm in HP. cbn. rewrite HP. apply log_zero. }
  assert (Hr0 : regular (XReal.add (prev !!! 0) (cell (logP m) 0 0))).
  { apply regular_add.
    - apply (Forall_lookup_1 _ _ 0 _ Hreg), list_lookup_lookup_total_lt. lia.
    - eapply regular_logP; [done|]. apply Hv; lia. }
  assert (Hr1 : regular (prev !!! 1)).
  { apply (Forall_lookup_1 _ _ 1 _ Hreg), list_lookup_lookup_total_lt. lia. }
  unfold candidates in Harg. rewrite HK in Harg. cbn in Harg.
  rewrite HlogP in Harg. as_num.
  rewrite (regular_notnan _ Hr0) in Harg.
  rewrite (add_NInf_r _ Hr1) in Harg.
  rewrite (leb_NInf_l _ (regular_notnan _ Hr0)) in Harg. done.
Qed.

End ViterbiResults.

Section Toy.

Lemma toy_init : HMM_init toy_w toy_P None = Ok toy_hmm.
Proof. reflexivity. Qed.

Lemma div_fin (a b : R) : b ≠ 0%R → XReal.div (Fin a) (Fin b) = Fin (a / b).
Proof. intros Hb. unfold XReal.div. by destruct (Req_dec_T b 0). Qed.

Lemma toy_valid (y : vec) : Forall finite y → valid_inputs toy_hmm y.
Proof.
  intros Hy. split; [| | |done].
  - repeat constructor.
  - intros i j Hi Hj. cbn in Hi, Hj.
    destruct i as [|[|i]], j as [|[|j]]; try lia; cbn; lra.
  - cbn. rewrite !div_fin by lra.
    assert (nonneg (Fin (1 / (0 + 1 + 1)))) as Hhalf.
    { cbn. apply Rlt_le, Rdiv_lt_0_compat; lra. }
    by repeat apply Forall_cons_2.
Qed.

Lemma toy_y_finite : Forall finite toy_y.
Proof. repeat constructor. Qed.

(** C7. On the chain with transition [[0.5, 0.5], [0, 1]], emission
    parameters [0, 1] and the uniform initial distribution, the path
    [viterbi_decode] returns for y = [0,1,0,0,1,1,1,1,1] has no step from
    state 1 to state 0. *)
Theorem toy_path_never_returns :
  ∃ m s pathScores,
    HMM_init toy_w toy_P None = Ok m ∧
    viterbi_decode m toy_y = Ok (s, pathScores) ∧
    length s = 9 ∧
    ∀ t, ¬ (s !! t = Some 1 ∧ s !! (t + 1) = Some 0).
Proof.
  pose proof (HMM_init_shaped _ _ _ _ toy_init) as Hm.
  destruct (viterbi_decode_spec toy_hmm toy_y Hm) as
    (pst & psc & s & final & _ & _ & Hdec & Hlen & _); [done..|].
  exists toy_hmm, s, psc. split; [exact toy_init|]. split; [done|].
  split; [done|].
  eapply (no_return _ _ _ toy_hmm toy_y s psc toy_init); [done | done | | | done].
  - apply toy_valid, toy_y_finite.
  - reflexivity.
Qed.

End Toy.

(** ** Emission likelihood over the extended reals *)

Section Emission.

Lemma two_times_opp (a : num) :
  XReal.mul (Fin (INR 2)) (XReal.opp a) = XReal.mul (Fin (-2)) a.
Proof.
  destruct a as [r| | |]; cbn.
  - f_equal. lra.
  - destruct (Rlt_dec 0 (1 + 1)); [|lra].
    destruct (Rlt_dec 0 (-2)); [lra|].
    destruct (Rlt_dec (-2) 0); [done|lra].
  - destruct (Rlt_dec 0 (1 + 1)); [|lra].
    destruct (Rlt_dec 0 (-2)); [lra|].
    destruct (Rlt_dec (-2) 0); [done|lra].
  - destruct (Rlt_dec 0 (1 + 1)); [|lra].
    destruct (Rlt_dec 0 (-2)); [lra|].
    destruct (Rlt_dec (-2) 0); [done|lra].
Qed.

(** C9. For a Model with K states and an observation [y], [log_lik(y)] has
    K components, the k-th being [-2 * |y - w[k]|], and [lik(y)] is the
    element-wise exponential of [log_lik(y)].  Both are functions of the
    Model and of [y] alone. *)
Theorem log_lik_formula w0 P0 op (m : HMM) (y : num) :
  HMM_init w0 P0 op = Ok m →
  length (log_lik m y) = K m ∧
  (∀ k, k < K m → ∃ wk,
     w m !! k = Some wk ∧
     log_lik m y !! k =
       Some (XReal.mul (Fin (-2)) (XReal.abs (XReal.sub y wk)))) ∧
  length (lik m y) = K m ∧
  lik m y = XReal.exp <$> log_lik m y ∧
  (∀ k, k < K m → ∃ l,
     log_lik m y !! k = Some l ∧ lik m y !! k = Some (XReal.exp l)).
Proof.
  intros Hinit. pose proof (HMM_init_shaped _ _ _ _ Hinit) as Hm.
  pose proof (shaped_w m Hm) as Hw.
  split; [by rewrite length_log_lik|]. split; [|split; [|split]].
  - intros k Hk. destruct (lookup_lt_is_Some_2 (w m) k) as [wk Hwk]; [lia|].
    exists wk. split; [done|].
    etrans; [apply (log_lik_lookup m y k wk Hwk)|].
    f_equal. apply two_times_opp.
  - by rewrite length_lik.
  - reflexivity.
  - intros k Hk.
    destruct (lookup_lt_is_Some_2 (log_lik m y) k) as [l Hl].
    { rewrite length_log_lik. lia. }
    exists l. split; [done|]. unfold lik. by rewrite list_lookup_fmap, Hl.
Qed.

End Emission.

(** ** Renormalisation over the extended reals *)

Section Normalisation.

Implicit Types (m : HMM) (y v : vec) (x s : num).

Lemma finite_val x : finite x → x = Fin (val x).
Proof. by destruct x. Qed.

Lemma finite_add x1 x2 : finite x1 → finite x2 → finite (XReal.add x1 x2).
Proof. by destruct x1, x2. Qed.

Lemma finite_mul x1 x2 : finite x1 → finite x2 → finite (XReal.mul x1 x2).
Proof. by destruct x1, x2. Qed.

Lemma finite_exp x : finite x → finite (XReal.exp x).
Proof. by destruct x. Qed.

Lemma finite_lookup_total v i : Forall finite v → finite (v !!! i).
Proof.
  intros Hv. rewrite list_lookup_total_alt.
  destruct (v !! i) as [x|] eqn:Hx; cbn; [|done].
  apply (Forall_lookup_1 _ _ _ _ Hv Hx).
Qed.

Lemma finite_foldl_add v : ∀ acc,
  finite acc → Forall finite v → finite (foldl XReal.add acc v).
Proof.
  induction v as [|x v IH]; intros acc Hacc Hv; [done|].
  apply Forall_cons_1 in Hv as [Hx Hv]. cbn. apply IH; [|done].
  by apply finite_add.
Qed.

Lemma finite_np_sum v : Forall finite v → finite (np_sum v).
Proof. intros Hv. by apply finite_foldl_add. Qed.

Lemma foldl_add_val v : ∀ acc,
  Forall finite v →
  foldl XReal.add (Fin acc) v = Fin (foldl Rplus acc (val <$> v)).
Proof.
  induction v as [|x v IH]; intros acc Hv; [done|].
  apply Forall_cons_1 in Hv as [Hx Hv]. cbn [foldl fmap list_fmap].
  rewrite (finite_val x Hx) at 1. cbn [XReal.add]. by apply IH.
Qed.

Lemma foldl_Rplus_div (l : list R) (r : R) : ∀ acc : R,
  foldl Rplus (acc / r)%R ((λ a, a / r)%R <$> l) = (foldl Rplus acc l / r)%R.
Proof.
  induction l as [|a l IH]; intros acc; [done|].
  cbn [foldl fmap list_fmap]. rewrite <- IH. f_equal. lra.
Qed.

Lemma np_sum_val v :
  Forall finite v → np_sum v = Fin (foldl Rplus 0%R (val <$> v)).
Proof. intros Hv. exact (foldl_add_val v 0 Hv). Qed.

(** Dividing a row of reals by its non-zero sum gives a row of reals that
    sums to 1. *)
Lemma normalize_sum v :
  Forall finite v → np_sum v ≠ Fin 0 →
  Forall finite (vdiv v (np_sum v)) ∧ np_sum (vdiv v (np_sum v)) = Fin 1.
Proof.
  intros Hv Hs. rewrite (np_sum_val v Hv) in *.
  set (r := foldl Rplus 0%R (val <$> v)) in *.
  assert (Hr : r ≠ 0%R) by congruence.
  assert (Hdiv : vdiv v (Fin r) = (λ a, Fin (a / r)) <$> (val <$> v)).
  { unfold vdiv. rewrite <- list_fmap_compose.
    apply Forall_fmap_ext_1. eapply Forall_impl; [exact Hv|].
    intros x Hx. cbn. rewrite (finite_val x Hx) at 1. by apply div_fin. }
  rewrite Hdiv. split.
  - apply Forall_fmap, Forall_forall. done.
  - rewrite np_sum_val by (apply Forall_fmap, Forall_forall; done).
    rewrite <- list_fmap_compose.
    replace (val ∘ (λ a, Fin (a / r)) <$> (val <$> v))
      with ((λ a, a / r)%R <$> (val <$> v)) by done.
    replace 0%R with (0 / r)%R at 1 by lra.
    rewrite foldl_Rplus_div. fold r. f_equal. by apply Rdiv_diag.
Qed.

Lemma finite_lik m x : Forall finite (w m) → finite x → Forall finite (lik m x).
Proof.
  intros Hw Hx. unfold lik. apply Forall_fmap.
  eapply Forall_impl; [by apply finite_log_lik|]. apply finite_exp.
Qed.

Lemma finite_multiply v1 v2 :
  Forall finite v1 → Forall finite v2 → Forall finite (multiply v1 v2).
Proof.
  intros H1 H2. unfold multiply. apply Forall_lookup_2. intros i x Hx.
  apply lookup_zip_with_Some in Hx as (p & q & -> & Hp & Hq).
  apply finite_mul.
  - apply (Forall_lookup_1 _ _ _ _ H1 Hp).
  - apply (Forall_lookup_1 _ _ _ _ H2 Hq).
Qed.

Lemma finite_sum_seq (f : nat → num) n :
  (∀ i, i < n → finite (f i)) → finite (np_sum (f <$> seq 0 n)).
Proof.
  intros Hf. apply finite_np_sum, Forall_fmap, Forall_forall.
  intros i Hi. apply elem_of_seq in Hi. apply Hf. lia.
Qed.

Lemma finite_forward_tmp m v x :
  HMM_shaped m → Forall finite (w m) →
  (∀ i j, i < K m → j < K m → finite (cell (P m) i j)) →
  finite x → Forall finite v →
  Forall finite (forward_tmp m v x).
Proof.
  intros Hm Hw HP Hx Hv. unfold forward_tmp.
  pose proof (shaped_P m Hm) as [= Hr Hc].
  apply finite_multiply; [|by apply finite_lik].
  unfold matmul_vec. rewrite Hr, Hc.
  apply Forall_fmap, Forall_forall. intros j Hj. apply elem_of_seq in Hj.
  apply finite_sum_seq. intros i Hi. apply finite_mul.
  - by apply finite_lookup_total.
  - apply HP; lia.
Qed.

End Normalisation.

(** ** Row shapes of forward-backward (any backend) *)

Section RowShapes.
Context `{B : Backend}.

Lemma row0_mdiv M s : row0 (mdiv M s) = vdiv (row0 M) s.
Proof. unfold row0, vdiv. by rewrite <- list_fmap_compose. Qed.

Lemma np_sum2_one_row M : nrows M = 1 → np_sum2 M = np_sum (row0 M).
Proof.
  intros HM. unfold np_sum2, to_rows. rewrite HM. cbn. by rewrite app_nil_r.
Qed.

Lemma row0_backward_tmp m bt yt :
  row0 (backward_tmp m bt yt) = backward_entry m bt yt <$> seq 0 (nrows (P m)).
Proof. reflexivity. Qed.

Lemma np_sum2_backward_tmp m bt yt :
  np_sum2 (backward_tmp m bt yt) = np_sum (row0 (backward_tmp m bt yt)).
Proof. by apply np_sum2_one_row. Qed.

Lemma backward_step_vdiv m bt yt :
  backward_step m bt yt =
    vdiv (row0 (backward_tmp m bt yt)) (np_sum (row0 (backward_tmp m bt yt))).
Proof.
  unfold backward_step. by rewrite row0_mdiv, np_sum2_backward_tmp.
Qed.

Lemma length_forward_tmp m (v : vec) x :
  HMM_shaped m → length (forward_tmp m v x) = K m.
Proof.
  intros Hm. pose proof (shaped_P m Hm) as [= Hr Hc].
  unfold forward_tmp, multiply, matmul_vec.
  rewrite length_zip_with, length_fmap, length_seq, length_lik, Hc.
  rewrite (shaped_w m Hm). lia.
Qed.

Lemma length_backward_row m (v : vec) x :
  HMM_shaped m → length (row0 (backward_tmp m v x)) = K m.
Proof.
  intros Hm. pose proof (shaped_P m Hm) as [= Hr Hc].
  by rewrite row0_backward_tmp, length_fmap, length_seq.
Qed.

(** The operands of every product of the two passes agree in shape: all
    the rows of the two arrays have K entries. *)
Lemma forward_pass_rows m (y : vec) aug :
  HMM_shaped m → K m ≠ 0 → forward_pass m y = Ok aug →
  ∀ t row, aug !! t = Some row → length row = K m.
Proof.
  intros Hm HK Hf.
  destruct (forward_pass_spec m y HK) as (aug' & Hf' & Hlen & H0 & Hstep).
  rewrite Hf in Hf'. injection Hf' as <-.
  induction t as [|t IH]; intros row Hrow.
  - rewrite H0 in Hrow. injection Hrow as <-.
    unfold uniform. by rewrite length_replicate.
  - pose proof (lookup_lt_Some _ _ _ Hrow) as Hlt.
    destruct (lookup_lt_is_Some_2 aug t) as [ft Hft]; [lia|].
    destruct (lookup_lt_is_Some_2 y t) as [yt Hyt]; [lia|].
    pose proof (Hstep t ft yt Hft Hyt) as Hnext.
    replace (t + 1) with (S t) in Hnext by lia.
    rewrite Hnext in Hrow. injection Hrow as <-.
    unfold forward_step, vdiv. by rewrite length_fmap, length_forward_tmp.
Qed.

Lemma backward_pass_rows m (y : vec) aug :
  HMM_shaped m → K m ≠ 0 → backward_pass m y = Ok aug →
  ∀ t row, aug !! t = Some row → length row = K m.
Proof.
  intros Hm HK Hb.
  destruct (backward_pass_spec m y HK) as (aug' & Hb' & Hlen & HT & Hstep).
  rewrite Hb in Hb'. injection Hb' as <-.
  assert (Hdown : ∀ d row, d ≤ length y → aug !! (length y - d) = Some row →
            length row = K m).
  { induction d as [|d IH]; intros row Hd Hrow.
    - rewrite Nat.sub_0_r, HT in Hrow. injection Hrow as <-.
      unfold uniform. by rewrite length_replicate.
    - destruct (lookup_lt_is_Some_2 aug (length y - d)) as [bt Hbt]; [lia|].
      destruct (lookup_lt_is_Some_2 y (length y - S d)) as [yt Hyt]; [lia|].
      replace (length y - S d) with (length y - d - 1) in Hrow, Hyt by lia.
      pose proof (Hstep (length y - d) bt yt) as Hnext.
      rewrite Hnext in Hrow by (done || lia). injection Hrow as <-.
      rewrite backward_step_vdiv. unfold vdiv.
      by rewrite length_fmap, length_backward_row. }
  intros t row Hrow. pose proof (lookup_lt_Some _ _ _ Hrow) as Hlt.
  apply (Hdown (length y - t)); [lia|].
  by replace (length y - (length y - t)) with t by lia.
Qed.

End RowShapes.

(** ** Rows of forward-backward over the extended reals *)

Section RowSums.

Implicit Types (m : HMM) (y v : vec) (x s : num).

Lemma finite_backward_row m v x :
  HMM_shaped m → Forall finite (w m) →
  (∀ i j, i < K m → j < K m → finite (cell (P m) i j)) →
  finite x → Forall finite v →
  Forall finite (row0 (backward_tmp m v x)).
Proof.
  intros Hm Hw HP Hx Hv. rewrite row0_backward_tmp.
  pose proof (shaped_P m Hm) as [= Hr Hc]. rewrite Hr.
  apply Forall_fmap, Forall_forall. intros j Hj. apply elem_of_seq in Hj.
  unfold backward_entry. rewrite length_lik, (shaped_w m Hm).
  apply finite_sum_seq. intros k Hk. apply finite_mul.
  - cbn [matmul cell]. rewrite Hc. apply finite_sum_seq. intros l Hl.
    apply finite_mul; [apply HP; lia|].
    cbn [np_diag cell]. case_decide; [|done].
    apply finite_lookup_total. by apply finite_lik.
  - by apply finite_lookup_total.
Qed.

Lemma finite_uniform k : k ≠ 0 → Forall finite (uniform k).
Proof.
  intros Hk. unfold uniform. apply Forall_replicate.
  change (finite (XReal.div (Fin 1) (Fin (INR k)))).
  rewrite div_fin; [done|]. by apply not_0_INR.
Qed.

Lemma forward_rows_finite m y aug :
  HMM_shaped m → K m ≠ 0 → finite_inputs m y →
  length aug = length y + 1 →
  aug !! 0 = Some (uniform (K m)) →
  (∀ t ft yt, aug !! t = Some ft → y !! t = Some yt →
     aug !! (t + 1) = Some (forward_step m ft yt)) →
  (∀ t ft yt, aug !! t = Some ft → y !! t = Some yt →
     np_sum (forward_tmp m ft yt) ≠ Fin 0) →
  ∀ t row, aug !! t = Some row → Forall finite row.
Proof.
  intros Hm HK Hfin Hlen H0 Hstep Hnz.
  induction t as [|t IH]; intros row Hrow.
  - rewrite H0 in Hrow. injection Hrow as <-. by apply finite_uniform.
  - pose proof (lookup_lt_Some _ _ _ Hrow) as Hlt.
    destruct (lookup_lt_is_Some_2 aug t) as [ft Hft]; [lia|].
    destruct (lookup_lt_is_Some_2 y t) as [yt Hyt]; [lia|].
    pose proof (Hstep t ft yt Hft Hyt) as Hnext.
    replace (t + 1) with (S t) in Hnext by lia.
    rewrite Hnext in Hrow. injection Hrow as <-.
    apply normalize_sum; [|by eapply Hnz].
    apply finite_forward_tmp; [done | apply Hfin | apply Hfin | | by apply IH].
    apply (Forall_lookup_1 _ _ _ _ (finite_y _ _ Hfin) Hyt).
Qed.

Lemma backward_rows_finite m y aug :
  HMM_shaped m → K m ≠ 0 → finite_inputs m y →
  length aug = length y + 1 →
  aug !! length y = Some (uniform (K m)) →
  (∀ t bt yt, 1 ≤ t → aug !! t = Some bt → y !! (t - 1) = Some yt →
     aug !! (t - 1) = Some (backward_step m bt yt)) →
  (∀ t bt yt, aug !! (t + 1) = Some bt → y !! t = Some yt →
     np_sum2 (backward_tmp m bt yt) ≠ Fin 0) →
  ∀ d row, d ≤ length y → aug !! (length y - d) = Some row → Forall finite row.
Proof.
  intros Hm HK Hfin Hlen HT Hstep Hnz.
  induction d as [|d IH]; intros row Hd Hrow.
  - rewrite Nat.sub_0_r, HT in Hrow. injection Hrow as <-.
    by apply finite_uniform.
  - destruct (lookup_lt_is_Some_2 aug (length y - d)) as [bt Hbt]; [lia|].
    destruct (lookup_lt_is_Some_2 y (length y - S d)) as [yt Hyt]; [lia|].
    replace (length y - S d) with (length y - d - 1) in Hrow, Hyt by lia.
    pose proof (Hstep (length y - d) bt yt) as Hnext.
    rewrite Hnext in Hrow by (done || lia). injection Hrow as <-.
    rewrite backward_step_vdiv. apply normalize_sum.
    + apply finite_backward_row; [done | apply Hfin | apply Hfin | | apply IH; [lia|done]].
      apply (Forall_lookup_1 _ _ _ _ (finite_y _ _ Hfin) Hyt).
    + rewrite <- np_sum2_backward_tmp. apply (Hnz (length y - d - 1)); [|done].
      by replace (length y - d - 1 + 1) with (length y - d) by lia.
Qed.

End RowSums.

(** ** Renormalised rows in floating-point arithmetic (any backend) *)

Section RoundedRows.
Context `{B : Backend}.
Context (is_finite : num → Prop) (value : num → R) (u eta : R).
Context (HR : rounded_arithmetic is_finite value u eta).

Implicit Types (m : HMM) (v : vec) (x s : num).

Local Abbreviation ok := (λ x, is_finite x ∧ (0 <= value x)%R).
Local Abbreviation not_neg := (not_negative is_finite value).
Local Abbreviation rsum := (real_sum value).

Lemma not_negative_zero : not_neg zero.
Proof using HR. intros _. rewrite (proj2 (ra_zero _ _ _ _ HR)). lra. Qed.

Lemma not_negative_add a b : not_neg a → not_neg b → not_neg (add a b).
Proof using HR.
  intros Ha Hb Hf. destruct (ra_add_finite _ _ _ _ HR a b Hf) as [Hfa Hfb].
  pose proof (ra_unit _ _ _ _ HR) as Hu.
  pose proof (ra_add _ _ _ _ HR a b Hfa Hfb (Ha Hfa) (Hb Hfb) Hf) as [Hlo _].
  specialize (Ha Hfa). specialize (Hb Hfb).
  eapply Rle_trans; [|exact Hlo]. apply Rmult_le_pos; lra.
Qed.

Lemma not_negative_foldl v : ∀ acc,
  not_neg acc → Forall not_neg v → not_neg (foldl add acc v).
Proof using HR.
  induction v as [|x v IH]; intros acc Hacc Hv; [done|].
  apply Forall_cons_1 in Hv as [Hx Hv]. cbn [foldl].
  apply IH; [|done]. by apply not_negative_add.
Qed.

Lemma not_negative_np_sum v : Forall not_neg v → not_neg (np_sum v).
Proof using HR. apply not_negative_foldl, not_negative_zero. Qed.

Lemma not_negative_lookup_total v i : Forall not_neg v → not_neg (v !!! i).
Proof using HR.
  intros Hv. rewrite list_lookup_total_alt.
  destruct (v !! i) as [x|] eqn:Hx; cbn; [|apply not_negative_zero].
  apply (Forall_lookup_1 _ _ _ _ Hv Hx).
Qed.

Lemma not_negative_sum_seq (f : nat → num) n :
  (∀ i, i < n → not_neg (f i)) → not_neg (np_sum (f <$> seq 0 n)).
Proof using HR.
  intros Hf. apply not_negative_np_sum, Forall_fmap, Forall_forall.
  intros i Hi. apply elem_of_seq in Hi. apply Hf. lia.
Qed.

Lemma not_negative_multiply v1 v2 :
  Forall not_neg v1 → Forall not_neg v2 → Forall not_neg (multiply v1 v2).
Proof using HR.
  intros H1 H2. unfold multiply. apply Forall_lookup_2. intros i x Hx.
  apply lookup_zip_with_Some in Hx as (p & q & -> & Hp & Hq).
  apply (ra_mul_sign _ _ _ _ HR).
  - apply (Forall_lookup_1 _ _ _ _ H1 Hp).
  - apply (Forall_lookup_1 _ _ _ _ H2 Hq).
Qed.

Lemma not_negative_vdiv v s :
  Forall not_neg v → not_neg s → Forall not_neg (vdiv v s).
Proof using HR.
  intros Hv Hs. unfold vdiv. apply Forall_fmap.
  eapply Forall_impl; [exact Hv|]. intros x Hx. cbn.
  by apply (ra_div_sign _ _ _ _ HR).
Qed.

Lemma not_negative_lik m x : Forall not_neg (lik m x).
Proof using HR.
  unfold lik. apply Forall_fmap, Forall_forall. intros a _.
  apply (ra_exp_sign _ _ _ _ HR).
Qed.

Lemma not_negative_uniform k : Forall not_neg (uniform k).
Proof using HR.
  unfold uniform. apply Forall_replicate.
  apply (ra_div_sign _ _ _ _ HR);
    [apply (ra_one _ _ _ _ HR) | apply (ra_of_nat _ _ _ _ HR)].
Qed.

Lemma not_negative_forward_tmp m v x :
  HMM_shaped m →
  (∀ i j, i < K m → j < K m → not_neg (cell (P m) i j)) →
  Forall not_neg v →
  Forall not_neg (forward_tmp m v x).
Proof using HR.
  intros Hm HP Hv. unfold forward_tmp.
  pose proof (shaped_P m Hm) as [= Hr Hc].
  apply not_negative_multiply; [|apply not_negative_lik].
  unfold matmul_vec. rewrite Hr, Hc.
  apply Forall_fmap, Forall_forall. intros j Hj. apply elem_of_seq in Hj.
  apply not_negative_sum_seq. intros i Hi. apply (ra_mul_sign _ _ _ _ HR).
  - by apply not_negative_lookup_total.
  - apply HP; lia.
Qed.

Lemma not_negative_backward_row m v x :
  HMM_shaped m →
  (∀ i j, i < K m → j < K m → not_neg (cell (P m) i j)) →
  Forall not_neg v →
  Forall not_neg (row0 (backward_tmp m v x)).
Proof using HR.
  intros Hm HP Hv. rewrite row0_backward_tmp.
  pose proof (shaped_P m Hm) as [= Hr Hc]. rewrite Hr.
  apply Forall_fmap, Forall_forall. intros j Hj. apply elem_of_seq in Hj.
  unfold backward_entry. rewrite length_lik, (shaped_w m Hm).
  apply not_negative_sum_seq. intros k Hk. apply (ra_mul_sign _ _ _ _ HR).
  - cbn [matmul cell]. rewrite Hc. apply not_negative_sum_seq. intros l Hl.
    apply (ra_mul_sign _ _ _ _ HR); [apply HP; lia|].
    cbn [np_diag cell]. case_decide; [|apply not_negative_zero].
    apply not_negative_lookup_total, not_negative_lik.
  - by apply not_negative_lookup_total.
Qed.

(** *** The computed sum of a row *)

Lemma foldl_add_finite v : ∀ acc,
  is_finite (foldl add acc v) → is_finite acc ∧ Forall is_finite v.
Proof using HR.
  induction v as [|x v IH]; intros acc Hf; [done|].
  cbn [foldl] in Hf. destruct (IH _ Hf) as [Hax Hv].
  destruct (ra_add_finite _ _ _ _ HR _ _ Hax) as [Ha Hx].
  split; [done|]. by constructor.
Qed.

Lemma real_sum_nonneg v : Forall ok v → (0 <= rsum v)%R.
Proof.
  induction 1 as [|x v [_ Hx] _ IH]; cbn [real_sum foldr]; [lra|].
  fold (rsum v). lra.
Qed.

Lemma real_sum_elem v x : Forall ok v → x ∈ v → (value x <= rsum v)%R.
Proof.
  induction 1 as [|a v [_ Ha] Hv IH]; [by intros ?%elem_of_nil|].
  cbn [real_sum foldr]. fold (rsum v).
  pose proof (real_sum_nonneg v Hv) as Hs.
  intros [->|Hx]%elem_of_cons; [lra|]. specialize (IH Hx). lra.
Qed.

Lemma finite_not_negative v :
  Forall is_finite v → Forall not_neg v → Forall ok v.
Proof.
  intros Hf Hn. apply Forall_lookup_2. intros i x Hx.
  pose proof (Forall_lookup_1 _ _ _ _ Hf Hx) as Hfx.
  pose proof (Forall_lookup_1 _ _ _ _ Hn Hx) as Hnx.
  split; [done | by apply Hnx].
Qed.

(** The computed sum of [n] numbers that are not negative is the exact sum
    up to the factor [(1 +- u)^n]. *)
Lemma foldl_add_bounds v : ∀ acc,
  is_finite (foldl add acc v) → (0 <= value acc)%R → Forall not_neg v →
  ((1 - u) ^ length v * (value acc + rsum v) <= value (foldl add acc v)
     <= (1 + u) ^ length v * (value acc + rsum v))%R.
Proof using HR.
  pose proof (ra_unit _ _ _ _ HR) as Hu.
  induction v as [|x v IH]; intros acc Hf Hacc Hv.
  - cbn. lra.
  - apply Forall_cons_1 in Hv as [Hx Hv]. cbn [foldl length] in *.
    destruct (foldl_add_finite v _ Hf) as [Hax Hfv].
    destruct (ra_add_finite _ _ _ _ HR _ _ Hax) as [Hfa Hfx].
    specialize (Hx Hfx).
    pose proof (ra_add _ _ _ _ HR acc x Hfa Hfx Hacc Hx Hax) as [Hlo Hhi].
    assert (Hax0 : (0 <= value (add acc x))%R).
    { eapply Rle_trans; [|exact Hlo]. apply Rmult_le_pos; lra. }
    destruct (IH (add acc x) Hf Hax0 Hv) as [IHlo IHhi].
    pose proof (real_sum_nonneg v (finite_not_negative v Hfv Hv)) as Hs.
    cbn [real_sum foldr]. fold (rsum v).
    assert (Hp1 : (0 <= (1 - u) ^ length v)%R) by (apply pow_le; lra).
    assert (Hp2 : (0 <= (1 + u) ^ length v)%R) by (apply pow_le; lra).
    split.
    + eapply Rle_trans; [|exact IHlo].
      replace ((1 - u) ^ S (length v) * (value acc + (value x + rsum v)))%R
        with ((1 - u) ^ length v
                * ((1 - u) * (value acc + value x) + (1 - u) * rsum v))%R
        by (cbn [pow]; ring).
      apply Rmult_le_compat_l; [done|].
      assert ((1 - u) * rsum v <= rsum v)%R by nra. lra.
    + eapply Rle_trans; [exact IHhi|].
      replace ((1 + u) ^ S (length v) * (value acc + (value x + rsum v)))%R
        with ((1 + u) ^ length v
                * ((1 + u) * (value acc + value x) + (1 + u) * rsum v))%R
        by (cbn [pow]; ring).
      apply Rmult_le_compat_l; [done|].
      assert (rsum v <= (1 + u) * rsum v)%R by nra. lra.
Qed.

Lemma np_sum_bounds v :
  is_finite (np_sum v) → Forall not_neg v →
  Forall ok v ∧
  ((1 - u) ^ length v * rsum v <= value (np_sum v)
     <= (1 + u) ^ length v * rsum v)%R.
Proof using HR.
  intros Hf Hv. destruct (ra_zero _ _ _ _ HR) as [_ Hz].
  destruct (foldl_add_finite v _ Hf) as [_ Hfv].
  split; [by apply finite_not_negative|].
  pose proof (foldl_add_bounds v zero Hf) as Hb.
  rewrite Hz in Hb. specialize (Hb ltac:(lra) Hv).
  by rewrite Rplus_0_l in Hb.
Qed.

(** *** One renormalisation *)

(** Dividing the entries by a positive number [s] that is at least half of
    each. *)
Lemma vdiv_bounds s v :
  is_finite s → (0 < value s)%R →
  Forall (λ x, ok x ∧ (value x <= 2 * value s)%R) v →
  Forall ok (vdiv v s) ∧
  ((1 - u) * (rsum v / value s) - INR (length v) * eta
     <= rsum (vdiv v s)
     <= (1 + u) * (rsum v / value s) + INR (length v) * eta)%R.
Proof using HR.
  intros Hs Hs0. pose proof (ra_unit _ _ _ _ HR) as Hu.
  pose proof (ra_eta _ _ _ _ HR) as He.
  induction 1 as [|x v [[Hfx Hx] Hxs] _ [IHok [IHlo IHhi]]].
  - cbn. split; [constructor|]. unfold Rdiv. lra.
  - destruct (ra_div _ _ _ _ HR x s Hfx Hs Hx Hs0 Hxs) as (Hfd & Hlo & Hhi).
    assert (Hq : (0 <= value x / value s)%R).
    { apply Rmult_le_pos; [done|]. by apply Rlt_le, Rinv_0_lt_compat. }
    assert (Hd0 : (0 <= value (div x s))%R).
    { apply (ra_div_sign _ _ _ _ HR x s); [by intros _ | intros _; lra | done]. }
    change (vdiv (x :: v) s) with (div x s :: vdiv v s).
    split; [by constructor|].
    cbn [real_sum foldr length]. fold (rsum v). fold (rsum (vdiv v s)).
    rewrite S_INR. rewrite Rdiv_plus_distr.
    set (qx := (value x / value s)%R) in *.
    set (qs := (rsum v / value s)%R) in *.
    split; nra.
Qed.

(** Dividing a row of [n] numbers that are not negative by its computed
    sum, when that sum is a finite number other than 0, gives a row that
    sums to 1 up to the rounding errors. *)
Lemma normalize_rounded v :
  Forall not_neg v →
  regular_sum is_finite value (np_sum v) →
  (1 <= 2 * (1 - u) ^ length v)%R →
  sums_to_one is_finite value u eta (length v) (vdiv v (np_sum v)).
Proof using HR.
  intros Hv [Hf Hnz] Hn. pose proof (ra_unit _ _ _ _ HR) as Hu.
  destruct (np_sum_bounds v Hf Hv) as (Hok & Hlo & Hhi).
  pose proof (real_sum_nonneg v Hok) as HS.
  set (n := length v) in *. set (S0 := rsum v) in *.
  set (vs := value (np_sum v)) in *.
  assert (Hp1 : (0 < (1 - u) ^ n)%R) by (apply pow_lt; lra).
  assert (Hp2 : (0 < (1 + u) ^ n)%R) by (apply pow_lt; lra).
  assert (Hvs : (0 < vs)%R).
  { assert (0 <= (1 - u) ^ n * S0)%R by (apply Rmult_le_pos; lra). lra. }
  assert (HS2 : (S0 <= 2 * vs)%R) by nra.
  destruct (vdiv_bounds (np_sum v) v Hf Hvs) as (Hrow & Hrlo & Hrhi).
  { apply Forall_forall. intros x Hx. split.
    - by apply (proj1 (Forall_forall _ _) Hok).
    - pose proof (real_sum_elem v x Hok Hx). fold S0 in H. fold vs. lra. }
  fold S0 vs n in Hrlo, Hrhi. split; [done|].
  unfold sum_lower, sum_upper.
  assert (Hq1 : (/ (1 + u) ^ n <= S0 / vs)%R).
  { apply (Rmult_le_reg_r vs); [done|]. unfold Rdiv.
    rewrite Rmult_assoc, Rinv_l, Rmult_1_r by lra.
    apply (Rmult_le_reg_l ((1 + u) ^ n)); [done|].
    rewrite <- Rmult_assoc, Rinv_r, Rmult_1_l by lra. done. }
  assert (Hq2 : (S0 / vs <= / (1 - u) ^ n)%R).
  { apply (Rmult_le_reg_r vs); [done|]. unfold Rdiv.
    rewrite Rmult_assoc, Rinv_l, Rmult_1_r by lra.
    apply (Rmult_le_reg_l ((1 - u) ^ n)); [done|].
    rewrite <- Rmult_assoc, Rinv_r, Rmult_1_l by lra. done. }
  assert (H1 : ((1 - u) / (1 + u) ^ n <= (1 - u) * (S0 / vs))%R).
  { apply Rmult_le_compat_l; [lra | done]. }
  assert (H2 : ((1 + u) * (S0 / vs) <= (1 + u) / (1 - u) ^ n)%R).
  { apply Rmult_le_compat_l; [lra | done]. }
  assert (Hsum : ((1 - u) / (1 + u) ^ n - INR n * eta
                    <= rsum (vdiv v (np_sum v))
                    <= (1 + u) / (1 - u) ^ n + INR n * eta)%R) by lra.
  split; [exact Hsum|]. intros Hfs.
  destruct (np_sum_bounds (vdiv v (np_sum v)) Hfs) as (_ & Hclo & Hchi).
  { eapply Forall_impl; [exact Hrow|]. by intros x [_ Hx] _. }
  assert (Hlv : length (vdiv v (np_sum v)) = n).
  { unfold vdiv. by rewrite length_fmap. }
  rewrite Hlv in Hclo, Hchi. split.
  - eapply Rle_trans; [|exact Hclo].
    apply Rmult_le_compat_l; [lra | apply Hsum].
  - eapply Rle_trans; [exact Hchi|].
    apply Rmult_le_compat_l; [lra | apply Hsum].
Qed.

(** *** The rows of the two passes are not negative *)

Lemma forward_rows_not_negative m (y : vec) aug :
  HMM_shaped m →
  (∀ i j, i < K m → j < K m → not_neg (cell (P m) i j)) →
  aug !! 0 = Some (uniform (K m)) →
  (∀ t ft yt, aug !! t = Some ft → y !! t = Some yt →
     aug !! (t + 1) = Some (forward_step m ft yt)) →
  length aug = length y + 1 →
  ∀ t row, aug !! t = Some row → Forall not_neg row.
Proof using HR.
  intros Hm HP H0 Hstep Hlen. induction t as [|t IH]; intros row Hrow.
  - rewrite H0 in Hrow. injection Hrow as <-. apply not_negative_uniform.
  - pose proof (lookup_lt_Some _ _ _ Hrow) as Hlt.
    destruct (lookup_lt_is_Some_2 aug t) as [ft Hft]; [lia|].
    destruct (lookup_lt_is_Some_2 y t) as [yt Hyt]; [lia|].
    pose proof (Hstep t ft yt Hft Hyt) as Hnext.
    replace (t + 1) with (S t) in Hnext by lia.
    rewrite Hnext in Hrow. injection Hrow as <-.
    assert (Htmp : Forall not_neg (forward_tmp m ft yt)).
    { apply not_negative_forward_tmp; [done | done | by apply IH]. }
    unfold forward_step. apply not_negative_vdiv; [done|].
    by apply not_negative_np_sum.
Qed.

Lemma backward_rows_not_negative m (y : vec) aug :
  HMM_shaped m →
  (∀ i j, i < K m → j < K m → not_neg (cell (P m) i j)) →
  aug !! length y = Some (uniform (K m)) →
  (∀ t bt yt, 1 ≤ t → aug !! t = Some bt → y !! (t - 1) = Some yt →
     aug !! (t - 1) = Some (backward_step m bt yt)) →
  length aug = length y + 1 →
  ∀ d row, d ≤ length y → aug !! (length y - d) = Some row →
    Forall not_neg row.
Proof using HR.
  intros Hm HP HT Hstep Hlen. induction d as [|d IH]; intros row Hd Hrow.
  - rewrite Nat.sub_0_r, HT in Hrow. injection Hrow as <-.
    apply not_negative_uniform.
  - destruct (lookup_lt_is_Some_2 aug (length y - d)) as [bt Hbt]; [lia|].
    destruct (lookup_lt_is_Some_2 y (length y - S d)) as [yt Hyt]; [lia|].
    replace (length y - S d) with (length y - d - 1) in Hrow, Hyt by lia.
    pose proof (Hstep (length y - d) bt yt) as Hnext.
    rewrite Hnext in Hrow by (done || lia). injection Hrow as <-.
    assert (Htmp : Forall not_neg (row0 (backward_tmp m bt yt))).
    { apply not_negative_backward_row; [done | done |].
      apply IH; [lia | done]. }
    rewrite backward_step_vdiv. apply not_negative_vdiv; [done|].
    by apply not_negative_np_sum.
Qed.

End RoundedRows.

Section RowSumsResult.
Context `{B : Backend}.
Context (is_finite : num → Prop) (value : num → R).

Implicit Types (m : HMM) (y v : vec).

(** C4. In floating-point arithmetic with unit roundoff [u] and underflow
    unit [eta], for a Model with K >= 1 states whose transition
    probabilities are not negative, when no renormalisation of the run
    divides by a sum that is 0 (or infinite or nan), every row of the
    returned [forward] and [backward] arrays sums to 1 up to rounding, and
    so does every row of the posterior, which is [forward[t] * backward[t]]
    divided by its sum: the entries are finite numbers that are not
    negative, their sum lies between [(1-u)/(1+u)^K - K eta] and
    [(1+u)/(1-u)^K + K eta], and the sum [np.sum] computes from them,
    when finite, lies within the factors [(1-u)^K] and [(1+u)^K] of these
    bounds. *)
Theorem rows_sum_to_one u eta w0 P0 op m y :
  HMM_init w0 P0 op = Ok m →
  w0 ≠ [] →
  rounded_arithmetic is_finite value u eta →
  (1 <= 2 * (1 - u) ^ K m)%R →
  (∀ i j, i < K m → j < K m → not_negative is_finite value (cell (P m) i j)) →
  regular_division is_finite value m y →
  ∃ posterior forward backward,
    forward_backward m y = Ok (posterior, forward, backward) ∧
    length posterior = length y ∧
    length forward = length y ∧
    length backward = length y ∧
    ∀ t, t < length y → ∃ f b p,
      forward !! t = Some f ∧ backward !! t = Some b ∧
      posterior !! t = Some p ∧
      p = vdiv (multiply f b) (np_sum (multiply f b)) ∧
      sums_to_one is_finite value u eta (K m) f ∧
      sums_to_one is_finite value u eta (K m) b ∧
      sums_to_one is_finite value u eta (K m) p.
Proof.
  intros Hinit Hw HR Hu HP Hnz.
  pose proof (HMM_init_shaped _ _ _ _ Hinit) as Hm.
  destruct (HMM_init_Ok _ _ _ _ Hinit) as (_ & _ & HK & _).
  assert (HK0 : K m ≠ 0). { rewrite HK. by destruct w0. }
  destruct (forward_pass_spec m y HK0) as (augf & Hf & Hlf & Hf0 & Hfstep).
  destruct (backward_pass_spec m y HK0) as (augb & Hb & Hlb & HbT & Hbstep).
  destruct (Hnz augf augb Hf Hb) as (Hnzf & Hnzb & Hnzp).
  pose proof (forward_rows_not_negative _ _ _ _ HR m y augf Hm HP Hf0 Hfstep Hlf)
    as Hfn.
  pose proof (backward_rows_not_negative _ _ _ _ HR m y augb Hm HP HbT Hbstep Hlb)
    as Hbn.
  exists (posterior_of (drop 1 augf) (take (length augb - 1) augb)),
    (drop 1 augf), (take (length augb - 1) augb).
  split; [by apply forward_backward_unfold|].
  assert (Hl1 : length (drop 1 augf) = length y) by (rewrite length_drop; lia).
  assert (Hl2 : length (take (length augb - 1) augb) = length y)
    by (rewrite length_take; lia).
  split.
  { unfold posterior_of. rewrite length_fmap, length_zip_with. lia. }
  split; [done|]. split; [done|].
  intros t Ht.
  destruct (lookup_lt_is_Some_2 augf t) as [ft Hft]; [lia|].
  destruct (lookup_lt_is_Some_2 augb (t + 1)) as [bt Hbt]; [lia|].
  destruct (lookup_lt_is_Some_2 y t) as [yt Hyt]; [lia|].
  pose proof (Hfstep t ft yt Hft Hyt) as Hfrow.
  pose proof (Hbstep (t + 1) bt yt) as Hbrow.
  replace (t + 1 - 1) with t in Hbrow by lia.
  specialize (Hbrow ltac:(lia) Hbt Hyt).
  assert (Hftn : Forall (not_negative is_finite value) ft) by by eapply Hfn.
  assert (Hbtn : Forall (not_negative is_finite value) bt).
  { apply (Hbn (length y - (t + 1))); [lia|].
    by replace (length y - (length y - (t + 1))) with (t + 1) by lia. }
  assert (Hf1 : sums_to_one is_finite value u eta (K m) (forward_step m ft yt)).
  { rewrite <- (length_forward_tmp m ft yt Hm). unfold forward_step.
    apply (normalize_rounded _ _ _ _ HR).
    - by apply (not_negative_forward_tmp _ _ _ _ HR).
    - by eapply Hnzf.
    - by rewrite length_forward_tmp. }
  assert (Hb1 : sums_to_one is_finite value u eta (K m) (backward_step m bt yt)).
  { rewrite <- (length_backward_row m bt yt Hm). rewrite backward_step_vdiv.
    apply (normalize_rounded _ _ _ _ HR).
    - by apply (not_negative_backward_row _ _ _ _ HR).
    - rewrite <- np_sum2_backward_tmp. by eapply Hnzb.
    - by rewrite length_backward_row. }
  assert (Hlp : length (multiply (forward_step m ft yt) (backward_step m bt yt))
                = K m).
  { unfold multiply, forward_step. rewrite backward_step_vdiv. unfold vdiv.
    rewrite length_zip_with, !length_fmap.
    rewrite length_forward_tmp, length_backward_row by done. lia. }
  assert (Hp1 : sums_to_one is_finite value u eta (K m)
            (vdiv (multiply (forward_step m ft yt) (backward_step m bt yt))
               (np_sum (multiply (forward_step m ft yt)
                          (backward_step m bt yt))))).
  { rewrite <- Hlp at 1. apply (normalize_rounded _ _ _ _ HR).
    - apply (not_negative_multiply _ _ _ _ HR).
      + apply (Hfn (t + 1)). done.
      + apply (Hbn (length y - t)); [lia|].
        by replace (length y - (length y - t)) with t by lia.
    - by apply (Hnzp t).
    - by rewrite Hlp. }
  exists (forward_step m ft yt), (backward_step m bt yt),
    (vdiv (multiply (forward_step m ft yt) (backward_step m bt yt))
       (np_sum (multiply (forward_step m ft yt) (backward_step m bt yt)))).
  split. { rewrite lookup_drop. by replace (1 + t) with (t + 1) by lia. }
  split. { rewrite lookup_take_lt by lia. done. }
  split.
  { unfold posterior_of. rewrite list_lookup_fmap, lookup_zip_with.
    rewrite lookup_drop. replace (1 + t) with (t + 1) by lia. rewrite Hfrow.
    rewrite lookup_take_lt by lia. rewrite Hbrow. reflexivity. }
  done.
Qed.

End RowSumsResult.

(** ** A sufficient condition: strictly positive transition probabilities *)

Section Positive.

Implicit Types (m : HMM) (y v : vec) (x s : num).

Lemma positive_finite x : positive x → finite x.
Proof. by destruct x. Qed.

Lemma positive_nonneg x : positive x → nonneg x.
Proof. destruct x; cbn; try done. lra. Qed.

Lemma positive_nonzero x : positive x → x ≠ Fin 0.
Proof. destruct x; cbn; try done. intros Hr [= ->]. lra. Qed.

Lemma positive_mul x1 x2 : positive x1 → positive x2 → positive (XReal.mul x1 x2).
Proof. destruct x1, x2; cbn; try done. apply Rmult_lt_0_compat. Qed.

Lemma nonneg_mul x1 x2 : nonneg x1 → nonneg x2 → nonneg (XReal.mul x1 x2).
Proof. destruct x1, x2; cbn; try done. apply Rmult_le_pos. Qed.

Lemma nonneg_add x1 x2 : nonneg x1 → nonneg x2 → nonneg (XReal.add x1 x2).
Proof. destruct x1, x2; cbn; try done. lra. Qed.

Lemma positive_add_l x1 x2 : positive x1 → nonneg x2 → positive (XReal.add x1 x2).
Proof. destruct x1, x2; cbn; try done. lra. Qed.

Lemma positive_add_r x1 x2 : nonneg x1 → positive x2 → positive (XReal.add x1 x2).
Proof. destruct x1, x2; cbn; try done. lra. Qed.

Lemma positive_exp x : finite x → positive (XReal.exp x).
Proof. destruct x; cbn; try done. intros _. apply exp_pos. Qed.

Lemma positive_div x s : positive x → positive s → positive (XReal.div x s).
Proof.
  destruct x as [a| | |], s as [b| | |]; cbn; try done. intros Ha Hb.
  rewrite div_fin by lra. cbn. by apply Rdiv_lt_0_compat.
Qed.

Lemma positive_foldl v : ∀ acc,
  positive acc → Forall nonneg v → positive (foldl XReal.add acc v).
Proof.
  induction v as [|x v IH]; intros acc Hacc Hv; [done|].
  apply Forall_cons_1 in Hv as [Hx Hv]. cbn. apply IH; [|done].
  by apply positive_add_l.
Qed.

Lemma positive_foldl_exists v : ∀ acc i x,
  nonneg acc → Forall nonneg v → v !! i = Some x → positive x →
  positive (foldl XReal.add acc v).
Proof.
  induction v as [|a v IH]; intros acc i x Hacc Hv Hi Hx; [done|].
  apply Forall_cons_1 in Hv as [Ha Hv]. cbn [foldl].
  destruct i as [|i].
  - injection Hi as ->. apply positive_foldl; [|done]. by apply positive_add_r.
  - apply (IH _ i x); [by apply nonneg_add | done..].
Qed.

(** A sum of non-negative terms one of which is positive. *)
Lemma positive_sum_seq (f : nat → num) n k :
  (∀ i, i < n → nonneg (f i)) → k < n → positive (f k) →
  positive (np_sum (f <$> seq 0 n)).
Proof.
  intros Hf Hk Hfk.
  apply (positive_foldl_exists (f <$> seq 0 n) (Fin 0) k (f k)).
  - cbn. lra.
  - apply Forall_fmap, Forall_forall. intros i Hi.
    apply elem_of_seq in Hi. apply Hf. lia.
  - by rewrite list_lookup_fmap, lookup_seq_lt.
  - done.
Qed.

Lemma positive_np_sum v : v ≠ [] → Forall positive v → positive (np_sum v).
Proof.
  intros Hne Hv. destruct v as [|a v]; [done|].
  apply (positive_foldl_exists (a :: v) (Fin 0) 0 a).
  - cbn. lra.
  - eapply Forall_impl; [exact Hv | apply positive_nonneg].
  - done.
  - by apply Forall_cons_1 in Hv as [? _].
Qed.

Lemma positive_lookup_total v i :
  Forall positive v → i < length v → positive (v !!! i).
Proof.
  intros Hv Hi. apply (Forall_lookup_1 _ _ i _ Hv).
  by apply list_lookup_lookup_total_lt.
Qed.

Lemma positive_multiply v1 v2 :
  Forall positive v1 → Forall positive v2 → Forall positive (multiply v1 v2).
Proof.
  intros H1 H2. unfold multiply. apply Forall_lookup_2. intros i x Hx.
  apply lookup_zip_with_Some in Hx as (p & q & -> & Hp & Hq).
  apply positive_mul.
  - apply (Forall_lookup_1 _ _ _ _ H1 Hp).
  - apply (Forall_lookup_1 _ _ _ _ H2 Hq).
Qed.

Lemma positive_vdiv v s :
  Forall positive v → positive s → Forall positive (vdiv v s).
Proof.
  intros Hv Hs. unfold vdiv. apply Forall_fmap.
  eapply Forall_impl; [exact Hv|]. intros x Hx. by apply positive_div.
Qed.

Lemma positive_inputs_finite m y : positive_inputs m y → finite_inputs m y.
Proof.
  intros [Hw HP Hy]. split; [done | | done].
  intros i j Hi Hj. by apply positive_finite, HP.
Qed.

Lemma positive_lik m x : Forall finite (w m) → finite x → Forall positive (lik m x).
Proof.
  intros Hw Hx. unfold lik. apply Forall_fmap.
  eapply Forall_impl; [by apply finite_log_lik|]. apply positive_exp.
Qed.

Lemma positive_forward_tmp m v x :
  HMM_shaped m → K m ≠ 0 → Forall finite (w m) →
  (∀ i j, i < K m → j < K m → positive (cell (P m) i j)) →
  finite x → length v = K m → Forall positive v →
  Forall positive (forward_tmp m v x).
Proof.
  intros Hm HK Hw HP Hx Hlen Hv. unfold forward_tmp.
  pose proof (shaped_P m Hm) as [= Hr Hc].
  apply positive_multiply; [|by apply positive_lik].
  unfold matmul_vec. rewrite Hr, Hc.
  apply Forall_fmap, Forall_forall. intros j Hj. apply elem_of_seq in Hj.
  assert (Hterm : ∀ i, i < K m → positive (XReal.mul (v !!! i) (cell (P m) i j))).
  { intros i Hi. apply positive_mul; [|apply HP; lia].
    apply positive_lookup_total; [done|lia]. }
  apply (positive_sum_seq _ (K m) 0); [|lia|apply Hterm; lia].
  intros i Hi. by apply positive_nonneg, Hterm.
Qed.

Lemma positive_backward_row m v x :
  HMM_shaped m → K m ≠ 0 → Forall finite (w m) →
  (∀ i j, i < K m → j < K m → positive (cell (P m) i j)) →
  finite x → length v = K m → Forall positive v →
  Forall positive (row0 (backward_tmp m v x)).
Proof.
  intros Hm HK Hw HP Hx Hlen Hv. rewrite row0_backward_tmp.
  pose proof (shaped_P m Hm) as [= Hr Hc]. rewrite Hr.
  pose proof (positive_lik m x Hw Hx) as Hlik.
  assert (Hll : length (lik m x) = K m) by (by rewrite length_lik, (shaped_w m Hm)).
  apply Forall_fmap, Forall_forall. intros j Hj. apply elem_of_seq in Hj.
  unfold backward_entry. rewrite Hll.
  assert (Hterm : ∀ k, k < K m →
    positive (XReal.mul (cell (matmul (P m) (np_diag (lik m x))) j k) (v !!! k))).
  { intros k Hk. apply positive_mul; [|apply positive_lookup_total; [done|lia]].
    cbn [matmul cell]. rewrite Hc.
    apply (positive_sum_seq _ (K m) k); [|done|].
    - intros l Hl. apply nonneg_mul; [apply positive_nonneg, HP; lia|].
      cbn [np_diag cell]. case_decide; [|cbn; lra].
      apply positive_nonneg, positive_lookup_total; [done|lia].
    - apply positive_mul; [apply HP; lia|].
      cbn [np_diag cell]. rewrite decide_True by done.
      apply positive_lookup_total; [done|lia]. }
  apply (positive_sum_seq _ (K m) 0); [|lia|apply Hterm; lia].
  intros k Hk. by apply positive_nonneg, Hterm.
Qed.

Lemma positive_uniform k : k ≠ 0 → Forall positive (uniform k).
Proof.
  intros Hk. unfold uniform. apply Forall_replicate.
  change (positive (XReal.div (Fin 1) (Fin (INR k)))).
  apply positive_div; cbn; [lra|]. apply lt_0_INR. lia.
Qed.

Lemma nonempty_length v k : length v = k → k ≠ 0 → v ≠ [].
Proof. intros Hl Hk ->. cbn in Hl. lia. Qed.

Lemma forward_rows_positive m y aug :
  HMM_shaped m → K m ≠ 0 → positive_inputs m y →
  length aug = length y + 1 →
  aug !! 0 = Some (uniform (K m)) →
  (∀ t ft yt, aug !! t = Some ft → y !! t = Some yt →
     aug !! (t + 1) = Some (forward_step m ft yt)) →
  ∀ t row, aug !! t = Some row → length row = K m ∧ Forall positive row.
Proof.
  intros Hm HK Hpos Hlen H0 Hstep.
  induction t as [|t IH]; intros row Hrow.
  - rewrite H0 in Hrow. injection Hrow as <-. split.
    + unfold uniform. by rewrite length_replicate.
    + by apply positive_uniform.
  - pose proof (lookup_lt_Some _ _ _ Hrow) as Hlt.
    destruct (lookup_lt_is_Some_2 aug t) as [ft Hft]; [lia|].
    destruct (lookup_lt_is_Some_2 y t) as [yt Hyt]; [lia|].
    pose proof (Hstep t ft yt Hft Hyt) as Hnext.
    replace (t + 1) with (S t) in Hnext by lia.
    rewrite Hnext in Hrow. injection Hrow as <-.
    destruct (IH ft Hft) as [Hfl Hfp].
    assert (Htmp : Forall positive (forward_tmp m ft yt)).
    { apply positive_forward_tmp; [done | done | apply Hpos | apply Hpos | | done | done].
      apply (Forall_lookup_1 _ _ _ _ (positive_y _ _ Hpos) Hyt). }
    unfold forward_step. split.
    + unfold vdiv. by rewrite length_fmap, length_forward_tmp.
    + apply positive_vdiv; [done|]. apply positive_np_sum; [|done].
      eapply nonempty_length; [by apply length_forward_tmp | done].
Qed.

Lemma backward_rows_positive m y aug :
  HMM_shaped m → K m ≠ 0 → positive_inputs m y →
  length aug = length y + 1 →
  aug !! length y = Some (uniform (K m)) →
  (∀ t bt yt, 1 ≤ t → aug !! t = Some bt → y !! (t - 1) = Some yt →
     aug !! (t - 1) = Some (backward_step m bt yt)) →
  ∀ d row, d ≤ length y → aug !! (length y - d) = Some row →
    length row = K m ∧ Forall positive row.
Proof.
  intros Hm HK Hpos Hlen HT Hstep.
  induction d as [|d IH]; intros row Hd Hrow.
  - rewrite Nat.sub_0_r, HT in Hrow. injection Hrow as <-. split.
    + unfold uniform. by rewrite length_replicate.
    + by apply positive_uniform.
  - destruct (lookup_lt_is_Some_2 aug (length y - d)) as [bt Hbt]; [lia|].
    destruct (lookup_lt_is_Some_2 y (length y - S d)) as [yt Hyt]; [lia|].
    replace (length y - S d) with (length y - d - 1) in Hrow, Hyt by lia.
    pose proof (Hstep (length y - d) bt yt) as Hnext.
    rewrite Hnext in Hrow by (done || lia). injection Hrow as <-.
    destruct (IH bt) as [Hbl Hbp]; [lia|done|].
    assert (Htmp : Forall positive (row0 (backward_tmp m bt yt))).
    { apply positive_backward_row; [done | done | apply Hpos | apply Hpos | | done | done].
      apply (Forall_lookup_1 _ _ _ _ (positive_y _ _ Hpos) Hyt). }
    rewrite backward_step_vdiv. split.
    + unfold vdiv. by rewrite length_fmap, length_backward_row.
    + apply positive_vdiv; [done|]. apply positive_np_sum; [|done].
      eapply nonempty_length; [by apply length_backward_row | done].
Qed.

(** With strictly positive transition probabilities no renormalisation
    divides by zero. *)
Lemma positive_no_zero_division m y :
  HMM_shaped m → K m ≠ 0 → positive_inputs m y → no_zero_division m y.
Proof.
  intros Hm HK Hpos augf augb Hf Hb.
  destruct (forward_pass_spec m y HK) as (augf' & Hf' & Hlf & Hf0 & Hfstep).
  destruct (backward_pass_spec m y HK) as (augb' & Hb' & Hlb & HbT & Hbstep).
  rewrite Hf in Hf'. injection Hf' as <-.
  rewrite Hb in Hb'. injection Hb' as <-.
  pose proof (forward_rows_positive m y augf Hm HK Hpos Hlf Hf0 Hfstep) as Hfp.
  pose proof (backward_rows_positive m y augb Hm HK Hpos Hlb HbT Hbstep) as Hbp.
  assert (Hback : ∀ t row, t ≤ length y → augb !! t = Some row →
            length row = K m ∧ Forall positive row).
  { intros t row Ht Hrow. apply (Hbp (length y - t)); [lia|].
    by replace (length y - (length y - t)) with t by lia. }
  split; [|split].
  - intros t ft yt Hft Hyt. destruct (Hfp t ft Hft) as [Hl Hp].
    apply positive_nonzero, positive_np_sum.
    + eapply nonempty_length; [by apply length_forward_tmp | done].
    + apply positive_forward_tmp; [done | done | apply Hpos | apply Hpos | | done | done].
      apply (Forall_lookup_1 _ _ _ _ (positive_y _ _ Hpos) Hyt).
  - intros t bt yt Hbt Hyt.
    pose proof (lookup_lt_Some _ _ _ Hyt) as Hlt.
    destruct (Hback (t + 1) bt) as [Hl Hp]; [lia|done|].
    rewrite np_sum2_backward_tmp.
    apply positive_nonzero, positive_np_sum.
    + eapply nonempty_length; [by apply length_backward_row | done].
    + apply positive_backward_row; [done | done | apply Hpos | apply Hpos | | done | done].
      apply (Forall_lookup_1 _ _ _ _ (positive_y _ _ Hpos) Hyt).
  - intros t f b Hft Hbt Ht.
    destruct (Hfp (t + 1) f Hft) as [Hfl Hfpos].
    destruct (Hback t b) as [Hbl Hbpos]; [lia|done|].
    apply positive_nonzero, positive_np_sum.
    + eapply (nonempty_length _ (K m)); [|done].
      unfold multiply. rewrite length_zip_with. lia.
    + by apply positive_multiply.
Qed.

End Positive.

(** ** Exact arithmetic as an arithmetic without rounding error *)

Section ExactArithmetic.

Implicit Types (m : HMM) (y v : vec) (x s : num).

(** The exact extended reals meet the rounding bounds of every [u] and
    [eta]. *)
Lemma exact_rounded (u eta : R) :
  (0 <= u < 1)%R → (0 <= eta)%R → rounded_arithmetic finite val u eta.
Proof.
  intros Hu He. split.
  - exact Hu.
  - exact He.
  - split; [exact I | reflexivity].
  - intros _. cbn. lra.
  - intros k _. cbn. apply pos_INR.
  - intros a b. by destruct a, b.
  - intros a b. destruct a as [p| | |], b as [q| | |]; try done;
      unfold mul; cbn [xreal_backend]; unfold XReal.mul, XReal.sign;
      repeat case_match; simplify_eq; cbn; try tauto;
      by repeat match goal with b : bool |- _ => destruct b end.
  - intros a b Ha Hb. destruct a as [p| | |], b as [q| | |]; intros Hf;
      try (exfalso; revert Hf; unfold mul; cbn [xreal_backend];
           unfold XReal.mul, XReal.sign;
           repeat case_match; simplify_eq; cbn; try tauto;
           by repeat match goal with b : bool |- _ => destruct b end).
    cbn. apply Rmult_le_pos; [by apply Ha | by apply Hb].
  - intros a b Ha Hb. destruct a as [p| | |], b as [q| | |]; intros Hf;
      try (exfalso; revert Hf; unfold div; cbn [xreal_backend];
           unfold XReal.div, XReal.sign;
           repeat case_match; simplify_eq; cbn; try tauto;
           by repeat match goal with b : bool |- _ => destruct b end);
      try (unfold div; cbn [xreal_backend]; unfold XReal.div; cbn [val]; lra).
    specialize (Ha I). specialize (Hb I). cbn in Ha, Hb.
    destruct (Req_dec_T q 0) as [->|Hq].
    + exfalso. revert Hf. unfold div; cbn [xreal_backend].
      unfold XReal.div, XReal.sign.
      repeat case_match; simplify_eq; cbn; try tauto; try lra;
        by repeat match goal with b : bool |- _ => destruct b end.
    + unfold div. cbn [xreal_backend]. rewrite div_fin by done. cbn.
      apply Rmult_le_pos; [done|]. apply Rlt_le, Rinv_0_lt_compat. lra.
  - intros a _. destruct a as [p| | |]; cbn; try lra.
    apply Rlt_le, exp_pos.
  - intros a b Ha Hb Hva Hvb _. destruct a as [p| | |], b as [q| | |];
      try done. cbn in *. nra.
  - intros a b Ha Hb Hva Hvb Hle. destruct a as [p| | |], b as [q| | |];
      try done. cbn [val] in *.
    unfold div. cbn [xreal_backend].
    rewrite div_fin by lra. split; [exact I|]. cbn [val].
    assert (Hq : (0 <= p / q)%R).
    { apply Rmult_le_pos; [done|]. by apply Rlt_le, Rinv_0_lt_compat. }
    nra.
Qed.

Lemma positive_not_negative x : positive x → not_negative finite val x.
Proof. destruct x; try done. unfold not_negative. cbn. intros Hp _. lra. Qed.

Lemma positive_regular_sum x : positive x → regular_sum finite val x.
Proof.
  destruct x; try done. unfold regular_sum. cbn. intros Hp. split; [done | lra].
Qed.

(** With strictly positive transition probabilities and real inputs, exact
    arithmetic never divides by a sum that is zero, infinite or nan. *)
Lemma positive_regular_division m y :
  HMM_shaped m → K m ≠ 0 → positive_inputs m y →
  regular_division finite val m y.
Proof.
  intros Hm HK Hpos augf augb Hf Hb.
  destruct (forward_pass_spec m y HK) as (augf' & Hf' & Hlf & Hf0 & Hfstep).
  destruct (backward_pass_spec m y HK) as (augb' & Hb' & Hlb & HbT & Hbstep).
  rewrite Hf in Hf'. injection Hf' as <-.
  rewrite Hb in Hb'. injection Hb' as <-.
  pose proof (forward_rows_positive m y augf Hm HK Hpos Hlf Hf0 Hfstep) as Hfp.
  pose proof (backward_rows_positive m y augb Hm HK Hpos Hlb HbT Hbstep) as Hbp.
  assert (Hback : ∀ t row, t ≤ length y → augb !! t = Some row →
            length row = K m ∧ Forall positive row).
  { intros t row Ht Hrow. apply (Hbp (length y - t)); [lia|].
    by replace (length y - (length y - t)) with t by lia. }
  split; [|split].
  - intros t ft yt Hft Hyt. destruct (Hfp t ft Hft) as [Hl Hp].
    apply positive_regular_sum, positive_np_sum.
    + eapply nonempty_length; [by apply length_forward_tmp | done].
    + apply positive_forward_tmp; [done | done | apply Hpos | apply Hpos | | done | done].
      apply (Forall_lookup_1 _ _ _ _ (positive_y _ _ Hpos) Hyt).
  - intros t bt yt Hbt Hyt.
    pose proof (lookup_lt_Some _ _ _ Hyt) as Hlt.
    destruct (Hback (t + 1) bt) as [Hl Hp]; [lia|done|].
    rewrite np_sum2_backward_tmp.
    apply positive_regular_sum, positive_np_sum.
    + eapply nonempty_length; [by apply length_backward_row | done].
    + apply positive_backward_row; [done | done | apply Hpos | apply Hpos | | done | done].
      apply (Forall_lookup_1 _ _ _ _ (positive_y _ _ Hpos) Hyt).
  - intros t f b Hft Hbt Ht.
    destruct (Hfp (t + 1) f Hft) as [Hfl Hfpos].
    destruct (Hback t b) as [Hbl Hbpos]; [lia|done|].
    apply positive_regular_sum, positive_np_sum.
    + eapply (nonempty_length _ (K m)); [|done].
      unfold multiply. rewrite length_zip_with. lia.
    + by apply positive_multiply.
Qed.

(** *** The constants of binary64 *)

Lemma binary64_u_small : (0 < binary64_u <= / 4)%R.
Proof.
  unfold binary64_u. split.
  - apply Rinv_0_lt_compat, pow_lt. lra.
  - apply Rinv_le_contravar; [lra|].
    change 53 with (2 + 51). rewrite pow_add.
    assert (1 <= 2 ^ 51)%R by (apply pow_R1_Rle; lra).
    assert (2 ^ 2 = 4)%R by (cbn; lra). nra.
Qed.

Lemma binary64_unit : (0 <= binary64_u < 1)%R.
Proof. pose proof binary64_u_small. lra. Qed.

Lemma binary64_eta_nonneg : (0 <= binary64_eta)%R.
Proof. unfold binary64_eta. apply Rlt_le, Rinv_0_lt_compat, pow_lt. lra. Qed.

Lemma binary64_two_states : (1 <= 2 * (1 - binary64_u) ^ 2)%R.
Proof. pose proof binary64_u_small. cbn [pow]. nra. Qed.

End ExactArithmetic.

(** ** The results on concrete chains *)

Section Concrete.

Lemma mix_init : HMM_init toy_w mix_P None = Ok mix_hmm.
Proof. reflexivity. Qed.

Lemma toy_init_from0 :
  HMM_init toy_w toy_P (Some from0) = Ok toy_hmm_from0.
Proof. reflexivity. Qed.

Lemma toy_w_nonempty : toy_w ≠ [].
Proof. done. Qed.

Lemma toy_y_nonempty : toy_y ≠ [].
Proof. done. Qed.

Lemma mix_positive : positive_inputs mix_hmm toy_y.
Proof.
  split; [repeat constructor | | apply toy_y_finite].
  intros i j Hi Hj. cbn in Hi, Hj.
  destruct i as [|[|i]], j as [|[|j]]; try lia; cbn; lra.
Qed.

Lemma mix_no_zero_division : no_zero_division mix_hmm toy_y.
Proof.
  apply positive_no_zero_division;
    [exact (HMM_init_shaped _ _ _ _ mix_init) | done | exact mix_positive].
Qed.

Lemma viterbi_recurrence_witness :
  HMM_init toy_w toy_P None = Ok toy_hmm ∧ valid_inputs toy_hmm toy_y ∧
  ∃ pathStates pathScores s,
    viterbi_tables toy_hmm toy_y = Ok (pathStates, pathScores) ∧
    viterbi_decode toy_hmm toy_y = Ok (s, pathScores).
Proof.
  split; [exact toy_init|]. split; [exact (toy_valid toy_y toy_y_finite)|].
  destruct (viterbi_recurrence toy_w toy_P None toy_hmm toy_y toy_init
              toy_w_nonempty toy_y_nonempty (toy_valid toy_y toy_y_finite))
    as (pst & psc & s & Htab & Hdec & _).
  exists pst, psc, s. split; [exact Htab | exact Hdec].
Defined.

Lemma forward_pass_recurrence_witness :
  HMM_init toy_w toy_P None = Ok toy_hmm ∧
  ∃ aug fwd,
    forward_pass toy_hmm toy_y = Ok aug ∧
    aug !! 0 = Some (replicate 2 (div one (of_nat 2))) ∧
    fwd = drop 1 aug ∧ length fwd = 9.
Proof.
  split; [exact toy_init|].
  destruct (forward_pass_recurrence toy_w toy_P None toy_hmm toy_y toy_init
              toy_w_nonempty)
    as (aug & post & fwd & bwd & Hf & _ & _ & H0 & _ & Hdrop & Hlen).
  exists aug, fwd.
  split; [exact Hf|]. split; [exact H0|]. split; [exact Hdrop | exact Hlen].
Defined.

Lemma backward_pass_recurrence_witness :
  HMM_init toy_w toy_P None = Ok toy_hmm ∧
  ∃ aug bwd,
    backward_pass toy_hmm toy_y = Ok aug ∧
    aug !! 9 = Some (replicate 2 (div one (of_nat 2))) ∧
    bwd = take 9 aug ∧ length bwd = 9.
Proof.
  split; [exact toy_init|].
  destruct (backward_pass_recurrence toy_w toy_P None toy_hmm toy_y toy_init
              toy_w_nonempty)
    as (aug & post & fwd & bwd & Hb & _ & _ & HT & _ & Htake & Hlen).
  exists aug, bwd.
  split; [exact Hb|]. split; [exact HT|]. split; [exact Htake | exact Hlen].
Defined.

Lemma mix_P_not_negative i j :
  i < K mix_hmm → j < K mix_hmm →
  not_negative finite val (cell (P mix_hmm) i j).
Proof.
  intros Hi Hj. apply positive_not_negative.
  by apply (positive_P _ _ mix_positive).
Qed.

Lemma mix_regular_division : regular_division finite val mix_hmm toy_y.
Proof.
  apply positive_regular_division;
    [exact (HMM_init_shaped _ _ _ _ mix_init) | done | exact mix_positive].
Qed.

Lemma rows_sum_to_one_witness :
  HMM_init toy_w mix_P None = Ok mix_hmm ∧
  rounded_arithmetic finite val binary64_u binary64_eta ∧
  regular_division finite val mix_hmm toy_y ∧
  ∃ posterior forward backward,
    forward_backward mix_hmm toy_y = Ok (posterior, forward, backward) ∧
    length posterior = 9 ∧
    ∀ t, t < 9 → ∃ p,
      posterior !! t = Some p ∧
      sums_to_one finite val binary64_u binary64_eta 2 p.
Proof.
  split; [exact mix_init|].
  split; [exact (exact_rounded _ _ binary64_unit binary64_eta_nonneg)|].
  split; [exact mix_regular_division|].
  destruct (rows_sum_to_one finite val binary64_u binary64_eta toy_w mix_P
              None mix_hmm toy_y mix_init toy_w_nonempty
              (exact_rounded _ _ binary64_unit binary64_eta_nonneg)
              binary64_two_states mix_P_not_negative mix_regular_division)
    as (post & fwd & bwd & Hfb & Hlen & _ & _ & Hrows).
  exists post, fwd, bwd. split; [exact Hfb|]. split; [exact Hlen|].
  intros t Ht. destruct (Hrows t Ht) as (f & b & p & _ & _ & Hp & _ & _ & _ & Hs).
  exists p. split; [exact Hp | exact Hs].
Defined.

Lemma wide_P_shape : shape wide_P ≠ (length toy_w, length toy_w).
Proof. cbn. intros [=]. Qed.

Lemma HMM_init_shape_mismatch_witness :
  shape wide_P = (2, 3) ∧
  HMM_init toy_w wide_P None = Err ValueError ∧
  HMM_init toy_w toy_P (Some [Fin 1]) = Err ValueError.
Proof.
  split; [reflexivity|]. split.
  - exact (proj1 (HMM_init_shape_mismatch toy_w wide_P None
                    (or_introl wide_P_shape))).
  - refine (proj1 (HMM_init_shape_mismatch toy_w toy_P (Some [Fin 1])
                     (or_intror (ex_intro _ [Fin 1] (conj eq_refl _))))).
    cbn. intros [=].
Defined.

Lemma viterbi_path_valid_witness :
  HMM_init toy_w toy_P None = Ok toy_hmm ∧
  ∃ s pathScores,
    viterbi_decode toy_hmm toy_y = Ok (s, pathScores) ∧
    length s = 9 ∧ Forall (λ i, i < 2) s.
Proof.
  split; [exact toy_init|].
  destruct (viterbi_path_valid toy_w toy_P None toy_hmm toy_y toy_init
              toy_w_nonempty toy_y_nonempty)
    as (pst & psc & s & _ & Hdec & Hlen & Hrange & _).
  exists s, psc. split; [exact Hdec|]. split; [exact Hlen | exact Hrange].
Defined.

Lemma empty_sequence_behaviour_witness :
  HMM_init toy_w toy_P None = Ok toy_hmm ∧
  forward_backward toy_hmm [] = Ok ([], [], []) ∧
  viterbi_decode toy_hmm [] = Err IndexError.
Proof.
  split; [exact toy_init|].
  exact (empty_sequence_behaviour toy_w toy_P None toy_hmm toy_init
           toy_w_nonempty).
Defined.

(** C8 as stated fails: the empty sequence is not rejected by
    [forward_backward], which returns three empty arrays. *)
Lemma empty_sequence_accepted :
  HMM_init toy_w toy_P None = Ok toy_hmm ∧
  forward_backward toy_hmm [] = Ok ([], [], []) ∧
  ¬ (∃ e, forward_backward toy_hmm [] = Err e).
Proof.
  split; [exact toy_init|].
  assert (Hfb : forward_backward toy_hmm [] = Ok ([], [], [])) by reflexivity.
  split; [exact Hfb|]. intros [e He]. rewrite Hfb in He. discriminate.
Qed.

Lemma log_lik_formula_witness :
  HMM_init toy_w toy_P None = Ok toy_hmm ∧
  length (log_lik toy_hmm (Fin 1)) = 2 ∧
  lik toy_hmm (Fin 1) = XReal.exp <$> log_lik toy_hmm (Fin 1).
Proof.
  split; [exact toy_init|].
  destruct (log_lik_formula toy_w toy_P None toy_hmm (Fin 1) toy_init)
    as (Hlen & _ & _ & Hlik & _).
  split; [exact Hlen | exact Hlik].
Defined.

Lemma forward_backward_ignores_p0_witness :
  HMM_init toy_w toy_P None = Ok toy_hmm ∧
  HMM_init toy_w toy_P (Some from0) = Ok toy_hmm_from0 ∧
  p0 toy_hmm ≠ p0 toy_hmm_from0 ∧
  forward_backward toy_hmm toy_y = forward_backward toy_hmm_from0 toy_y.
Proof.
  split; [exact toy_init|]. split; [exact toy_init_from0|]. split.
  - cbn. rewrite !div_fin by lra. intros [= H _]. lra.
  - exact (forward_backward_ignores_p0 toy_w toy_P None (Some from0)
             toy_hmm toy_hmm_from0 toy_y toy_init toy_init_from0).
Defined.

End Concrete.

(** ** Outcomes and shapes of the two routines (any backend) *)

Section Outcomes.
Context `{B : Backend}.

Lemma forward_backward_no_state m (y : vec) :
  K m = 0 → forward_backward m y = Err ZeroDivisionError.
Proof.
  intros HK. unfold forward_backward, forward_pass, one_over.
  rewrite HK. reflexivity.
Qed.

Lemma forward_backward_Ok m (y : vec) :
  HMM_shaped m → K m ≠ 0 →
  ∃ post fwd bwd,
    forward_backward m y = Ok (post, fwd, bwd) ∧
    (length post = length y ∧ Forall (λ row, length row = K m) post) ∧
    (length fwd = length y ∧ Forall (λ row, length row = K m) fwd) ∧
    (length bwd = length y ∧ Forall (λ row, length row = K m) bwd).
Proof.
  intros Hm HK.
  destruct (forward_pass_spec m y HK) as (augf & Hf & Hlf & _).
  destruct (backward_pass_spec m y HK) as (augb & Hb & Hlb & _).
  pose proof (forward_pass_rows m y augf Hm HK Hf) as Hfr.
  pose proof (backward_pass_rows m y augb Hm HK Hb) as Hbr.
  assert (Hfwd : Forall (λ row : vec, length row = K m) (drop 1 augf)).
  { apply Forall_lookup_2. intros i row Hrow. rewrite lookup_drop in Hrow.
    by eapply Hfr. }
  assert (Hbwd : Forall (λ row : vec, length row = K m)
                   (take (length augb - 1) augb)).
  { apply Forall_lookup_2. intros i row Hrow.
    apply lookup_take_Some in Hrow as [Hrow _]. by eapply Hbr. }
  exists (posterior_of (drop 1 augf) (take (length augb - 1) augb)),
    (drop 1 augf), (take (length augb - 1) augb).
  split; [by apply forward_backward_unfold|].
  assert (Hl1 : length (drop 1 augf) = length y) by (rewrite length_drop; lia).
  assert (Hl2 : length (take (length augb - 1) augb) = length y)
    by (rewrite length_take; lia).
  split; [|done]. split.
  - unfold posterior_of. rewrite length_fmap, length_zip_with. lia.
  - unfold posterior_of. apply Forall_fmap, Forall_lookup_2.
    intros i row Hrow.
    apply lookup_zip_with_Some in Hrow as (f & b & -> & Hf' & Hb').
    cbn. unfold vdiv, multiply. rewrite length_fmap, length_zip_with.
    rewrite (Forall_lookup_1 _ _ _ _ Hfwd Hf').
    rewrite (Forall_lookup_1 _ _ _ _ Hbwd Hb'). lia.
Qed.

Lemma foldlM_Err {A S : Type} (body : S → A → result S) x xs s e :
  body s x = Err e → foldlM body (x :: xs) s = Err e.
Proof. cbn [foldlM]. by intros ->. Qed.

Lemma viterbi_decode_no_state m y0 (ys : vec) :
  HMM_shaped m → K m = 0 → viterbi_decode m (y0 :: ys) = Err ValueError.
Proof.
  intros Hm HK.
  assert (Hrow : vadd (logp0 m) (log_lik m y0) = []).
  { apply length_zero_iff_nil. unfold vadd.
    rewrite length_zip_with, (shaped_logp0 m Hm), HK. done. }
  unfold viterbi_decode, viterbi_tables, enumerate.
  change (drop 1 (y0 :: ys)) with ys.
  cbn [length getitem lookup list_lookup]. cbn [mbind result_bind].
  rewrite Hrow, HK. unfold setitem.
  destruct ys as [|y1 ys]; [reflexivity|].
  cbn. unfold np_argmax0. cbn. rewrite HK. reflexivity.
Qed.

End Outcomes.

Section OutcomeResults.
Context `{B : Backend}.

(** X1. For a Model the constructor returned, [forward_backward] raises
    exactly when the Model has no state (K = 0, which the constructor
    accepts), and then it raises ZeroDivisionError at [1.0 / self.K],
    whatever the sequence; it raises no other exception. *)
Theorem forward_backward_outcome w0 P0 op m (y : vec) :
  HMM_init w0 P0 op = Ok m →
  (w0 = [] → forward_backward m y = Err ZeroDivisionError) ∧
  (w0 ≠ [] → ∃ r, forward_backward m y = Ok r) ∧
  (∀ e, forward_backward m y = Err e → e = ZeroDivisionError ∧ w0 = []).
Proof.
  intros Hinit. pose proof (HMM_init_shaped _ _ _ _ Hinit) as Hm.
  destruct (HMM_init_Ok _ _ _ _ Hinit) as (_ & _ & HK & _).
  assert (H0 : w0 = [] → forward_backward m y = Err ZeroDivisionError).
  { intros ->. by apply forward_backward_no_state. }
  assert (H1 : w0 ≠ [] → ∃ r, forward_backward m y = Ok r).
  { intros Hw. assert (HK0 : K m ≠ 0). { rewrite HK. by destruct w0. }
    destruct (forward_backward_Ok m y Hm HK0) as (post & fwd & bwd & Hfb & _).
    by exists (post, fwd, bwd). }
  split; [done|]. split; [done|]. intros e He.
  destruct w0 as [|w1 w0].
  - rewrite H0 in He by done. by injection He as <-.
  - destruct H1 as [r Hr]; [done|]. congruence.
Qed.

(** X2. For a Model the constructor returned, [viterbi_decode] raises
    IndexError on the empty sequence, raises ValueError (the argmax of an
    empty array) on a non-empty sequence when the Model has no state, and
    returns a result in every other case. *)
Theorem viterbi_decode_outcome w0 P0 op m (y : vec) :
  HMM_init w0 P0 op = Ok m →
  (y = [] → viterbi_decode m y = Err IndexError) ∧
  (y ≠ [] → w0 = [] → viterbi_decode m y = Err ValueError) ∧
  (y ≠ [] → w0 ≠ [] → ∃ r, viterbi_decode m y = Ok r).
Proof.
  intros Hinit. pose proof (HMM_init_shaped _ _ _ _ Hinit) as Hm.
  destruct (HMM_init_Ok _ _ _ _ Hinit) as (_ & _ & HK & _).
  split; [by intros ->|]. split.
  - intros Hy ->. destruct y as [|y0 ys]; [done|].
    by apply viterbi_decode_no_state.
  - intros Hy Hw. assert (HK0 : K m ≠ 0). { rewrite HK. by destruct w0. }
    destruct (viterbi_decode_spec m y Hm HK0 Hy) as (pst & psc & s & final & _ & _ & Hdec & _).
    by exists (s, psc).
Qed.

(** X3. For a Model with K >= 1 states and a sequence of length T, the
    three arrays [forward_backward] returns all have T rows of K entries. *)
Theorem forward_backward_shapes w0 P0 op m (y : vec) :
  HMM_init w0 P0 op = Ok m →
  w0 ≠ [] →
  ∃ posterior forward backward,
    forward_backward m y = Ok (posterior, forward, backward) ∧
    (length posterior = length y ∧
       Forall (λ row, length row = length w0) posterior) ∧
    (length forward = length y ∧
       Forall (λ row, length row = length w0) forward) ∧
    (length backward = length y ∧
       Forall (λ row, length row = length w0) backward).
Proof.
  intros Hinit Hw. pose proof (HMM_init_shaped _ _ _ _ Hinit) as Hm.
  destruct (HMM_init_Ok _ _ _ _ Hinit) as (_ & _ & HK & _).
  assert (HK0 : K m ≠ 0). { rewrite HK. by destruct w0. }
  rewrite <- HK. by apply forward_backward_Ok.
Qed.

(** X4. For a Model with K >= 1 states and a non-empty sequence of length
    T, the table [pathScores] that [viterbi_decode] returns has T rows of K
    entries. *)
Theorem viterbi_scores_shape w0 P0 op m (y : vec) :
  HMM_init w0 P0 op = Ok m →
  w0 ≠ [] →
  y ≠ [] →
  ∃ s pathScores,
    viterbi_decode m y = Ok (s, pathScores) ∧
    length pathScores = length y ∧
    Forall (λ row, length row = length w0) pathScores.
Proof.
  intros Hinit Hw Hy. pose proof (HMM_init_shaped _ _ _ _ Hinit) as Hm.
  destruct (HMM_init_Ok _ _ _ _ Hinit) as (_ & _ & HK & _).
  assert (HK0 : K m ≠ 0). { rewrite HK. by destruct w0. }
  destruct (viterbi_decode_spec m y Hm HK0 Hy)
    as (pst & psc & s & final & _ & Hok & Hdec & _).
  exists s, psc. split; [done|].
  split; [apply (tables_scores_length _ _ _ _ Hok)|].
  apply Forall_lookup_2. intros t row Hrow. rewrite <- HK.
  by eapply tables_scores_row.
Qed.

End OutcomeResults.

(** ** Back-pointers and the score of the returned path (any backend) *)

Section BackPointers.
Context `{B : Backend}.

Lemma candidates_nonempty m (prev : vec) j : K m ≠ 0 → candidates m prev j ≠ [].
Proof.
  intros HK Hnil. pose proof (length_candidates m prev j) as Hc.
  rewrite Hnil in Hc. cbn in Hc. done.
Qed.

Lemma argmax_candidates_lt m (prev : vec) j :
  K m ≠ 0 → argmax_list (candidates m prev j) < K m.
Proof.
  intros HK. pose proof (argmax_list_lt (candidates m prev j)) as Hlt.
  rewrite length_candidates in Hlt. by apply Hlt, candidates_nonempty.
Qed.

(** The maximum over column [j] is the candidate through the state the
    argmax names. *)
Lemma max_candidates m (prev : vec) j :
  K m ≠ 0 →
  max_list (candidates m prev j) =
    add (prev !!! argmax_list (candidates m prev j))
        (cell (logP m) (argmax_list (candidates m prev j)) j).
Proof.
  intros HK.
  pose proof (max_list_argmax _ (candidates_nonempty m prev j HK)) as Hmax.
  rewrite candidates_lookup in Hmax by (by apply argmax_candidates_lt).
  by injection Hmax as <-.
Qed.

Lemma tables_backpointer m (y : vec) pst psc :
  HMM_shaped m → K m ≠ 0 → viterbi_tables_ok m y pst psc →
  ∀ t j, 1 ≤ t < length y → j < K m →
    ∃ prev yt states scores i l,
      psc !! (t - 1) = Some prev ∧ y !! t = Some yt ∧
      pst !! t = Some states ∧ psc !! t = Some scores ∧
      states !! j = Some i ∧ i < K m ∧
      log_lik m yt !! j = Some l ∧
      scores !! j = Some (add (add (prev !!! i) (cell (logP m) i j)) l).
Proof.
  intros Hm HK Hok t j Ht Hj.
  destruct (lookup_lt_is_Some_2 psc (t - 1)) as [prev Hprev].
  { rewrite (tables_scores_length _ _ _ _ Hok). lia. }
  destruct (lookup_lt_is_Some_2 y t) as [yt Hyt]; [lia|].
  destruct (tables_step _ _ _ _ Hok (t - 1) prev yt Hprev) as [Hst Hsc].
  { by replace (t - 1 + 1) with t by lia. }
  replace (t - 1 + 1) with t in Hst, Hsc by lia.
  destruct (lookup_lt_is_Some_2 (log_lik m yt) j) as [l Hl].
  { rewrite length_log_lik, (shaped_w m Hm). done. }
  exists prev, yt, (states_of m prev), (scores_of m prev yt),
    (argmax_list (candidates m prev j)), l.
  split; [done|]. split; [done|]. split; [done|]. split; [done|].
  split; [by apply states_of_lookup|].
  split; [by apply argmax_candidates_lt|]. split; [done|].
  rewrite (scores_of_lookup m prev yt j l Hj Hl). by rewrite max_candidates.
Qed.

(** Along the returned path the table holds the score of the path so far. *)
Lemma returned_path_scores m (y : vec) pst psc (s : list nat) :
  HMM_shaped m → K m ≠ 0 → viterbi_tables_ok m y pst psc →
  length s = length y →
  Forall (λ i, i < K m) s →
  (∀ t, 1 ≤ t < length y → ∃ st row,
     s !! t = Some st ∧ pst !! t = Some row ∧ s !! (t - 1) = row !! st) →
  ∀ t, t < length y → ∃ st row,
    s !! t = Some st ∧ psc !! t = Some row ∧
    row !! st = Some (score_at m y s t).
Proof.
  intros Hm HK Hok Hlen Hrange Hback.
  induction t as [|t IH]; intros Ht.
  - destruct (lookup_lt_is_Some_2 s 0) as [s0 Hs0]; [lia|].
    destruct (lookup_lt_is_Some_2 y 0) as [y0 Hy0]; [lia|].
    pose proof (Forall_lookup_1 _ _ _ _ Hrange Hs0) as Hs0K.
    exists s0, (vadd (logp0 m) (log_lik m y0)).
    split; [done|]. split; [by apply (tables_init _ _ _ _ Hok)|].
    cbn [score_at].
    rewrite (list_lookup_total_correct _ _ _ Hs0).
    rewrite (list_lookup_total_correct _ _ _ Hy0).
    unfold vadd. rewrite lookup_zip_with.
    rewrite (list_lookup_lookup_total_lt (logp0 m) s0)
      by (rewrite (shaped_logp0 m Hm); done).
    rewrite (list_lookup_lookup_total_lt (log_lik m y0) s0)
      by (rewrite length_log_lik, (shaped_w m Hm); done).
    done.
  - destruct IH as (i' & row & Hsi & Hrow & Hscore); [lia|].
    destruct (Hback (S t)) as (st & states & Hst & Hstates & Hprev); [lia|].
    replace (S t - 1) with t in Hprev by lia.
    pose proof (Forall_lookup_1 _ _ _ _ Hrange Hst) as HstK.
    destruct (tables_backpointer m y pst psc Hm HK Hok (S t) st)
      as (prev & yt & states' & scores & i & l & Hp & Hyt & Hst' & Hsc & Hi
          & HiK & Hl & Hentry); [lia|done|].
    replace (S t - 1) with t in Hp by lia.
    assert (states' = states) as -> by congruence.
    assert (prev = row) as -> by congruence.
    assert (i' = i) as -> by congruence.
    exists st, scores. split; [done|]. split; [done|].
    rewrite Hentry. cbn [score_at]. f_equal.
    rewrite (list_lookup_total_correct _ _ _ Hsi).
    rewrite (list_lookup_total_correct _ _ _ Hst).
    rewrite (list_lookup_total_correct _ _ _ Hyt).
    rewrite (list_lookup_total_correct _ _ _ Hl).
    by rewrite (list_lookup_total_correct _ _ _ Hscore).
Qed.

(** X5. For a Model with K >= 1 states and a non-empty sequence, the two
    tables of [viterbi_decode] agree whatever the arithmetic does (ties and
    nan included): for 1 <= t < T and every state j, the back-pointer
    [i = pathStates[t][j]] is a state index and
    [pathScores[t][j] = (pathScores[t-1][i] + logP[i][j]) + log_lik(y[t])[j]]. *)
Theorem viterbi_backpointer_score w0 P0 op m (y : vec) :
  HMM_init w0 P0 op = Ok m →
  w0 ≠ [] →
  y ≠ [] →
  ∃ pathStates pathScores,
    viterbi_tables m y = Ok (pathStates, pathScores) ∧
    ∀ t j, 1 ≤ t < length y → j < K m →
      ∃ prev yt states scores i before l,
        pathScores !! (t - 1) = Some prev ∧ y !! t = Some yt ∧
        pathStates !! t = Some states ∧ pathScores !! t = Some scores ∧
        states !! j = Some i ∧ i < K m ∧
        prev !! i = Some before ∧
        log_lik m yt !! j = Some l ∧
        scores !! j = Some (add (add before (cell (logP m) i j)) l).
Proof.
  intros Hinit Hw Hy. pose proof (HMM_init_shaped _ _ _ _ Hinit) as Hm.
  destruct (HMM_init_Ok _ _ _ _ Hinit) as (_ & _ & HK & _).
  assert (HK0 : K m ≠ 0). { rewrite HK. by destruct w0. }
  destruct (viterbi_decode_spec m y Hm HK0 Hy)
    as (pst & psc & s & final & Htab & Hok & _).
  exists pst, psc. split; [done|]. intros t j Ht Hj.
  destruct (tables_backpointer m y pst psc Hm HK0 Hok t j Ht Hj)
    as (prev & yt & states & scores & i & l & Hp & Hyt & Hst & Hsc & Hi
        & HiK & Hl & Hentry).
  exists prev, yt, states, scores, i, (prev !!! i), l.
  repeat (split; [done|]). split; [|done].
  apply list_lookup_lookup_total_lt.
  by rewrite (tables_scores_row m y pst psc Hm Hok _ _ Hp).
Qed.

(** X6. For a Model with K >= 1 states and a non-empty sequence, at every
    time t the entry of [pathScores[t]] at the state [s[t]] of the returned
    path is the score accumulated along [s[0..t]]; in particular the final
    score at [s[T-1]] is the score of the whole returned path. *)
Theorem viterbi_path_score w0 P0 op m (y : vec) :
  HMM_init w0 P0 op = Ok m →
  w0 ≠ [] →
  y ≠ [] →
  ∃ s pathScores,
    viterbi_decode m y = Ok (s, pathScores) ∧
    (∀ t, t < length y → ∃ st row,
       s !! t = Some st ∧ pathScores !! t = Some row ∧
       row !! st = Some (score_at m y s t)) ∧
    (∃ st final,
       s !! (length y - 1) = Some st ∧
       pathScores !! (length y - 1) = Some final ∧
       final !! st = Some (path_score m y s)).
Proof.
  intros Hinit Hw Hy. pose proof (HMM_init_shaped _ _ _ _ Hinit) as Hm.
  destruct (HMM_init_Ok _ _ _ _ Hinit) as (_ & _ & HK & _).
  assert (HK0 : K m ≠ 0). { rewrite HK. by destruct w0. }
  destruct (viterbi_decode_spec m y Hm HK0 Hy)
    as (pst & psc & s & final & Htab & Hok & Hdec & Hlen & _ & _ & _ & Hback
        & Hrange).
  pose proof (returned_path_scores m y pst psc s Hm HK0 Hok Hlen Hrange Hback)
    as Hscores.
  exists s, psc. split; [done|]. split; [done|].
  apply Hscores. destruct y; [done|]. cbn. lia.
Qed.

End BackPointers.

(** ** Optimality of the returned path over the extended reals *)

Section Optimality.

Implicit Types (m : HMM) (y v : vec) (q s : list nat).

Lemma add_mono_r (a b c : num) :
  regular a → regular b → regular c →
  XReal.leb a b = true → XReal.leb (XReal.add a c) (XReal.add b c) = true.
Proof.
  destruct a as [a| | |], b as [b| | |], c as [c| | |]; cbn; try done.
  rewrite !Rleb_true. lra.
Qed.

Lemma regular_lookup_total v i : Forall regular v → regular (v !!! i).
Proof.
  intros Hv. rewrite list_lookup_total_alt.
  destruct (v !! i) as [x|] eqn:Hx; cbn; [|done].
  apply (Forall_lookup_1 _ _ _ _ Hv Hx).
Qed.

Lemma state_lookup_total q k i :
  k ≠ 0 → Forall (λ j, j < k) q → q !!! i < k.
Proof.
  intros Hk Hq. rewrite list_lookup_total_alt.
  destruct (q !! i) as [x|] eqn:Hx; cbn; [|lia].
  apply (Forall_lookup_1 _ _ _ _ Hq Hx).
Qed.

Lemma finite_log_lik_entry m y t j :
  Forall finite (w m) → Forall finite y → finite (log_lik m (y !!! t) !!! j).
Proof.
  intros Hw Hy. apply finite_lookup_total, finite_log_lik; [done|].
  by apply finite_lookup_total.
Qed.

Lemma vadd_lookup_total (a b : vec) i :
  i < length a → i < length b → vadd a b !!! i = XReal.add (a !!! i) (b !!! i).
Proof.
  intros Ha Hb. apply list_lookup_total_correct. unfold vadd.
  rewrite lookup_zip_with.
  rewrite (list_lookup_lookup_total_lt a i Ha).
  by rewrite (list_lookup_lookup_total_lt b i Hb).
Qed.

Section WithModel.
Context (w0 : vec) (P0 : ndarray2) (op : option vec) (m : HMM) (y : vec).
Context (Hinit : HMM_init w0 P0 op = Ok m).
Context (HK : K m ≠ 0).
Context (Hvalid : valid_inputs m y).

Lemma valid_logP i j : i < K m → j < K m → regular (cell (logP m) i j).
Proof using Hinit Hvalid.
  intros Hi Hj. eapply regular_logP; [done|]. by apply Hvalid.
Qed.

Lemma regular_score_at q t :
  Forall (λ i, i < K m) q → regular (score_at m y q t).
Proof using Hinit HK Hvalid.
  intros Hq. induction t as [|t IH]; cbn [score_at].
  - apply regular_add.
    + apply regular_lookup_total. eapply regular_logp0; [done|apply Hvalid].
    + apply finite_regular, finite_log_lik_entry; apply Hvalid.
  - apply regular_add; [apply regular_add; [done|]|].
    + apply valid_logP; by apply state_lookup_total.
    + apply finite_regular, finite_log_lik_entry; apply Hvalid.
Qed.

(** No path into a state scores above the table entry of that state. *)
Lemma score_at_le_table pst psc q :
  viterbi_tables_ok m y pst psc →
  Forall (λ i, i < K m) q →
  ∀ t, t < length y → ∃ row,
    psc !! t = Some row ∧
    XReal.leb (score_at m y q t) (row !!! (q !!! t)) = true.
Proof using Hinit HK Hvalid.
  intros Hok Hq.
  pose proof (HMM_init_shaped _ _ _ _ Hinit) as Hm.
  pose proof (tables_regular _ _ _ _ _ _ _ Hinit HK Hvalid Hok) as Hreg.
  induction t as [|t IH]; intros Ht.
  - destruct (lookup_lt_is_Some_2 y 0) as [y0 Hy0]; [lia|].
    exists (vadd (logp0 m) (log_lik m y0)).
    split; [by apply (tables_init _ _ _ _ Hok)|].
    pose proof (state_lookup_total q (K m) 0 HK Hq) as Hq0.
    rewrite vadd_lookup_total
      by (rewrite ?length_log_lik, ?(shaped_w m Hm), ?(shaped_logp0 m Hm); done).
    cbn [score_at]. rewrite (list_lookup_total_correct _ _ _ Hy0).
    apply leb_refl, regular_notnan, regular_add.
    + apply regular_lookup_total. eapply regular_logp0; [done|apply Hvalid].
    + apply finite_regular, finite_lookup_total, finite_log_lik; [apply Hvalid|].
      apply (Forall_lookup_1 _ _ _ _ (valid_y _ _ Hvalid) Hy0).
  - destruct IH as (prev & Hprev & Hle); [lia|].
    destruct (lookup_lt_is_Some_2 y (S t)) as [yy Hyy]; [lia|].
    destruct (tables_step _ _ _ _ Hok t prev yy Hprev) as [_ Hsc].
    { by replace (t + 1) with (S t) by lia. }
    replace (t + 1) with (S t) in Hsc by lia.
    exists (scores_of m prev yy). split; [done|].
    set (i := q !!! t). set (j := q !!! S t).
    assert (Hi : i < K m) by (by apply state_lookup_total).
    assert (Hj : j < K m) by (by apply state_lookup_total).
    pose proof (tables_scores_row m y pst psc Hm Hok t prev Hprev) as Hpl.
    pose proof (Hreg t prev Hprev) as Hpr.
    assert (Hl : log_lik m yy !! j = Some (log_lik m yy !!! j)).
    { apply list_lookup_lookup_total_lt.
      by rewrite length_log_lik, (shaped_w m Hm). }
    rewrite (list_lookup_total_correct _ _ _
               (scores_of_lookup m prev yy j _ Hj Hl)).
    cbn [score_at]. fold i j. rewrite (list_lookup_total_correct _ _ _ Hyy).
    assert (Hcand : Forall regular (candidates m prev j)).
    { apply regular_candidates; [done | done |]. intros k Hk. by apply valid_logP. }
    assert (Hne : candidates m prev j ≠ []) by (by apply candidates_nonempty).
    assert (Hlfin : regular (log_lik m yy !!! j)).
    { apply finite_regular, finite_lookup_total, finite_log_lik; [apply Hvalid|].
      apply (Forall_lookup_1 _ _ _ _ (valid_y _ _ Hvalid) Hyy). }
    apply add_mono_r;
      [ apply regular_add; [by apply regular_score_at | by apply valid_logP]
      | by apply regular_max_list | done | ].
    eapply leb_trans.
    + apply (add_mono_r _ (prev !!! i));
        [by apply regular_score_at | by apply regular_lookup_total
        | by apply valid_logP | exact Hle].
    + destruct (argmax_list_first_max (candidates m prev j) Hne)
        as (x & Hx & Hmax & _).
      { eapply Forall_impl; [exact Hcand | apply regular_notnan]. }
      pose proof (@max_list_argmax xreal_backend _ Hne) as Hmx.
      assert (x = max_list (candidates m prev j)) as -> by (as_num; congruence).
      apply (Hmax i). exact (@candidates_lookup xreal_backend m prev j i Hi).
Qed.

End WithModel.

Lemma finite_of_leb (a b : num) :
  finite a → regular b → XReal.leb a b = true → finite b.
Proof. by destruct a, b. Qed.

Lemma add_finite_inv (a b : num) :
  regular a → regular b → finite (XReal.add a b) → finite a ∧ finite b.
Proof. by destruct a, b. Qed.

Lemma log_finite_positive (x : num) :
  nonneg x → finite (XReal.log x) → positive x.
Proof.
  destruct x as [r| | |]; try done. unfold XReal.log. cbn.
  intros Hr. destruct (Rlt_dec 0 r); [done|].
  by destruct (Req_dec_T r 0).
Qed.

End Optimality.

Section OptimalityResults.

Implicit Types (m : HMM) (y v : vec) (q s : list nat).

Lemma score_at_finite_inv w0 P0 op m y s :
  HMM_init w0 P0 op = Ok m → K m ≠ 0 → valid_inputs m y →
  Forall (λ i, i < K m) s →
  ∀ t, finite (score_at m y s t) →
    finite (logp0 m !!! (s !!! 0)) ∧
    ∀ t', 1 ≤ t' ≤ t → finite (cell (logP m) (s !!! (t' - 1)) (s !!! t')).
Proof.
  intros Hinit HK Hv Hs. induction t as [|t IH]; cbn [score_at]; intros Hfin.
  - apply add_finite_inv in Hfin as [Hp _].
    + split; [done|]. intros; lia.
    + apply regular_lookup_total. eapply regular_logp0; [done|apply Hv].
    + apply finite_regular, finite_log_lik_entry; apply Hv.
  - apply add_finite_inv in Hfin as [Hfin _].
    + apply add_finite_inv in Hfin as [Hprev Hstep].
      * destruct (IH Hprev) as [H0 Hsteps]. split; [done|].
        intros t' Ht'. destruct (decide (t' = S t)) as [->|Hne].
        -- by replace (S t - 1) with t by lia.
        -- apply Hsteps. lia.
      * by eapply regular_score_at.
      * eapply valid_logP; [done..| |]; by apply state_lookup_total.
    + apply regular_add; [by eapply regular_score_at|].
      eapply valid_logP; [done..| |]; by apply state_lookup_total.
    + apply finite_regular, finite_log_lik_entry; apply Hv.
Qed.

(** The path [viterbi_decode] returns scores at least as much as any other
    path, and the table holds its score. *)
Lemma returned_path_optimal w0 P0 op m y :
  HMM_init w0 P0 op = Ok m → K m ≠ 0 → y ≠ [] → valid_inputs m y →
  ∃ s psc,
    viterbi_decode m y = Ok (s, psc) ∧
    state_path m y s ∧
    ∀ q, state_path m y q →
      XReal.leb (path_score m y q) (path_score m y s) = true.
Proof.
  intros Hinit HK Hy Hv. pose proof (HMM_init_shaped _ _ _ _ Hinit) as Hm.
  destruct (viterbi_decode_spec m y Hm HK Hy)
    as (pst & psc & s & final & Htab & Hok & Hdec & Hlen & Hfinal & Hfl
        & Hlast & Hback & Hrange).
  assert (HT : length y - 1 < length y) by (destruct y; [done|cbn; lia]).
  destruct (returned_path_scores m y pst psc s Hm HK Hok Hlen Hrange Hback
              (length y - 1) HT) as (st & row & Hst & Hrow & Hscore).
  assert (row = final) as -> by congruence.
  assert (st = argmax_list final) as -> by congruence.
  exists s, psc. split; [done|]. split; [done|].
  intros q [Hql Hqr]. unfold path_score.
  destruct (score_at_le_table w0 P0 op m y Hinit HK Hv pst psc q Hok Hqr
              (length y - 1) HT) as (row & Hrow' & Hle).
  assert (row = final) as -> by congruence.
  eapply leb_trans; [exact Hle|].
  assert (Hne : final ≠ []). { intros ->. cbn in Hfl. lia. }
  destruct (argmax_list_first_max final Hne) as (x & Hx & Hmax & _).
  { eapply Forall_impl; [|apply regular_notnan].
    by eapply (tables_regular _ _ _ _ _ _ _ Hinit HK Hv Hok). }
  assert (x = score_at m y s (length y - 1)) as -> by (as_num; congruence).
  apply (Hmax (q !!! (length y - 1))).
  apply list_lookup_lookup_total_lt. as_num. rewrite Hfl.
  by apply state_lookup_total.
Qed.

(** X7. For a Model with K >= 1 states whose probabilities are
    non-negative reals and a non-empty sequence of finite observations, the
    path [viterbi_decode] returns is a most probable one: no path over the
    K states of the same length has a greater score. *)
Theorem viterbi_optimal w0 P0 op m y :
  HMM_init w0 P0 op = Ok m →
  w0 ≠ [] →
  y ≠ [] →
  valid_inputs m y →
  ∃ s pathScores,
    viterbi_decode m y = Ok (s, pathScores) ∧
    state_path m y s ∧
    ∀ q, state_path m y q →
      XReal.leb (path_score m y q) (path_score m y s) = true.
Proof.
  intros Hinit Hw Hy Hv.
  destruct (HMM_init_Ok _ _ _ _ Hinit) as (_ & _ & HK & _).
  assert (HK0 : K m ≠ 0). { rewrite HK. by destruct w0. }
  by eapply returned_path_optimal.
Qed.

(** X8. Under the same conditions, when some path has a score that is not
    -inf, the returned path has one too: it starts in a state of positive
    initial probability and takes only transitions of positive
    probability. *)
Theorem viterbi_path_feasible w0 P0 op m y :
  HMM_init w0 P0 op = Ok m →
  w0 ≠ [] →
  y ≠ [] →
  valid_inputs m y →
  (∃ q, state_path m y q ∧ finite (path_score m y q)) →
  ∃ s pathScores,
    viterbi_decode m y = Ok (s, pathScores) ∧
    finite (path_score m y s) ∧
    positive (p0 m !!! (s !!! 0)) ∧
    ∀ t, 1 ≤ t < length y → positive (cell (P m) (s !!! (t - 1)) (s !!! t)).
Proof.
  intros Hinit Hw Hy Hv (q & Hq & Hqfin).
  pose proof (HMM_init_shaped _ _ _ _ Hinit) as Hm.
  destruct (HMM_init_Ok _ _ _ _ Hinit) as (_ & HP & HK & HlogP & Hlogp0 & _).
  assert (HK0 : K m ≠ 0). { rewrite HK. by destruct w0. }
  destruct (returned_path_optimal w0 P0 op m y Hinit HK0 Hy Hv)
    as (s & psc & Hdec & [Hsl Hsr] & Hopt).
  assert (Hfin : finite (path_score m y s)).
  { eapply finite_of_leb; [exact Hqfin | | by apply Hopt].
    by eapply regular_score_at. }
  destruct (score_at_finite_inv w0 P0 op m y s Hinit HK0 Hv Hsr _ Hfin)
    as [H0 Hsteps].
  exists s, psc. split; [done|]. split; [done|]. split.
  - pose proof (state_lookup_total s (K m) 0 HK0 Hsr) as Hs0.
    assert (Hlog : logp0 m !!! (s !!! 0) = XReal.log (p0 m !!! (s !!! 0))).
    { rewrite Hlogp0. apply list_lookup_total_correct.
      rewrite list_lookup_fmap.
      by rewrite (list_lookup_lookup_total_lt (p0 m) (s !!! 0))
        by (by rewrite (shaped_p0 m Hm)). }
    as_num. rewrite Hlog in H0.
    apply log_finite_positive; [|done].
    apply (Forall_lookup_1 _ _ (s !!! 0) _ (valid_p0 _ _ Hv)).
    apply list_lookup_lookup_total_lt. by rewrite (shaped_p0 m Hm).
  - intros t Ht. specialize (Hsteps t ltac:(lia)).
    rewrite HlogP in Hsteps. cbn [map_ndarray2 cell] in Hsteps.
    rewrite <- HP in Hsteps.
    apply log_finite_positive; [|done].
    apply Hv; by apply state_lookup_total.
Qed.

End OptimalityResults.

(** ** The default initial distribution *)

Section EmissionRange.

Implicit Types (m : HMM) (y v : vec).

Lemma log_fin_pos (r : R) : (0 < r)%R → XReal.log (Fin r) = Fin (ln r).
Proof. intros Hr. unfold XReal.log. by destruct (Rlt_dec 0 r). Qed.

Lemma np_sum_ones : ∀ n (acc : R),
  foldl XReal.add (Fin acc) (replicate n (Fin 1)) = Fin (acc + INR n).
Proof.
  induction n as [|n IH]; intros acc.
  - cbn. f_equal. lra.
  - cbn [replicate foldl XReal.add]. rewrite IH. f_equal.
    rewrite S_INR. lra.
Qed.

(** X10. Without [p0], the constructor stores the uniform distribution:
    each of the K >= 1 entries is 1/K and their cached logs are [ln(1/K)].
    (The class docstring says the default is to start in state 0; the code
    does not do that.) *)
Theorem default_p0_uniform w0 P0 m :
  HMM_init w0 P0 None = Ok m →
  w0 ≠ [] →
  p0 m = replicate (length w0) (Fin (1 / INR (length w0))) ∧
  logp0 m = replicate (length w0) (Fin (ln (1 / INR (length w0)))).
Proof.
  intros Hinit Hw.
  destruct (HMM_init_Ok _ _ _ _ Hinit) as (_ & _ & _ & _ & Hlog & _ & Hp0).
  assert (Hn : length w0 ≠ 0) by (by destruct w0).
  assert (Hsum : np_sum (replicate (length w0) one) = Fin (INR (length w0))).
  { unfold np_sum. change (foldl XReal.add (Fin 0) (replicate (length w0) (Fin 1))
      = Fin (INR (length w0))). rewrite np_sum_ones. f_equal. lra. }
  assert (Hnz : INR (length w0) ≠ 0%R) by (by apply not_0_INR).
  assert (Hp : p0 m = replicate (length w0) (Fin (1 / INR (length w0)))).
  { rewrite Hp0, Hsum. unfold vdiv. rewrite fmap_replicate. f_equal.
    by apply div_fin. }
  split; [done|].
  rewrite Hlog, Hp, fmap_replicate. f_equal.
  apply log_fin_pos, Rdiv_lt_0_compat; [lra|]. apply lt_0_INR. lia.
Qed.

End EmissionRange.

(** ** No negative probabilities in floating-point arithmetic *)

Section Signs.
Context `{B : Backend}.
Context (is_finite : num → Prop) (value : num → R).

(** X11. In floating-point arithmetic, for a Model with K >= 1 states whose
    transition probabilities are not negative, [forward_backward] returns no
    negative number: every entry of the three arrays that is a finite number
    is at least 0, whether or not a renormalisation divided by zero. *)
Theorem rows_not_negative u eta w0 P0 op m (y : vec) :
  HMM_init w0 P0 op = Ok m →
  w0 ≠ [] →
  rounded_arithmetic is_finite value u eta →
  (∀ i j, i < K m → j < K m → not_negative is_finite value (cell (P m) i j)) →
  ∃ posterior forward backward,
    forward_backward m y = Ok (posterior, forward, backward) ∧
    ∀ row, row ∈ posterior ∨ row ∈ forward ∨ row ∈ backward →
      Forall (not_negative is_finite value) row.
Proof.
  intros Hinit Hw HR HP. pose proof (HMM_init_shaped _ _ _ _ Hinit) as Hm.
  destruct (HMM_init_Ok _ _ _ _ Hinit) as (_ & _ & HK & _).
  assert (HK0 : K m ≠ 0). { rewrite HK. by destruct w0. }
  destruct (forward_pass_spec m y HK0) as (augf & Hf & Hlf & Hf0 & Hfstep).
  destruct (backward_pass_spec m y HK0) as (augb & Hb & Hlb & HbT & Hbstep).
  pose proof (forward_rows_not_negative _ _ _ _ HR m y augf Hm HP Hf0 Hfstep Hlf)
    as Hfn.
  pose proof (backward_rows_not_negative _ _ _ _ HR m y augb Hm HP HbT Hbstep Hlb)
    as Hbn.
  exists (posterior_of (drop 1 augf) (take (length augb - 1) augb)),
    (drop 1 augf), (take (length augb - 1) augb).
  split; [by apply forward_backward_unfold|].
  assert (Hfwd : ∀ t row, drop 1 augf !! t = Some row →
            Forall (not_negative is_finite value) row).
  { intros t row Hrow. rewrite lookup_drop in Hrow. by eapply Hfn. }
  assert (Hbwd : ∀ t row, take (length augb - 1) augb !! t = Some row →
            Forall (not_negative is_finite value) row).
  { intros t row Hrow. apply lookup_take_Some in Hrow as [Hrow Ht].
    apply (Hbn (length y - t)); [lia|].
    by replace (length y - (length y - t)) with t by lia. }
  intros row [Hin|[Hin|Hin]].
  - unfold posterior_of in Hin.
    apply list_elem_of_fmap in Hin as (fb & -> & Hin).
    apply list_elem_of_lookup in Hin as [t Ht].
    apply lookup_zip_with_Some in Ht as (f & b & -> & Hf' & Hb').
    assert (Hfb : Forall (not_negative is_finite value) (multiply f b)).
    { apply (not_negative_multiply _ _ _ _ HR); [by eapply Hfwd | by eapply Hbwd]. }
    apply (not_negative_vdiv _ _ _ _ HR); [done|].
    by apply (not_negative_np_sum _ _ _ _ HR).
  - apply list_elem_of_lookup in Hin as [t Ht]. by eapply Hfwd.
  - apply list_elem_of_lookup in Hin as [t Ht]. by eapply Hbwd.
Qed.

End Signs.

(** ** Degenerate sums and the backward recursion *)

Section Probabilities.

Implicit Types (m : HMM) (y v : vec).

Lemma div_by_zero_not_finite (x : num) : ¬ finite (XReal.div x (Fin 0)).
Proof.
  destruct x as [a| | |]; unfold XReal.div, XReal.sign;
    repeat case_match; simplify_eq; cbn; try tauto.
  all: try (by destruct b).
  all: exfalso; lra.
Qed.

(** X12. A renormalisation that divides by a sum of exactly 0 raises
    nothing: when the forward step at time t has real operands and its
    unnormalised row sums to 0, [forward_backward] still returns, and row t
    of the returned [forward] has K entries none of which is a real number
    (each is an infinity or nan). *)
Theorem forward_zero_sum_row w0 P0 op m y augf t ft yt :
  HMM_init w0 P0 op = Ok m →
  w0 ≠ [] →
  forward_pass m y = Ok augf →
  augf !! t = Some ft →
  y !! t = Some yt →
  np_sum (forward_tmp m ft yt) = Fin 0 →
  ∃ posterior forward backward row,
    forward_backward m y = Ok (posterior, forward, backward) ∧
    forward !! t = Some row ∧
    length row = K m ∧
    Forall (λ x, ¬ finite x) row.
Proof.
  intros Hinit Hw Hf Hft Hyt Hzero.
  pose proof (HMM_init_shaped _ _ _ _ Hinit) as Hm.
  destruct (HMM_init_Ok _ _ _ _ Hinit) as (_ & _ & HK & _).
  assert (HK0 : K m ≠ 0). { rewrite HK. by destruct w0. }
  destruct (forward_pass_spec m y HK0) as (augf' & Hf' & Hlf & Hf0 & Hfstep).
  rewrite Hf in Hf'. injection Hf' as <-.
  destruct (backward_pass_spec m y HK0) as (augb & Hb & _).
  exists (posterior_of (drop 1 augf) (take (length augb - 1) augb)),
    (drop 1 augf), (take (length augb - 1) augb), (forward_step m ft yt).
  split; [by apply forward_backward_unfold|]. split.
  { rewrite lookup_drop. replace (1 + t) with (t + 1) by lia.
    by apply Hfstep. }
  unfold forward_step. rewrite Hzero. split.
  - unfold vdiv. by rewrite length_fmap, length_forward_tmp.
  - unfold vdiv. apply Forall_fmap, Forall_forall. intros x _.
    apply div_by_zero_not_finite.
Qed.

Lemma foldl_Rplus_zero (f : nat → R) n :
  (∀ l, l < n → f l = 0%R) → foldl Rplus 0%R (f <$> seq 0 n) = 0%R.
Proof.
  induction n as [|n IH]; intros Hf; [done|].
  rewrite seq_S, fmap_app, foldl_app. cbn.
  rewrite IH by (intros; apply Hf; lia). rewrite Hf by lia. lra.
Qed.

(** A sum all of whose terms but one are 0. *)
Lemma foldl_Rplus_single (f : nat → R) n k :
  k < n → (∀ l, l < n → l ≠ k → f l = 0%R) →
  foldl Rplus 0%R (f <$> seq 0 n) = f k.
Proof.
  induction n as [|n IH]; intros Hk Hf; [lia|].
  rewrite seq_S, fmap_app, foldl_app. cbn.
  destruct (decide (k = n)) as [->|Hne].
  - rewrite foldl_Rplus_zero by (intros; apply Hf; lia). lra.
  - rewrite IH by (lia || intros; apply Hf; lia).
    rewrite (Hf n) by lia. lra.
Qed.

Lemma np_sum_seq_val (f : nat → num) n :
  (∀ i, i < n → finite (f i)) →
  np_sum (f <$> seq 0 n) = Fin (foldl Rplus 0%R ((λ i, val (f i)) <$> seq 0 n)).
Proof.
  intros Hf. rewrite np_sum_val.
  - by rewrite <- list_fmap_compose.
  - apply Forall_fmap, Forall_forall. intros i Hi.
    apply elem_of_seq in Hi. apply Hf. lia.
Qed.

Lemma val_mul (a b : num) :
  finite a → finite b → val (XReal.mul a b) = (val a * val b)%R.
Proof. by destruct a, b. Qed.

(** The product with the diagonal matrix scales column [k] by [lik[k]]. *)
Lemma diag_product_cell m (yt : num) j k :
  HMM_shaped m → Forall finite (w m) →
  (∀ i l, i < K m → l < K m → finite (cell (P m) i l)) →
  finite yt → j < K m → k < K m →
  cell (matmul (P m) (np_diag (lik m yt))) j k =
    Fin (val (cell (P m) j k) * val (lik m yt !!! k)).
Proof.
  intros Hm Hw HP Hy Hj Hk. pose proof (shaped_P m Hm) as [= Hr Hc].
  pose proof (finite_lik m yt Hw Hy) as Hlik.
  cbn [matmul cell]. rewrite Hc.
  rewrite np_sum_seq_val.
  - f_equal.
    rewrite (foldl_Rplus_single _ (K m) k Hk).
    + cbn [np_diag cell]. rewrite decide_True by done.
      apply val_mul; [by apply HP | by apply finite_lookup_total].
    + intros l Hl Hne. cbn [np_diag cell]. rewrite decide_False by done.
      rewrite val_mul; [cbn; lra | by apply HP | done].
  - intros l Hl. apply finite_mul; [by apply HP|].
    cbn [np_diag cell]. case_decide; [by apply finite_lookup_total | done].
Qed.

(** X13. With real-valued operands, entry j of the unnormalised backward
    row [(P . diag(lik(y)) . b^T)^T] is the sum over the states k of
    [P[j][k] * lik(y)[k] * b[k]]. *)
Theorem backward_entry_sum w0 P0 op m (yt : num) (bt : vec) j :
  HMM_init w0 P0 op = Ok m →
  Forall finite (w m) →
  (∀ i l, i < K m → l < K m → finite (cell (P m) i l)) →
  finite yt →
  Forall finite bt →
  j < K m →
  row0 (backward_tmp m bt yt) !! j =
    Some (Fin (foldl Rplus 0%R
                 ((λ k, val (cell (P m) j k) * val (lik m yt !!! k)
                        * val (bt !!! k))%R <$> seq 0 (K m)))).
Proof.
  intros Hinit Hw HP Hy Hb Hj. pose proof (HMM_init_shaped _ _ _ _ Hinit) as Hm.
  pose proof (shaped_P m Hm) as [= Hr Hc].
  rewrite row0_backward_tmp, Hr, list_lookup_fmap, lookup_seq_lt by done.
  cbn [fmap option_fmap option_map Nat.add]. f_equal. unfold backward_entry.
  rewrite length_lik, (shaped_w m Hm).
  rewrite np_sum_seq_val.
  - do 2 f_equal. apply list_fmap_ext. intros i k Hk.
    apply lookup_seq in Hk as [-> Hk]. cbn [Nat.add].
    rewrite (diag_product_cell m yt j i Hm Hw HP Hy Hj) by lia.
    rewrite val_mul; [done | done | by apply finite_lookup_total].
  - intros k Hk. rewrite (diag_product_cell m yt j k Hm Hw HP Hy Hj Hk).
    apply finite_mul; [done | by apply finite_lookup_total].
Qed.

End Probabilities.

(** ** The TensorFlow forward-backward against the numpy one (any backend) *)

Section TensorflowRows.
Context `{B : Backend}.

Lemma holds_cell T (v : vec) j :
  holds_row T v → j < length v → cell T 0 j = v !!! j.
Proof.
  intros (_ & Hc & Hrow) Hj. symmetry. apply list_lookup_total_correct.
  rewrite <- Hrow. unfold row0. rewrite list_lookup_fmap, Hc.
  by rewrite lookup_seq_lt.
Qed.

Lemma zip_with_fmap_seq {A C : Type} `{Inhabited A}
    (f : num → A → C) (g : nat → num) (l : list A) n :
  length l = n →
  zip_with f (g <$> seq 0 n) l = (λ j, f (g j) (l !!! j)) <$> seq 0 n.
Proof.
  intros Hl. apply list_eq. intros j.
  rewrite lookup_zip_with, !list_lookup_fmap.
  destruct (decide (j < n)) as [Hj|Hj].
  - rewrite lookup_seq_lt by done. cbn.
    by rewrite (list_lookup_lookup_total_lt l j) by lia.
  - by rewrite lookup_seq_ge by lia.
Qed.

Lemma holds_normalised T (v : vec) :
  holds_row T v → holds_row (mdiv T (np_sum2 T)) (vdiv v (np_sum v)).
Proof.
  intros (Hr & Hc & Hrow). split; [done|]. split.
  - cbn. unfold vdiv. by rewrite length_fmap.
  - by rewrite row0_mdiv, np_sum2_one_row, Hrow.
Qed.

Lemma holds_forward_tmp m F (ft : vec) yt :
  HMM_shaped m → holds_row F ft → length ft = K m →
  holds_row (tf_mul_row (matmul F (P m)) (lik m yt)) (forward_tmp m ft yt).
Proof.
  intros Hm HF Hl. pose proof HF as (Hr & Hc & Hrow).
  pose proof (shaped_P m Hm) as [= HPr HPc].
  split; [done|]. split.
  { rewrite length_forward_tmp by done. exact HPc. }
  unfold forward_tmp, multiply, matmul_vec. rewrite HPr, HPc.
  rewrite zip_with_fmap_seq by (by rewrite length_lik, (shaped_w m Hm)).
  unfold row0. cbn [tf_mul_row matmul ncols cell]. rewrite HPc.
  apply list_fmap_ext. intros _ j _. do 2 f_equal.
  rewrite Hc, Hl. apply list_fmap_ext. intros i k Hk.
  apply lookup_seq in Hk as [-> Hk]. cbn [Nat.add]. f_equal.
  apply (holds_cell F ft i HF). lia.
Qed.

Lemma holds_backward_tmp m Bt (bt : vec) yt :
  HMM_shaped m → holds_row Bt bt → length bt = K m →
  holds_row
    (transpose (matmul (matmul (P m) (np_diag (lik m yt))) (transpose Bt)))
    (row0 (backward_tmp m bt yt)).
Proof.
  intros Hm HB Hl. pose proof HB as (Hr & Hc & Hrow).
  pose proof (shaped_P m Hm) as [= HPr HPc].
  split; [done|]. split.
  { rewrite length_backward_row by done. exact HPr. }
  rewrite row0_backward_tmp. unfold row0.
  cbn [transpose matmul np_diag nrows ncols cell].
  apply list_fmap_ext. intros _ j _. unfold backward_entry.
  cbn [matmul np_diag nrows ncols cell]. f_equal.
  apply list_fmap_ext. intros i k Hk.
  apply lookup_seq in Hk as [-> Hk]. cbn [Nat.add]. f_equal.
  apply (holds_cell Bt bt i HB).
  rewrite length_lik, (shaped_w m Hm) in Hk. lia.
Qed.

Lemma holds_product F Bt (f b : vec) :
  holds_row F f → holds_row Bt b → length f = length b →
  holds_row (tf_mul F Bt) (multiply f b).
Proof.
  intros HF HB Hl. pose proof HF as (Hr & Hc & Hrow).
  split; [done|]. split.
  { cbn. unfold multiply. rewrite length_zip_with. lia. }
  unfold row0. cbn [tf_mul ncols cell]. rewrite Hc.
  unfold multiply. rewrite <- Hrow at 2. unfold row0. rewrite Hc.
  rewrite zip_with_fmap_seq by lia.
  apply list_fmap_ext. intros i j Hj.
  apply lookup_seq in Hj as [-> Hj]. cbn [Nat.add]. f_equal.
  apply (holds_cell Bt b i HB). lia.
Qed.

Lemma tf_forward_body_Ok m (y : vec) (F : list ndarray2) t Ft yt :
  F !! t = Some Ft → y !! t = Some yt →
  tf_forward_body m y F t =
    Ok (F ++ [mdiv (tf_mul_row (matmul Ft (P m)) (lik m yt))
                (np_sum2 (tf_mul_row (matmul Ft (P m)) (lik m yt)))]).
Proof.
  intros HF Hy. unfold tf_forward_body.
  rewrite (getitem_Some _ _ _ HF), (getitem_Some _ _ _ Hy). done.
Qed.

Lemma tf_forward_loop m (y : vec) (augf : list vec) :
  HMM_shaped m →
  length augf = length y + 1 →
  (∀ t row, augf !! t = Some row → length row = K m) →
  (∀ t ft yt, augf !! t = Some ft → y !! t = Some yt →
     augf !! (t + 1) = Some (forward_step m ft yt)) →
  ∀ n a (F : list ndarray2),
    a + n = length y →
    Forall2 holds_row F (take (a + 1) augf) →
    ∃ F',
      foldlM (tf_forward_body m y) (seq a n) F = Ok F' ∧
      Forall2 holds_row F' augf.
Proof.
  intros Hm Hlen Hrows Hstep.
  induction n as [|n IH]; intros a F Han HF.
  - exists F. split; [done|]. by rewrite take_ge in HF by lia.
  - pose proof (Forall2_length _ _ _ HF) as HFl.
    rewrite length_take in HFl.
    destruct (lookup_lt_is_Some_2 F a) as [Ft HFt]; [lia|].
    destruct (lookup_lt_is_Some_2 augf a) as [ft Hft]; [lia|].
    destruct (lookup_lt_is_Some_2 y a) as [yt Hyt]; [lia|].
    assert (Hhold : holds_row Ft ft).
    { eapply (Forall2_lookup_lr _ _ _ a); [exact HF | done |].
      rewrite lookup_take_lt by lia. done. }
    set (Fn := mdiv (tf_mul_row (matmul Ft (P m)) (lik m yt))
                 (np_sum2 (tf_mul_row (matmul Ft (P m)) (lik m yt)))).
    destruct (IH (S a) (F ++ [Fn])) as (F' & Hrun & HF'); [lia| |].
    { replace (S a + 1) with (S (a + 1)) by lia.
      rewrite (take_S_r augf (a + 1) (forward_step m ft yt))
        by (by apply Hstep).
      apply Forall2_app; [done|]. constructor; [|constructor].
      apply (holds_normalised _ (forward_tmp m ft yt)).
      apply holds_forward_tmp; [done | done | by eapply Hrows]. }
    exists F'. split; [|done].
    cbn [seq]. erewrite foldlM_cons; [exact Hrun|].
    by apply tf_forward_body_Ok.
Qed.

Lemma tf_backward_body_Ok m (y : vec) (Bk : list (option ndarray2)) t Bt yt :
  Bk !! t = Some (Some Bt) → y !! (t - 1) = Some yt → t - 1 < length Bk →
  tf_backward_body m y Bk t =
    Ok (<[t - 1 :=
          Some (mdiv (transpose (matmul (matmul (P m) (np_diag (lik m yt)))
                                   (transpose Bt)))
                  (np_sum2 (transpose (matmul (matmul (P m) (np_diag (lik m yt)))
                                         (transpose Bt)))))]> Bk).
Proof.
  intros HB Hy Hlt. unfold tf_backward_body.
  rewrite (getitem_Some _ _ _ Hy). cbn [mbind result_bind].
  rewrite (getitem_Some _ _ _ HB). cbn [mbind result_bind tf_value].
  by apply setitem_lt.
Qed.

Lemma tf_backward_loop m (y : vec) (augb : list vec) :
  HMM_shaped m →
  length augb = length y + 1 →
  (∀ t row, augb !! t = Some row → length row = K m) →
  (∀ t bt yt, 1 ≤ t → augb !! t = Some bt → y !! (t - 1) = Some yt →
     augb !! (t - 1) = Some (backward_step m bt yt)) →
  ∀ n (Bk : list (option ndarray2)),
    n ≤ length y →
    length Bk = length y + 1 →
    (∀ i row, n ≤ i → augb !! i = Some row →
       ∃ o, Bk !! i = Some o ∧ slot_holds o row) →
    ∃ Bk',
      foldlM (tf_backward_body m y) (rev (seq 1 n)) Bk = Ok Bk' ∧
      Forall2 slot_holds Bk' augb.
Proof.
  intros Hm Hlen Hrows Hstep.
  induction n as [|n IH]; intros Bk Hn HBl HBk.
  - exists Bk. split; [done|]. apply Forall2_same_length_lookup_2; [lia|].
    intros i o row Ho Hrow.
    destruct (HBk i row ltac:(lia) Hrow) as (o' & Ho' & Hs). congruence.
  - destruct (lookup_lt_is_Some_2 augb (S n)) as [bt Hbt]; [lia|].
    destruct (lookup_lt_is_Some_2 y n) as [yt Hyt]; [lia|].
    destruct (HBk (S n) bt ltac:(lia) Hbt) as (o & Ho & Bt & -> & Hhold).
    set (Bn := mdiv (transpose (matmul (matmul (P m) (np_diag (lik m yt)))
                                  (transpose Bt)))
                 (np_sum2 (transpose (matmul (matmul (P m) (np_diag (lik m yt)))
                                        (transpose Bt))))).
    destruct (IH (<[n := Some Bn]> Bk)) as (Bk' & Hrun & HBk'); [lia | | |].
    { by rewrite length_insert. }
    { intros i row Hi Hrow. destruct (decide (i = n)) as [->|Hne].
      - exists (Some Bn). split; [by rewrite list_lookup_insert_eq by lia|].
        exists Bn. split; [done|].
        pose proof (Hstep (S n) bt yt) as Hnext.
        replace (S n - 1) with n in Hnext by lia.
        rewrite Hnext in Hrow by (done || lia). injection Hrow as <-.
        rewrite backward_step_vdiv.
        apply (holds_normalised _ (row0 (backward_tmp m bt yt))).
        apply holds_backward_tmp; [done | done | by eapply Hrows].
      - rewrite list_lookup_insert_ne by lia. apply HBk; [lia|done]. }
    exists Bk'. split; [|done].
    rewrite rev_seq_S. cbn [Nat.add]. erewrite foldlM_cons; [exact Hrun|].
    rewrite (tf_backward_body_Ok m y Bk (S n) Bt yt).
    + by replace (S n - 1) with n by lia.
    + done.
    + by replace (S n - 1) with n by lia.
    + lia.
Qed.

Lemma tf_products_holds : ∀ (F : list ndarray2) (Bk : list (option ndarray2))
    (fwd bwd : list vec),
  Forall2 holds_row F fwd →
  Forall2 slot_holds Bk bwd →
  Forall2 (λ f b : vec, length f = length b) fwd bwd →
  ∃ Ps,
    tf_products F Bk = Ok Ps ∧
    Forall2 holds_row Ps (zip_with multiply fwd bwd).
Proof.
  intros F Bk fwd bwd HF. revert Bk bwd.
  induction HF as [|Ft f F fwd Hf HF IH]; intros Bk bwd HB Hl.
  - exists []. split; [done|]. constructor.
  - destruct HB as [|o b Bk bwd (Bt & -> & Hb) HB].
    { exists []. split; [done|]. constructor. }
    apply Forall2_cons_1 in Hl as [Hfb Hl].
    destruct (IH Bk bwd HB Hl) as (Ps & Hrun & HPs).
    exists (tf_mul Ft Bt :: Ps). split.
    + unfold tf_products in *. cbn. rewrite Hrun. done.
    + cbn. constructor; [by apply holds_product | done].
Qed.

(** The whole TensorFlow routine, given a tensor for the uniform row. *)
Lemma tf_forward_backward_spec m (y : vec) :
  HMM_shaped m → K m ≠ 0 →
  (∀ x : num, mul one x = x) →
  ∃ post fwd bwd postT fwdT bwdT,
    forward_backward m y = Ok (post, fwd, bwd) ∧
    tf_forward_backward m y = Ok (postT, fwdT, bwdT) ∧
    Forall2 holds_row postT post ∧
    Forall2 holds_row fwdT fwd ∧
    Forall2 slot_holds bwdT bwd.
Proof.
  intros Hm HK Hone.
  destruct (forward_pass_spec m y HK) as (augf & Hf & Hlf & Hf0 & Hfstep).
  destruct (backward_pass_spec m y HK) as (augb & Hb & Hlb & HbT & Hbstep).
  pose proof (forward_pass_rows m y augf Hm HK Hf) as Hfr.
  pose proof (backward_pass_rows m y augb Hm HK Hb) as Hbr.
  assert (Hu : holds_row (tf_ones_times (K m) (div one (of_nat (K m))))
                 (uniform (K m))).
  { unfold uniform. split; [done|]. split.
    - cbn. by rewrite length_replicate.
    - unfold row0. cbn. rewrite Hone. apply list_eq. intros j.
      rewrite list_lookup_fmap.
      destruct (decide (j < K m)) as [Hj|Hj].
      + rewrite lookup_seq_lt, lookup_replicate_2 by done. done.
      + rewrite lookup_seq_ge by lia.
        symmetry. apply lookup_replicate_None. lia. }
  destruct (tf_forward_loop m y augf Hm Hlf Hfr Hfstep (length y) 0
              [tf_ones_times (K m) (div one (of_nat (K m)))])
    as (F' & HrunF & HF'); [lia| |].
  { destruct augf as [|r0 augf]; [done|]. injection Hf0 as ->.
    cbn. constructor; [done|]. rewrite take_0. constructor. }
  destruct (tf_backward_loop m y augb Hm Hlb Hbr Hbstep (length y)
              (<[length y := Some (tf_ones_times (K m) (div one (of_nat (K m))))]>
                 (replicate (length y + 1) None)))
    as (Bk' & HrunB & HB'); [lia | | |].
  { by rewrite length_insert, length_replicate. }
  { intros i row Hi Hrow. pose proof (lookup_lt_Some _ _ _ Hrow) as Hlt.
    assert (i = length y) as -> by lia.
    eexists. split.
    - rewrite list_lookup_insert_eq by (rewrite length_replicate; lia). done.
    - eexists. split; [done|]. congruence. }
  pose proof (Forall2_length _ _ _ HB') as HBl.
  assert (HFd : Forall2 holds_row (drop 1 F') (drop 1 augf))
    by (by apply Forall2_drop).
  assert (HBt : Forall2 slot_holds (take (length Bk' - 1) Bk')
                  (take (length augb - 1) augb)).
  { rewrite HBl. by apply Forall2_take. }
  destruct (tf_products_holds _ _ _ _ HFd HBt) as (Ps & HrunP & HPs).
  { apply Forall2_same_length_lookup_2.
    - rewrite length_drop, length_take. lia.
    - intros i f b Hfi Hbi. rewrite lookup_drop in Hfi.
      apply lookup_take_Some in Hbi as [Hbi _].
      rewrite (Hfr _ _ Hfi), (Hbr _ _ Hbi). done. }
  exists (posterior_of (drop 1 augf) (take (length augb - 1) augb)),
    (drop 1 augf), (take (length augb - 1) augb),
    ((λ p, mdiv p (np_sum2 p)) <$> Ps), (drop 1 F'),
    (take (length Bk' - 1) Bk').
  split; [by apply forward_backward_unfold|]. split.
  { unfold tf_forward_backward. rewrite (one_over_pos _ HK).
    cbn [mbind result_bind]. rewrite HrunF. cbn [mbind result_bind].
    unfold last_index. rewrite length_replicate.
    replace (length y + 1 - 1) with (length y) by lia.
    rewrite setitem_lt by (rewrite length_replicate; lia).
    cbn [mbind result_bind]. rewrite HrunB. cbn [mbind result_bind].
    rewrite HrunP. done. }
  split; [|done]. unfold posterior_of.
  apply Forall2_fmap, (Forall2_impl _ _ _ _ HPs).
  intros T v HT. by apply holds_normalised.
Qed.

End TensorflowRows.

Section TensorflowResults.
Context `{B : Backend}.

(** X14. For a Model with K >= 1 states, on a backend where [1 * x = x],
    [HMMTensorflow.forward_backward] returns lists of T tensors of shape
    (1, K) whose values are, row for row, the arrays that
    [HMMNumpy.forward_backward] returns. *)
Theorem tf_forward_backward_agrees w0 P0 op m (y : vec) :
  HMM_init w0 P0 op = Ok m →
  w0 ≠ [] →
  (∀ x : num, mul one x = x) →
  ∃ posterior forward backward posteriorT forwardT backwardT,
    forward_backward m y = Ok (posterior, forward, backward) ∧
    tf_forward_backward m y = Ok (posteriorT, forwardT, backwardT) ∧
    Forall2 holds_row posteriorT posterior ∧
    Forall2 holds_row forwardT forward ∧
    Forall2 slot_holds backwardT backward.
Proof.
  intros Hinit Hw Hone. pose proof (HMM_init_shaped _ _ _ _ Hinit) as Hm.
  destruct (HMM_init_Ok _ _ _ _ Hinit) as (_ & _ & HK & _).
  assert (HK0 : K m ≠ 0). { rewrite HK. by destruct w0. }
  by apply tf_forward_backward_spec.
Qed.

Lemma tf_concat1_columns (T : ndarray2) i : ∀ n j,
  ncols T = 1 → j < n →
  tf_concat1_cell (replicate n T) i j = cell T i 0.
Proof.
  induction n as [|n IH]; intros j HT Hj; [lia|].
  cbn [replicate tf_concat1_cell]. rewrite HT.
  destruct (decide (j < 1)) as [Hj0|Hj0].
  - by replace j with 0 by lia.
  - apply IH; [done|lia].
Qed.

Lemma sum_list_replicate n k : sum_list (replicate n k) = n * k.
Proof. induction n as [|n IH]; cbn; [done|]. rewrite IH. lia. Qed.

(** X15. For a Model with K >= 1 states and a row of K scores, the matrix
    [HMMTensorflow._viterbi_partial_forward] builds with [expand_dims] and
    [concat] has the shape and the cells of the matrix the nested loops of
    [HMMNumpy._viterbi_partial_forward] fill. *)
Theorem tf_partial_forward_agrees w0 P0 op m (scores : vec) :
  HMM_init w0 P0 op = Ok m →
  w0 ≠ [] →
  length scores = K m →
  shape (tf_viterbi_partial_forward m scores) =
    shape (_viterbi_partial_forward m scores) ∧
  ∀ i j, i < K m → j < K m →
    cell (tf_viterbi_partial_forward m scores) i j =
      cell (_viterbi_partial_forward m scores) i j.
Proof.
  intros Hinit Hw Hl.
  destruct (HMM_init_Ok _ _ _ _ Hinit) as (_ & _ & HK & _).
  assert (HK0 : K m ≠ 0). { rewrite HK. by destruct w0. }
  split.
  - unfold shape, tf_viterbi_partial_forward. cbn [tf_add nrows ncols tf_concat1].
    rewrite fmap_replicate, sum_list_replicate. cbn [tf_expand_dims1 ncols].
    cbn [_viterbi_partial_forward nrows ncols].
    destruct (K m) as [|k] eqn:Hk; [done|].
    cbn [replicate tf_expand_dims1 nrows]. f_equal; lia.
  - intros i j Hi Hj. unfold tf_viterbi_partial_forward.
    cbn [tf_add cell tf_concat1 _viterbi_partial_forward]. f_equal.
    by rewrite tf_concat1_columns.
Qed.

End TensorflowResults.

(** ** HMMTensorflow.viterbi_decode *)

Section TensorflowDecode.
Context `{B : Backend}.
Context (tf_argmax : vec → nat) (tf_reduce_max : vec → num).

Implicit Types (m : HMM) (y : vec).

Lemma ncols_tf_partial_forward m (prev : vec) :
  ncols (tf_viterbi_partial_forward m prev) = K m.
Proof.
  unfold tf_viterbi_partial_forward. cbn [tf_add ncols tf_concat1].
  rewrite fmap_replicate, sum_list_replicate. cbn [tf_expand_dims1 ncols]. lia.
Qed.

Lemma nrows_tf_partial_forward m (prev : vec) :
  K m ≠ 0 → nrows (tf_viterbi_partial_forward m prev) = length prev.
Proof.
  intros HK. unfold tf_viterbi_partial_forward. cbn [tf_add nrows tf_concat1].
  by destruct (K m).
Qed.

Lemma tf_column m (prev : vec) j :
  K m ≠ 0 → length prev = K m → j < K m →
  column (tf_viterbi_partial_forward m prev) j =
    column (_viterbi_partial_forward m prev) j.
Proof.
  intros HK Hl Hj. unfold column.
  rewrite nrows_tf_partial_forward by done. rewrite Hl.
  cbn [_viterbi_partial_forward nrows]. apply list_fmap_ext. intros i k Hk.
  unfold tf_viterbi_partial_forward.
  cbn [tf_add cell tf_concat1 _viterbi_partial_forward]. f_equal.
  by rewrite tf_concat1_columns.
Qed.

Lemma tf_column_nonempty m (prev : vec) j :
  K m ≠ 0 → length prev = K m →
  column (tf_viterbi_partial_forward m prev) j ≠ [].
Proof.
  intros HK Hl Hnil.
  pose proof (length_column (tf_viterbi_partial_forward m prev) j) as Hc.
  rewrite Hnil, nrows_tf_partial_forward in Hc by done. cbn in Hc. lia.
Qed.

Lemma length_tf_states_of m (prev : vec) :
  length (tf_states_of tf_argmax m prev) = K m.
Proof.
  unfold tf_states_of, tf_argmax0.
  by rewrite length_fmap, length_seq, ncols_tf_partial_forward.
Qed.

Lemma length_tf_scores_of m (prev : vec) yy :
  length (w m) = K m → length (tf_scores_of tf_reduce_max m prev yy) = K m.
Proof.
  intros Hw. unfold tf_scores_of, tf_reduce_max0, vadd.
  rewrite length_zip_with, length_fmap, length_seq, length_log_lik.
  rewrite ncols_tf_partial_forward. lia.
Qed.

Lemma tf_states_of_lt m (prev : vec) :
  K m ≠ 0 → length prev = K m →
  (∀ v : vec, v ≠ [] → tf_argmax v < length v) →
  Forall (λ i, i < K m) (tf_states_of tf_argmax m prev).
Proof.
  intros HK Hl Hrange. unfold tf_states_of, tf_argmax0.
  apply Forall_fmap, Forall_forall. intros j _. unfold compose.
  pose proof (Hrange _ (tf_column_nonempty m prev j HK Hl)) as Hlt.
  rewrite length_column, nrows_tf_partial_forward in Hlt by done.
  by rewrite <- Hl.
Qed.

Lemma tf_states_of_eq m (prev : vec) :
  K m ≠ 0 → length prev = K m →
  (∀ v : vec, v ≠ [] → tf_argmax v = argmax_list v) →
  tf_states_of tf_argmax m prev = states_of m prev.
Proof.
  intros HK Hl Harg. unfold tf_states_of, tf_argmax0, states_of.
  rewrite ncols_tf_partial_forward. apply list_fmap_ext. intros i j Hj.
  apply lookup_seq in Hj as [-> Hj]. cbn [Nat.add].
  rewrite Harg by by apply tf_column_nonempty.
  by rewrite tf_column.
Qed.

Lemma tf_scores_of_eq m (prev : vec) yy :
  K m ≠ 0 → length prev = K m →
  (∀ v : vec, v ≠ [] → tf_reduce_max v = max_list v) →
  tf_scores_of tf_reduce_max m prev yy = scores_of m prev yy.
Proof.
  intros HK Hl Hmax. unfold tf_scores_of, tf_reduce_max0, scores_of. f_equal.
  rewrite ncols_tf_partial_forward. apply list_fmap_ext. intros i j Hj.
  apply lookup_seq in Hj as [-> Hj]. cbn [Nat.add].
  rewrite Hmax by by apply tf_column_nonempty.
  by rewrite tf_column.
Qed.

Lemma tf_viterbi_body_Ok m (pst : list (option (list nat))) (psc : list vec)
    t yy prev :
  psc !! t = Some prev →
  tf_viterbi_body tf_argmax tf_reduce_max m (pst, psc) (t, yy) =
    Ok (pst ++ [Some (tf_states_of tf_argmax m prev)],
        psc ++ [tf_scores_of tf_reduce_max m prev yy]).
Proof.
  intros Hprev. unfold tf_viterbi_body.
  by rewrite (getitem_Some _ _ _ Hprev).
Qed.

Lemma tf_viterbi_loop m y :
  ∀ (l : vec) a (pst : list (option (list nat))) (psc : list vec),
  a + 1 + length l = length y →
  (∀ k, l !! k = y !! (a + 1 + k)) →
  length pst = a + 1 →
  length psc = a + 1 →
  ∃ pst' psc',
    foldlM (tf_viterbi_body tf_argmax tf_reduce_max m)
      (zip (seq a (length l)) l) (pst, psc) = Ok (pst', psc') ∧
    length pst' = length y ∧
    length psc' = length y ∧
    (∀ i, i ≤ a → pst' !! i = pst !! i ∧ psc' !! i = psc !! i) ∧
    (∀ t prev yy, a ≤ t → psc' !! t = Some prev → y !! (t + 1) = Some yy →
       pst' !! (t + 1) = Some (Some (tf_states_of tf_argmax m prev)) ∧
       psc' !! (t + 1) = Some (tf_scores_of tf_reduce_max m prev yy)).
Proof.
  induction l as [|yy l IH]; intros a pst psc Hal Hl Hpst Hpsc.
  - exists pst, psc. cbn in Hal.
    split; [done|]. split; [lia|]. split; [lia|]. split; [done|].
    intros t prev yy' Hat _ Hy. apply lookup_lt_Some in Hy. lia.
  - cbn [length] in Hal.
    destruct (lookup_lt_is_Some_2 psc a) as [prev Hprev]; [lia|].
    set (pst1 := pst ++ [Some (tf_states_of tf_argmax m prev)]).
    set (psc1 := psc ++ [tf_scores_of tf_reduce_max m prev yy]).
    destruct (IH (S a) pst1 psc1)
      as (pst' & psc' & Hrun & Hl1 & Hl2 & Hkeep & Hstep).
    { lia. }
    { intros k. replace (S a + 1 + k) with (a + 1 + S k) by lia.
      by rewrite <- Hl. }
    { unfold pst1. rewrite length_app. cbn. lia. }
    { unfold psc1. rewrite length_app. cbn. lia. }
    assert (Hyy : y !! (a + 1) = Some yy).
    { specialize (Hl 0). cbn in Hl. rewrite Nat.add_0_r in Hl. done. }
    exists pst', psc'. split; [|split; [done|split; [done|split]]].
    + cbn [length seq zip zip_with]. erewrite foldlM_cons; [exact Hrun|].
      by apply tf_viterbi_body_Ok.
    + intros i Hi. destruct (Hkeep i) as [-> ->]; [lia|].
      unfold pst1, psc1. rewrite !lookup_app_l by lia. done.
    + intros t prev' yy' Hat Hprev' Hyy'.
      destruct (decide (t = a)) as [->|Hne]; [|apply Hstep; [lia|done..]].
      destruct (Hkeep a) as [_ Ha]; [lia|].
      rewrite Ha in Hprev'. unfold psc1 in Hprev'.
      rewrite lookup_app_l in Hprev' by lia.
      assert (prev' = prev) as -> by congruence.
      assert (yy' = yy) as -> by congruence.
      destruct (Hkeep (a + 1)) as [-> ->]; [lia|].
      unfold pst1, psc1.
      split; apply list_lookup_middle; lia.
Qed.

Lemma tf_viterbi_tables_spec m (obs : num) (ys : vec) :
  ∃ pst psc,
    tf_viterbi_tables tf_argmax tf_reduce_max m (obs :: ys) = Ok (pst, psc) ∧
    tf_viterbi_tables_ok tf_argmax tf_reduce_max m (obs :: ys) pst psc.
Proof.
  unfold tf_viterbi_tables, enumerate.
  cbn [length getitem lookup list_lookup]. cbn [mbind result_bind].
  change (drop 1 (obs :: ys)) with ys.
  destruct (tf_viterbi_loop m (obs :: ys) ys 0 [None]
              [vadd (logp0 m) (log_lik m obs)])
    as (pst & psc & Hrun & Hl1 & Hl2 & Hkeep & Hstep);
    [cbn; lia | done | done | done |].
  exists pst, psc. split; [exact Hrun|]. split; [done | done | |].
  - intros obs' [= <-]. by destruct (Hkeep 0) as [_ ->]; [lia|].
  - intros t prev yy. apply Hstep. lia.
Qed.

Lemma tf_tables_scores_row m y pst psc :
  HMM_shaped m → tf_viterbi_tables_ok tf_argmax tf_reduce_max m y pst psc →
  ∀ t row, psc !! t = Some row → length row = K m.
Proof.
  intros Hm Hok. intros [|t] row Hrow.
  - destruct (lookup_lt_is_Some_2 y 0) as [y0 Hy0].
    { apply lookup_lt_Some in Hrow.
      by rewrite (tf_tables_scores_length _ _ _ _ _ _ Hok) in Hrow. }
    rewrite (tf_tables_init _ _ _ _ _ _ Hok y0 Hy0) in Hrow.
    injection Hrow as <-.
    unfold vadd. rewrite length_zip_with, length_log_lik.
    rewrite (shaped_w m Hm), (shaped_logp0 m Hm). lia.
  - pose proof (lookup_lt_Some _ _ _ Hrow) as Hlt.
    rewrite (tf_tables_scores_length _ _ _ _ _ _ Hok) in Hlt.
    destruct (lookup_lt_is_Some_2 psc t) as [prev Hprev].
    { rewrite (tf_tables_scores_length _ _ _ _ _ _ Hok). lia. }
    destruct (lookup_lt_is_Some_2 y (t + 1)) as [yy Hyy]; [lia|].
    destruct (tf_tables_step _ _ _ _ _ _ Hok t prev yy Hprev Hyy) as [_ Hsc].
    replace (t + 1) with (S t) in Hsc by lia.
    rewrite Hsc in Hrow. injection Hrow as <-.
    apply length_tf_scores_of, (shaped_w m Hm).
Qed.

Lemma tf_tables_states_row m y pst psc :
  HMM_shaped m → K m ≠ 0 →
  (∀ v : vec, v ≠ [] → tf_argmax v < length v) →
  tf_viterbi_tables_ok tf_argmax tf_reduce_max m y pst psc →
  tf_states_in_range (K m) pst.
Proof.
  intros Hm HK Hrange Hok t o Ht Ho.
  pose proof (lookup_lt_Some _ _ _ Ho) as Hlt.
  rewrite (tf_tables_states_length _ _ _ _ _ _ Hok) in Hlt.
  destruct t as [|t]; [lia|].
  destruct (lookup_lt_is_Some_2 psc t) as [prev Hprev].
  { rewrite (tf_tables_scores_length _ _ _ _ _ _ Hok). lia. }
  destruct (lookup_lt_is_Some_2 y (t + 1)) as [yy Hyy]; [lia|].
  destruct (tf_tables_step _ _ _ _ _ _ Hok t prev yy Hprev Hyy) as [Hst _].
  replace (t + 1) with (S t) in Hst by lia.
  rewrite Hst in Ho. injection Ho as <-.
  exists (tf_states_of tf_argmax m prev). split; [done|].
  split; [apply length_tf_states_of|].
  apply tf_states_of_lt; [done| |done].
  by eapply tf_tables_scores_row.
Qed.

Lemma tf_backtrack_body_Ok (pst : list (option (list nat))) (s : list nat)
    t st row prev :
  pst !! t = Some (Some row) → s !! t = Some st → row !! st = Some prev →
  t - 1 < length s →
  tf_backtrack_body pst s t = Ok (<[t - 1 := prev]> s).
Proof.
  intros Hrow Hst Hprev Hlt. unfold tf_backtrack_body.
  rewrite (getitem_Some _ _ _ Hrow). cbn.
  rewrite (getitem_Some _ _ _ Hst). cbn.
  rewrite (getitem_Some _ _ _ Hprev). cbn.
  by apply setitem_lt.
Qed.

Lemma tf_backtrack_loop (pst : list (option (list nat))) k :
  tf_states_in_range k pst →
  ∀ n (s : list nat) a,
  n < length s →
  n < length pst →
  s !! n = Some a → a < k →
  ∃ s',
    foldlM (tf_backtrack_body pst) (rev (seq 1 n)) s = Ok s' ∧
    length s' = length s ∧
    (∀ i, n ≤ i → s' !! i = s !! i) ∧
    (∀ t, 1 ≤ t ≤ n → ∃ st row,
       s' !! t = Some st ∧ pst !! t = Some (Some row) ∧
       s' !! (t - 1) = row !! st) ∧
    (∀ i x, i ≤ n → s' !! i = Some x → x < k).
Proof.
  intros Hrange. induction n as [|n IH]; intros s a Hn Hlen Ha Hak.
  - exists s. cbn. split; [done|]. split; [done|]. split; [done|]. split.
    + intros; lia.
    + intros i x Hi Hx. assert (i = 0) as -> by lia. congruence.
  - destruct (lookup_lt_is_Some_2 pst (S n)) as [o Ho]; [lia|].
    destruct (Hrange (S n) o) as (row & -> & Hrl & Hrk); [lia|done|].
    destruct (lookup_lt_is_Some_2 row a) as [prev Hprev]; [lia|].
    assert (Hpk : prev < k).
    { eapply (Forall_lookup_1 _ _ _ _ Hrk Hprev). }
    set (s1 := <[n := prev]> s).
    destruct (IH s1 prev) as (s' & Hrun & Hlen' & Hkeep & Hstep & Hlt).
    { unfold s1. rewrite length_insert. lia. }
    { lia. }
    { unfold s1. rewrite list_lookup_insert_eq by lia. done. }
    { done. }
    assert (HsS : s' !! S n = Some a).
    { rewrite Hkeep by lia. unfold s1.
      rewrite list_lookup_insert_ne by lia. done. }
    assert (Hsn : s' !! n = Some prev).
    { rewrite Hkeep by lia. unfold s1.
      rewrite list_lookup_insert_eq by lia. done. }
    exists s'. split; [|split; [|split; [|split]]].
    + rewrite rev_seq_S. cbn [Nat.add]. erewrite foldlM_cons; [exact Hrun|].
      rewrite (tf_backtrack_body_Ok pst s (S n) a row prev); [|done..|lia].
      by replace (S n - 1) with n by lia.
    + rewrite Hlen'. unfold s1. by rewrite length_insert.
    + intros i Hi. rewrite Hkeep by lia. unfold s1.
      apply list_lookup_insert_ne. lia.
    + intros t Ht. destruct (decide (t = S n)) as [->|Hne].
      * exists a, row. replace (S n - 1) with n by lia.
        split; [done|]. split; [done|]. congruence.
      * apply Hstep. lia.
    + intros i x Hi Hx. destruct (decide (i = S n)) as [->|Hne].
      * congruence.
      * apply (Hlt i x); [lia|done].
Qed.

Lemma tf_backtrack_spec (pst : list (option (list nat))) (psc : list vec)
    nT k final :
  tf_states_in_range k pst →
  1 ≤ nT ≤ length pst →
  psc !! (length psc - 1) = Some final →
  tf_argmax final < k →
  ∃ s,
    tf_backtrack tf_argmax pst psc nT = Ok s ∧
    length s = nT ∧
    s !! (nT - 1) = Some (tf_argmax final) ∧
    (∀ t, 1 ≤ t < nT → ∃ st row,
       s !! t = Some st ∧ pst !! t = Some (Some row) ∧
       s !! (t - 1) = row !! st) ∧
    Forall (λ i, i < k) s.
Proof.
  intros Hrange HT Hfinal Hk. unfold tf_backtrack, last_index.
  rewrite (getitem_Some _ _ _ Hfinal). cbn [mbind result_bind].
  rewrite length_replicate.
  rewrite setitem_lt by (rewrite length_replicate; lia). cbn [mbind result_bind].
  set (s0 := <[nT - 1 := _]> _).
  assert (Hs0 : length s0 = nT).
  { unfold s0. by rewrite length_insert, length_replicate. }
  destruct (tf_backtrack_loop pst k Hrange (nT - 1) s0 (tf_argmax final))
    as (s & Hrun & Hlen & Hkeep & Hstep & Hlt).
  { lia. } { lia. }
  { unfold s0. rewrite list_lookup_insert_eq by (rewrite length_replicate; lia).
    done. }
  { done. }
  exists s. split; [exact Hrun|]. split; [lia|]. split; [|split].
  - rewrite Hkeep by lia. unfold s0.
    rewrite list_lookup_insert_eq by (rewrite length_replicate; lia). done.
  - intros t Ht. apply Hstep. lia.
  - apply Forall_lookup_2. intros i x Hx. apply (Hlt i x); [|done].
    apply lookup_lt_Some in Hx. lia.
Qed.

(** The whole of the TensorFlow [viterbi_decode] for [1 <= nT <= T]. *)
Lemma tf_viterbi_decode_spec m (y : vec) nT :
  HMM_shaped m → K m ≠ 0 →
  (∀ v : vec, v ≠ [] → tf_argmax v < length v) →
  1 ≤ nT ≤ length y →
  ∃ pst psc s final,
    tf_viterbi_tables tf_argmax tf_reduce_max m y = Ok (pst, psc) ∧
    tf_viterbi_tables_ok tf_argmax tf_reduce_max m y pst psc ∧
    tf_viterbi_decode tf_argmax tf_reduce_max m y nT = Ok (s, psc) ∧
    length s = nT ∧
    psc !! (length y - 1) = Some final ∧
    s !! (nT - 1) = Some (tf_argmax final) ∧
    (∀ t, 1 ≤ t < nT → ∃ st row,
       s !! t = Some st ∧ pst !! t = Some (Some row) ∧
       s !! (t - 1) = row !! st) ∧
    Forall (λ i, i < K m) s.
Proof.
  intros Hm HK Hrange HT. destruct y as [|obs ys]; [cbn in HT; lia|].
  destruct (tf_viterbi_tables_spec m obs ys) as (pst & psc & Htab & Hok).
  pose proof (tf_tables_states_length _ _ _ _ _ _ Hok) as Hl1.
  pose proof (tf_tables_scores_length _ _ _ _ _ _ Hok) as Hl2.
  destruct (lookup_lt_is_Some_2 psc (length (obs :: ys) - 1)) as [final Hfinal].
  { cbn in *. lia. }
  pose proof (tf_tables_scores_row m _ pst psc Hm Hok _ _ Hfinal) as Hfl.
  assert (Hne : final ≠ []). { intros ->. cbn in Hfl. lia. }
  destruct (tf_backtrack_spec pst psc nT (K m) final)
    as (s & Hbt & Hsl & Hlast & Hback & Hlt).
  { by eapply tf_tables_states_row. }
  { lia. }
  { by rewrite Hl2. }
  { rewrite <- Hfl. by apply Hrange. }
  exists pst, psc, s, final. split; [done|]. split; [done|]. split.
  { unfold tf_viterbi_decode. rewrite Htab. cbn [mbind result_bind].
    by rewrite Hbt. }
  done.
Qed.

Lemma foldlM_ext {A S : Type} (f g : S → A → result S) (xs : list A) :
  (∀ s x, x ∈ xs → f s x = g s x) →
  ∀ s, foldlM f xs s = foldlM g xs s.
Proof.
  induction xs as [|x xs IH]; intros Hfg s; [done|]. cbn [foldlM].
  rewrite (Hfg s x) by apply list_elem_of_here.
  destruct (g s x) as [s'|e]; cbn; [|done].
  apply IH. intros s1 x1 Hx1. apply Hfg. by apply list_elem_of_further.
Qed.

Lemma elem_of_rev_seq a n t : t ∈ rev (seq a n) → a ≤ t.
Proof.
  induction n as [|n IH]; [by intros ?%elem_of_nil|].
  rewrite rev_seq_S. intros [->|?]%elem_of_cons; [lia | by apply IH].
Qed.

(** The two backtracking bodies agree when the tables do. *)
Lemma tf_backtrack_body_eq (pstT : list (option (list nat)))
    (pst : list (list nat)) (s : list nat) t :
  pstT !! t = Some <$> pst !! t →
  tf_backtrack_body pstT s t = backtrack_body pst s t.
Proof.
  intros Ht. unfold tf_backtrack_body, backtrack_body, getitem.
  rewrite Ht. destruct (pst !! t) as [row|], (s !! t) as [st|]; done.
Qed.

End TensorflowDecode.

Section TensorflowDecodeResults.
Context `{B : Backend}.
Context (tf_argmax : vec → nat) (tf_reduce_max : vec → num).

(** X16. For a Model with K >= 1 states and an argmax that returns a
    position of its argument, [HMMTensorflow.viterbi_decode(y, nT)] raises
    IndexError when [y] is empty, when [nT = 0] and when [nT] exceeds the
    length T of [y]; for [1 <= nT <= T] it returns a path of [nT] states
    below K and a list [pathScores] of T rows of K entries. *)
Theorem tf_viterbi_decode_outcome w0 P0 op m (y : vec) nT :
  HMM_init w0 P0 op = Ok m →
  w0 ≠ [] →
  (∀ v : vec, v ≠ [] → tf_argmax v < length v) →
  (y = [] ∨ nT = 0 ∨ length y < nT →
     tf_viterbi_decode tf_argmax tf_reduce_max m y nT = Err IndexError) ∧
  (1 ≤ nT ≤ length y →
     ∃ s pathScores,
       tf_viterbi_decode tf_argmax tf_reduce_max m y nT
         = Ok (s, pathScores) ∧
       length s = nT ∧ Forall (λ i, i < K m) s ∧
       length pathScores = length y ∧
       Forall (λ row, length row = K m) pathScores).
Proof.
  intros Hinit Hw Hrange. pose proof (HMM_init_shaped _ _ _ _ Hinit) as Hm.
  destruct (HMM_init_Ok _ _ _ _ Hinit) as (_ & _ & HK & _).
  assert (HK0 : K m ≠ 0). { rewrite HK. by destruct w0. }
  split.
  - intros Hbad. destruct y as [|obs ys]; [reflexivity|].
    destruct Hbad as [Hbad|Hbad]; [done|].
    destruct (tf_viterbi_tables_spec tf_argmax tf_reduce_max m obs ys)
      as (pst & psc & Htab & Hok).
    pose proof (tf_tables_states_length _ _ _ _ _ _ Hok) as Hl1.
    pose proof (tf_tables_scores_length _ _ _ _ _ _ Hok) as Hl2.
    destruct (lookup_lt_is_Some_2 psc (length psc - 1)) as [final Hfinal].
    { cbn in *. lia. }
    unfold tf_viterbi_decode. rewrite Htab. cbn [mbind result_bind].
    unfold tf_backtrack, last_index.
    rewrite (getitem_Some _ _ _ Hfinal). cbn [mbind result_bind].
    rewrite length_replicate. destruct Hbad as [->|Hbad].
    + rewrite setitem_ge by (cbn; lia). done.
    + rewrite setitem_lt by (rewrite length_replicate; cbn in *; lia).
      cbn [mbind result_bind].
      destruct nT as [|[|n]]; [cbn in Hbad; lia | cbn in Hbad; lia |].
      replace (S (S n) - 1) with (S n) by lia.
      rewrite rev_seq_S. cbn [Nat.add].
      erewrite foldlM_Err; [done|].
      unfold tf_backtrack_body, getitem.
      rewrite (lookup_ge_None_2 pst) by (cbn in *; lia). done.
  - intros HT.
    destruct (tf_viterbi_decode_spec tf_argmax tf_reduce_max m y nT Hm HK0
                Hrange HT)
      as (pst & psc & s & final & _ & Hok & Hdec & Hlen & _ & _ & _ & Hlt).
    exists s, psc. split; [done|]. split; [done|]. split; [done|].
    split; [apply (tf_tables_scores_length _ _ _ _ _ _ Hok)|].
    apply Forall_lookup_2. intros t row Hrow.
    by eapply tf_tables_scores_row.
Qed.

(** X17. For a Model with K >= 1 states, when [tf.argmax] picks the first
    greatest entry like [np.argmax] and [tf.reduce_max] is [np.max], the
    TensorFlow decoder called with [nT = len(y)] returns what
    [HMMNumpy.viterbi_decode] returns, path and scores (and raises the same
    IndexError on the empty sequence). *)
Theorem tf_viterbi_decode_agrees w0 P0 op m (y : vec) :
  HMM_init w0 P0 op = Ok m →
  w0 ≠ [] →
  (∀ v : vec, v ≠ [] → tf_argmax v = argmax_list v) →
  (∀ v : vec, v ≠ [] → tf_reduce_max v = max_list v) →
  tf_viterbi_decode tf_argmax tf_reduce_max m y (length y) =
    viterbi_decode m y.
Proof.
  intros Hinit Hw Harg Hmax. pose proof (HMM_init_shaped _ _ _ _ Hinit) as Hm.
  destruct (HMM_init_Ok _ _ _ _ Hinit) as (_ & _ & HK & _).
  assert (HK0 : K m ≠ 0). { rewrite HK. by destruct w0. }
  destruct y as [|obs ys]; [reflexivity|].
  destruct (tf_viterbi_tables_spec tf_argmax tf_reduce_max m obs ys)
    as (pstT & pscT & HtabT & HokT).
  destruct (viterbi_decode_spec m (obs :: ys) Hm HK0)
    as (pst & psc & s & final & Htab & Hok & _); [done|].
  pose proof (tf_tables_states_length _ _ _ _ _ _ HokT) as HlT1.
  pose proof (tf_tables_scores_length _ _ _ _ _ _ HokT) as HlT2.
  pose proof (tables_states_length _ _ _ _ Hok) as Hl1.
  pose proof (tables_scores_length _ _ _ _ Hok) as Hl2.
  (* the two score tables are equal *)
  assert (Hsc : ∀ t, pscT !! t = psc !! t).
  { induction t as [|t IH].
    - rewrite (tf_tables_init _ _ _ _ _ _ HokT obs eq_refl).
      by rewrite (tables_init _ _ _ _ Hok obs eq_refl).
    - destruct (decide (S t < length (obs :: ys))) as [Hlt|Hge].
      + destruct (lookup_lt_is_Some_2 psc t) as [prev Hprev]; [lia|].
        destruct (lookup_lt_is_Some_2 (obs :: ys) (t + 1)) as [yy Hyy]; [lia|].
        destruct (tables_step _ _ _ _ Hok t prev yy Hprev Hyy) as [_ Hs].
        rewrite <- IH in Hprev.
        destruct (tf_tables_step _ _ _ _ _ _ HokT t prev yy Hprev Hyy)
          as [_ HsT].
        replace (t + 1) with (S t) in Hs, HsT by lia.
        rewrite Hs, HsT. f_equal. apply tf_scores_of_eq; [done| |done].
        rewrite IH in Hprev. by eapply tables_scores_row.
      + rewrite !lookup_ge_None_2 by lia. done. }
  assert (pscT = psc) as -> by by apply list_eq.
  (* and so are the back-pointers from time 1 on *)
  assert (Hst : ∀ t, 1 ≤ t → pstT !! t = Some <$> pst !! t).
  { intros [|t] Ht; [lia|].
    destruct (decide (S t < length (obs :: ys))) as [Hlt|Hge].
    - destruct (lookup_lt_is_Some_2 psc t) as [prev Hprev]; [lia|].
      destruct (lookup_lt_is_Some_2 (obs :: ys) (t + 1)) as [yy Hyy]; [lia|].
      destruct (tables_step _ _ _ _ Hok t prev yy Hprev Hyy) as [Hs _].
      destruct (tf_tables_step _ _ _ _ _ _ HokT t prev yy Hprev Hyy)
        as [HsT _].
      replace (t + 1) with (S t) in Hs, HsT by lia.
      rewrite Hs, HsT. cbn. do 2 f_equal.
      apply tf_states_of_eq; [done| |done].
      by eapply tables_scores_row.
    - rewrite !lookup_ge_None_2 by lia. done. }
  unfold tf_viterbi_decode, viterbi_decode.
  rewrite HtabT, Htab. cbn [mbind result_bind].
  assert (Hbt : tf_backtrack tf_argmax pstT psc (length (obs :: ys)) =
                backtrack pst psc (length (obs :: ys))).
  { unfold tf_backtrack, backtrack.
    destruct (getitem psc (last_index psc)) as [row|e] eqn:Hrow;
      cbn [mbind result_bind]; [|done].
    apply getitem_Ok in Hrow.
    pose proof (tables_scores_row m _ pst psc Hm Hok _ _ Hrow) as Hrl.
    assert (Hne : row ≠ []). { intros ->. cbn in Hrl. lia. }
    unfold np_argmax. rewrite decide_False by done. cbn [mbind result_bind].
    rewrite (Harg row Hne).
    destruct (setitem _ _ _) as [s0|e]; cbn [mbind result_bind]; [|done].
    apply foldlM_ext. intros s1 t Ht. apply tf_backtrack_body_eq.
    apply Hst. by apply elem_of_rev_seq in Ht. }
  by rewrite Hbt.
Qed.

(** X18. For [1 <= nT <= T] the path of the TensorFlow decoder ends in the
    argmax of the scores of the last time T - 1 of the sequence, also when
    [nT < T], and every earlier entry is gathered from the back-pointers:
    [s[nT-1] = argmax(pathScores[T-1])] and [s[t-1] = pathStates[t][s[t]]]
    for [1 <= t < nT], each gather reading inside the tensor. *)
Theorem tf_viterbi_decode_path w0 P0 op m (y : vec) nT :
  HMM_init w0 P0 op = Ok m →
  w0 ≠ [] →
  (∀ v : vec, v ≠ [] → tf_argmax v < length v) →
  1 ≤ nT ≤ length y →
  ∃ pathStates pathScores s final,
    tf_viterbi_tables tf_argmax tf_reduce_max m y
      = Ok (pathStates, pathScores) ∧
    tf_viterbi_decode tf_argmax tf_reduce_max m y nT = Ok (s, pathScores) ∧
    pathScores !! (length y - 1) = Some final ∧
    s !! (nT - 1) = Some (tf_argmax final) ∧
    ∀ t, 1 ≤ t < nT → ∃ st states prev,
      s !! t = Some st ∧ pathStates !! t = Some (Some states) ∧
      states !! st = Some prev ∧ s !! (t - 1) = Some prev.
Proof.
  intros Hinit Hw Hrange HT. pose proof (HMM_init_shaped _ _ _ _ Hinit) as Hm.
  destruct (HMM_init_Ok _ _ _ _ Hinit) as (_ & _ & HK & _).
  assert (HK0 : K m ≠ 0). { rewrite HK. by destruct w0. }
  destruct (tf_viterbi_decode_spec tf_argmax tf_reduce_max m y nT Hm HK0
              Hrange HT)
    as (pst & psc & s & final & Htab & Hok & Hdec & Hlen & Hfinal & Hlast &
        Hback & Hlt).
  exists pst, psc, s, final.
  split; [done|]. split; [done|]. split; [done|]. split; [done|].
  intros t Ht. destruct (Hback t Ht) as (st & row & Hst & Hrow & Hprev).
  destruct (lookup_lt_is_Some_2 s (t - 1)) as [prev Hp]; [lia|].
  exists st, row, prev. split; [done|]. split; [done|].
  split; [congruence | done].
Qed.

End TensorflowDecodeResults.

(** ** The further results, instantiated *)

Section ConcreteResults.

Lemma empty_init : HMM_init [] empty_P None = Ok empty_hmm.
Proof. reflexivity. Qed.

Lemma stuck_init : HMM_init [Fin 0] stuck_P None = Ok stuck_hmm.
Proof. reflexivity. Qed.

Lemma stuck_w_nonempty : [Fin 0] ≠ ([] : vec).
Proof. done. Qed.

Lemma one_obs_nonempty : one_obs ≠ [].
Proof. done. Qed.

Lemma one_obs_finite : Forall finite one_obs.
Proof. repeat constructor. Qed.

Lemma mul_one_l (x : num) : XReal.mul (Fin 1) x = x.
Proof.
  destruct x as [r| | |]; unfold XReal.mul, XReal.sign.
  - f_equal. lra.
  - destruct (Rlt_dec 0 1) as [|Hn]; [done|]. exfalso. lra.
  - destruct (Rlt_dec 0 1) as [|Hn]; [done|]. exfalso. lra.
  - destruct (Rlt_dec 0 1) as [|Hn]; [done|]. exfalso. lra.
Qed.

Lemma toy_stay_finite t :
  finite (score_at toy_hmm toy_y (replicate 9 0) t).
Proof.
  assert (Hq : ∀ i, replicate 9 0 !!! i = 0).
  { intros i. rewrite list_lookup_total_alt.
    destruct (replicate 9 0 !! i) as [x|] eqn:Hx; [|done].
    by apply lookup_replicate in Hx as [-> _]. }
  assert (Hll : ∀ i, finite (log_lik toy_hmm (toy_y !!! i) !!! 0)).
  { intros i. apply finite_log_lik_entry;
      [repeat constructor | apply toy_y_finite]. }
  induction t as [|t IH]; cbn [score_at]; rewrite !Hq.
  - apply finite_add; [|apply Hll].
    cbn. rewrite div_fin by lra. rewrite log_fin_pos by lra. done.
  - apply finite_add; [|apply Hll]. apply finite_add; [done|].
    cbn. rewrite log_fin_pos by lra. done.
Qed.

(** Staying in state 0 is a path of the toy chain with a finite score. *)
Lemma toy_feasible :
  ∃ q, state_path toy_hmm toy_y q ∧ finite (path_score toy_hmm toy_y q).
Proof.
  exists (replicate 9 0). split.
  - split; [done|]. repeat constructor.
  - apply toy_stay_finite.
Qed.

Lemma stuck_zero_sum :
  np_sum (forward_tmp stuck_hmm (uniform 1) (Fin 0)) = Fin 0.
Proof.
  cbn. rewrite div_fin by lra. cbn. f_equal. lra.
Qed.

Lemma forward_backward_outcome_witness :
  HMM_init [] empty_P None = Ok empty_hmm ∧
  forward_backward empty_hmm toy_y = Err ZeroDivisionError.
Proof.
  split; [exact empty_init|].
  exact (proj1 (forward_backward_outcome [] empty_P None empty_hmm toy_y
                  empty_init) eq_refl).
Defined.

Lemma viterbi_decode_outcome_witness :
  HMM_init [] empty_P None = Ok empty_hmm ∧
  viterbi_decode empty_hmm [] = Err IndexError ∧
  viterbi_decode empty_hmm toy_y = Err ValueError.
Proof.
  split; [exact empty_init|].
  destruct (viterbi_decode_outcome [] empty_P None empty_hmm [] empty_init)
    as (Hempty & _).
  destruct (viterbi_decode_outcome [] empty_P None empty_hmm toy_y empty_init)
    as (_ & Hstate & _).
  split; [exact (Hempty eq_refl) | exact (Hstate toy_y_nonempty eq_refl)].
Defined.

Lemma forward_backward_shapes_witness :
  HMM_init toy_w toy_P None = Ok toy_hmm ∧
  ∃ posterior forward backward,
    forward_backward toy_hmm toy_y = Ok (posterior, forward, backward) ∧
    length posterior = 9 ∧ length forward = 9 ∧ length backward = 9.
Proof.
  split; [exact toy_init|].
  destruct (forward_backward_shapes toy_w toy_P None toy_hmm toy_y toy_init
              toy_w_nonempty)
    as (post & fwd & bwd & Hfb & (Hp & _) & (Hf & _) & (Hb & _)).
  exists post, fwd, bwd.
  split; [exact Hfb|]. split; [exact Hp|]. split; [exact Hf | exact Hb].
Defined.

Lemma viterbi_scores_shape_witness :
  HMM_init toy_w toy_P None = Ok toy_hmm ∧
  ∃ s pathScores,
    viterbi_decode toy_hmm toy_y = Ok (s, pathScores) ∧
    length pathScores = 9 ∧
    Forall (λ row, length row = 2) pathScores.
Proof.
  split; [exact toy_init|].
  destruct (viterbi_scores_shape toy_w toy_P None toy_hmm toy_y toy_init
              toy_w_nonempty toy_y_nonempty)
    as (s & psc & Hdec & Hlen & Hrows).
  exists s, psc. split; [exact Hdec|]. split; [exact Hlen | exact Hrows].
Defined.

Lemma viterbi_backpointer_score_witness :
  HMM_init toy_w toy_P None = Ok toy_hmm ∧
  ∃ pathStates pathScores states i,
    viterbi_tables toy_hmm toy_y = Ok (pathStates, pathScores) ∧
    pathStates !! 1 = Some states ∧ states !! 0 = Some i ∧ i < 2.
Proof.
  split; [exact toy_init|].
  destruct (viterbi_backpointer_score toy_w toy_P None toy_hmm toy_y toy_init
              toy_w_nonempty toy_y_nonempty)
    as (pst & psc & Htab & Hstep).
  destruct (Hstep 1 0) as (prev & yt & states & scores & i & before & l &
    _ & _ & Hstates & _ & Hi & Hlt & _); [cbn; lia | cbn; lia |].
  exists pst, psc, states, i.
  split; [exact Htab|]. split; [exact Hstates|]. split; [exact Hi | exact Hlt].
Defined.

Lemma viterbi_path_score_witness :
  HMM_init toy_w toy_P None = Ok toy_hmm ∧
  ∃ s pathScores st final,
    viterbi_decode toy_hmm toy_y = Ok (s, pathScores) ∧
    s !! 8 = Some st ∧ pathScores !! 8 = Some final ∧
    final !! st = Some (path_score toy_hmm toy_y s).
Proof.
  split; [exact toy_init|].
  destruct (viterbi_path_score toy_w toy_P None toy_hmm toy_y toy_init
              toy_w_nonempty toy_y_nonempty)
    as (s & psc & Hdec & _ & st & final & Hst & Hfinal & Hscore).
  exists s, psc, st, final.
  split; [exact Hdec|]. split; [exact Hst|]. split; [exact Hfinal|].
  exact Hscore.
Defined.

Lemma viterbi_optimal_witness :
  HMM_init toy_w toy_P None = Ok toy_hmm ∧ valid_inputs toy_hmm toy_y ∧
  ∃ s pathScores,
    viterbi_decode toy_hmm toy_y = Ok (s, pathScores) ∧
    XReal.leb (path_score toy_hmm toy_y (replicate 9 1))
      (path_score toy_hmm toy_y s) = true.
Proof.
  split; [exact toy_init|]. split; [exact (toy_valid toy_y toy_y_finite)|].
  destruct (viterbi_optimal toy_w toy_P None toy_hmm toy_y toy_init
              toy_w_nonempty toy_y_nonempty (toy_valid toy_y toy_y_finite))
    as (s & psc & Hdec & _ & Hbest).
  exists s, psc. split; [exact Hdec|].
  apply Hbest. split; [reflexivity|]. repeat constructor.
Defined.

Lemma viterbi_path_feasible_witness :
  HMM_init toy_w toy_P None = Ok toy_hmm ∧ valid_inputs toy_hmm toy_y ∧
  (∃ q, state_path toy_hmm toy_y q ∧ finite (path_score toy_hmm toy_y q)) ∧
  ∃ s pathScores,
    viterbi_decode toy_hmm toy_y = Ok (s, pathScores) ∧
    finite (path_score toy_hmm toy_y s) ∧
    positive (p0 toy_hmm !!! (s !!! 0)) ∧
    ∀ t, 1 ≤ t < 9 →
      positive (cell (P toy_hmm) (s !!! (t - 1)) (s !!! t)).
Proof.
  split; [exact toy_init|]. split; [exact (toy_valid toy_y toy_y_finite)|].
  split; [exact toy_feasible|].
  destruct (viterbi_path_feasible toy_w toy_P None toy_hmm toy_y toy_init
              toy_w_nonempty toy_y_nonempty
              (toy_valid toy_y toy_y_finite) toy_feasible)
    as (s & psc & Hdec & Hfin & Hstart & Hsteps).
  exists s, psc. split; [exact Hdec|]. split; [exact Hfin|].
  split; [exact Hstart | exact Hsteps].
Defined.

Lemma default_p0_uniform_witness :
  HMM_init toy_w toy_P None = Ok toy_hmm ∧
  p0 toy_hmm = [Fin (1 / INR 2); Fin (1 / INR 2)] ∧
  logp0 toy_hmm = [Fin (ln (1 / INR 2)); Fin (ln (1 / INR 2))].
Proof.
  split; [exact toy_init|].
  destruct (default_p0_uniform toy_w toy_P toy_hmm toy_init toy_w_nonempty)
    as (Hp0 & Hlog).
  split; [exact Hp0 | exact Hlog].
Defined.

Lemma forward_zero_sum_row_witness :
  HMM_init [Fin 0] stuck_P None = Ok stuck_hmm ∧
  np_sum (forward_tmp stuck_hmm (uniform 1) (Fin 0)) = Fin 0 ∧
  ∃ posterior forward backward row,
    forward_backward stuck_hmm one_obs = Ok (posterior, forward, backward) ∧
    forward !! 0 = Some row ∧ length row = 1 ∧
    Forall (λ x, ¬ finite x) row.
Proof.
  split; [exact stuck_init|]. split; [exact stuck_zero_sum|].
  destruct (forward_pass_spec stuck_hmm one_obs) as (aug & Hf & _ & H0 & _);
    [discriminate|].
  exact (forward_zero_sum_row [Fin 0] stuck_P None stuck_hmm one_obs aug 0
           (uniform 1) (Fin 0) stuck_init stuck_w_nonempty Hf H0 eq_refl
           stuck_zero_sum).
Defined.

Lemma backward_entry_sum_witness :
  HMM_init toy_w toy_P None = Ok toy_hmm ∧
  ∃ r : R,
    row0 (backward_tmp toy_hmm [Fin 1; Fin 1] (Fin 0)) !! 0 = Some (Fin r).
Proof.
  split; [exact toy_init|].
  eexists.
  refine (backward_entry_sum toy_w toy_P None toy_hmm (Fin 0) [Fin 1; Fin 1] 0
            toy_init _ _ I _ _).
  - repeat constructor.
  - intros i l Hi Hl. cbn in Hi, Hl.
    destruct i as [|[|i]], l as [|[|l]]; try lia; exact I.
  - repeat constructor.
  - cbn. lia.
Defined.

Lemma tf_forward_backward_agrees_witness :
  HMM_init toy_w toy_P None = Ok toy_hmm ∧
  (∀ x : num, mul one x = x) ∧
  ∃ forward forwardT,
    forward_backward toy_hmm toy_y = Ok forward ∧
    tf_forward_backward toy_hmm toy_y = Ok forwardT ∧
    Forall2 holds_row forwardT.1.2 forward.1.2.
Proof.
  split; [exact toy_init|]. split; [exact mul_one_l|].
  destruct (tf_forward_backward_agrees toy_w toy_P None toy_hmm toy_y toy_init
              toy_w_nonempty mul_one_l)
    as (post & fwd & bwd & postT & fwdT & bwdT & Hfb & Htf & _ & Hrows & _).
  exists (post, fwd, bwd), (postT, fwdT, bwdT).
  split; [exact Hfb|]. split; [exact Htf | exact Hrows].
Defined.

Lemma tf_partial_forward_agrees_witness :
  HMM_init toy_w toy_P None = Ok toy_hmm ∧
  shape (tf_viterbi_partial_forward toy_hmm [Fin 0; Fin 0]) = (2, 2) ∧
  cell (tf_viterbi_partial_forward toy_hmm [Fin 0; Fin 0]) 1 0 =
    cell (_viterbi_partial_forward toy_hmm [Fin 0; Fin 0]) 1 0.
Proof.
  split; [exact toy_init|].
  destruct (tf_partial_forward_agrees toy_w toy_P None toy_hmm
              [Fin 0; Fin 0] toy_init toy_w_nonempty eq_refl)
    as (Hshape & Hcell).
  split; [exact Hshape|]. apply Hcell; cbn; lia.
Defined.

Lemma tf_viterbi_decode_outcome_witness :
  HMM_init toy_w toy_P None = Ok toy_hmm ∧
  (∀ v : vec, v ≠ [] → argmax_list v < length v) ∧
  tf_viterbi_decode argmax_list max_list toy_hmm toy_y 10 = Err IndexError ∧
  ∃ s pathScores,
    tf_viterbi_decode argmax_list max_list toy_hmm toy_y 4
      = Ok (s, pathScores) ∧
    length s = 4 ∧ length pathScores = 9.
Proof.
  split; [exact toy_init|]. split; [exact argmax_list_lt|].
  destruct (tf_viterbi_decode_outcome argmax_list max_list toy_w toy_P None
              toy_hmm toy_y 10 toy_init toy_w_nonempty argmax_list_lt)
    as (Herr & _).
  destruct (tf_viterbi_decode_outcome argmax_list max_list toy_w toy_P None
              toy_hmm toy_y 4 toy_init toy_w_nonempty argmax_list_lt)
    as (_ & Hok).
  split.
  - apply Herr. right. right. cbn. lia.
  - destruct Hok as (s & psc & Hdec & Hlen & _ & Hrows & _); [cbn; lia|].
    exists s, psc. split; [exact Hdec|]. split; [exact Hlen | exact Hrows].
Defined.

Lemma tf_viterbi_decode_agrees_witness :
  HMM_init toy_w toy_P None = Ok toy_hmm ∧
  tf_viterbi_decode argmax_list max_list toy_hmm toy_y 9 =
    viterbi_decode toy_hmm toy_y.
Proof.
  split; [exact toy_init|].
  exact (tf_viterbi_decode_agrees argmax_list max_list toy_w toy_P None
           toy_hmm toy_y toy_init toy_w_nonempty
           (λ _ _, eq_refl) (λ _ _, eq_refl)).
Defined.

Lemma tf_viterbi_decode_path_witness :
  HMM_init toy_w toy_P None = Ok toy_hmm ∧
  ∃ s pathScores final,
    tf_viterbi_decode argmax_list max_list toy_hmm toy_y 4
      = Ok (s, pathScores) ∧
    pathScores !! 8 = Some final ∧
    s !! 3 = Some (argmax_list final).
Proof.
  split; [exact toy_init|].
  destruct (tf_viterbi_decode_path argmax_list max_list toy_w toy_P None
              toy_hmm toy_y 4 toy_init toy_w_nonempty argmax_list_lt)
    as (pst & psc & s & final & _ & Hdec & Hfinal & Hlast & _); [cbn; lia|].
  exists s, psc, final.
  split; [exact Hdec|]. split; [exact Hfinal | exact Hlast].
Defined.

Lemma toy_P_not_negative i j :
  i < K toy_hmm → j < K toy_hmm →
  not_negative finite val (cell (P toy_hmm) i j).
Proof.
  intros Hi Hj.
  pose proof (valid_P _ _ (toy_valid toy_y toy_y_finite) i j Hi Hj) as Hn.
  destruct (cell (P toy_hmm) i j); try done. by intros _.
Qed.

Lemma rows_not_negative_witness :
  HMM_init toy_w toy_P None = Ok toy_hmm ∧
  rounded_arithmetic finite val binary64_u binary64_eta ∧
  ∃ posterior forward backward,
    forward_backward toy_hmm toy_y = Ok (posterior, forward, backward) ∧
    ∀ row, row ∈ posterior → Forall (not_negative finite val) row.
Proof.
  split; [exact toy_init|].
  split; [exact (exact_rounded _ _ binary64_unit binary64_eta_nonneg)|].
  destruct (rows_not_negative finite val binary64_u binary64_eta toy_w toy_P
              None toy_hmm toy_y toy_init toy_w_nonempty
              (exact_rounded _ _ binary64_unit binary64_eta_nonneg)
              toy_P_not_negative)
    as (post & fwd & bwd & Hfb & Hrows).
  exists post, fwd, bwd. split; [exact Hfb|].
  intros row Hrow. apply Hrows. by left.
Defined.

End ConcreteResults.
